(** * XACML-LAB: test generation and suite minimisation

    A shallow embedding of the Python pipeline of the repository
    (src/testcase.py and the variants under src/xacml-lab/) together with
    the properties its specification states about it.

    Conventions of the embedding
    - a Python [str] is a [string]; a Python [set] of strings is a
      [gset string]; a Python [dict] keyed by strings is an insertion-ordered
      association list with unique keys ([dict]);
    - a Python [int] is a [Z] (genome bits) or a [nat] (lengths, counters);
    - the quotient of two lengths, which Python computes as a float, is the
      exact rational [Qc]; the weights 0.8, 0.2 are the rationals 4/5, 1/5.
      Rounding moves a fitness by a few units in its last place: bounds,
      faults and lengths are the same on both, but two individuals of equal
      exact fitness can compare either way as floats. The selection of
      xacml_testcase_ga.py is therefore given on IEEE 754 doubles as well
      ([Binary64], [TestcaseGaFloat]), for the properties that depend on
      which individual [max] picks;
    - a Python exception is the [Raise] case of [result];
    - the process-wide random generator is an explicit stream of draws
      threaded through the genetic operators ([rand]). *)

From stdpp Require Import gmap strings list sets.
From Stdlib Require Import QArith Qcanon.
From Stdlib Require Import Floats.SpecFloat.

Local Open Scope string_scope.
Local Open Scope list_scope.
Local Set Warnings "-clear-no-such-hyp".

(** ** Exceptions *)

Inductive exn : Set :=
| ZeroDivisionError
| ValueError
| IndexError.

Inductive result (A : Type) : Type :=
| Ok (a : A)
| Raise (e : exn).
Arguments Ok {A} a.
Arguments Raise {A} e.

Global Instance result_ret : MRet result := λ A a, Ok a.
Global Instance result_bind : MBind result := λ A B f m,
  match m with
  | Ok a => f a
  | Raise e => Raise e
  end.

(** [[f(x) for x in l]] where [f] may raise: left to right, first fault wins. *)
Fixpoint result_map {A B} (f : A → result B) (l : list A) : result (list B) :=
  match l with
  | [] => Ok []
  | x :: l' => y ← f x; ys ← result_map f l'; mret (y :: ys)
  end.

(** ** Python dictionaries (insertion ordered) *)

Section dict.
Context {V : Type}.

Definition dict := list (string * V).

(** [d.get(k)] *)
Fixpoint dict_get (d : dict) (k : string) : option V :=
  match d with
  | [] => None
  | (k', v) :: d' => if decide (k' = k) then Some v else dict_get d' k
  end.

(** [d[k] = v]: an existing key keeps its position, a new key goes last. *)
Fixpoint dict_set (d : dict) (k : string) (v : V) : dict :=
  match d with
  | [] => [(k, v)]
  | (k', v') :: d' =>
      if decide (k' = k) then (k, v) :: d' else (k', v') :: dict_set d' k v
  end.

(** [d.setdefault(k, v)] used as a statement. *)
Definition dict_setdefault (d : dict) (k : string) (v : V) : dict :=
  match dict_get d k with
  | Some _ => d
  | None => d ++ [(k, v)]
  end.

(** In-place update of the object stored at [d[k]]. The program takes the
    subscript at keys that are present only (after [setdefault], or while
    iterating over the keys, see [dict_setdefault_present] and
    [dict_keys_get]); here an absent key leaves [d] as it is. *)
Fixpoint dict_update (f : V → V) (d : dict) (k : string) : dict :=
  match d with
  | [] => []
  | (k', v) :: d' =>
      if decide (k' = k) then (k', f v) :: d' else (k', v) :: dict_update f d' k
  end.

(** [list(d.keys())] *)
Definition dict_keys (d : dict) : list string := d.*1.
End dict.
Arguments dict V : clear implicits.

(** ** Iteration order of a Python set

    [list(s)] enumerates the elements of [s] once each, in an order the
    language leaves open: it depends on the hashes of the strings, which
    change from process to process, and on the history of the set object.
    The generator is therefore parametrised by the enumeration it meets,
    [set_iter a X] for the value set [X] stored for attribute [a]. *)

Class SetOrder := {
  set_iter : string → gset string → list string;
  set_iter_perm : ∀ a X, set_iter a X ≡ₚ elements X
}.

(** [itertools.product] over the value sets: the rightmost position varies
    fastest, and the product of no sets is the single empty tuple. *)
Fixpoint product {A} (value_sets : list (list A)) : list (list A) :=
  match value_sets with
  | [] => [[]]
  | xs :: rest => x ← xs; (x ::.) <$> product rest
  end.

(** ** Numbers

    [n / m] on two lengths: true division, a [ZeroDivisionError] when the
    divisor is zero. *)

Definition Qc_of_nat (n : nat) : Qc := Qc_of_Z (Z.of_nat n).

Definition py_div (n m : nat) : result Qc :=
  if decide (m = 0%nat) then Raise ZeroDivisionError
  else Ok (Qc_of_nat n / Qc_of_nat m)%Qc.

(** Python floats are IEEE 754 binary64 numbers, rounded to nearest, ties to
    even. [Binary64] takes them from the library's executable specification
    of that format, so that a float expression of the program is computed
    bit for bit. *)

Module Binary64.

Definition float : Type := spec_float.
Definition prec : Z := 53.
Definition emax : Z := 1024.

(** [float(n)] for a length [n]: exact below 2^53. *)
Definition of_nat (n : nat) : float :=
  binary_normalize prec emax (Z.of_nat n) 0 false.

Definition mul : float → float → float := SFmul prec emax.
Definition sub : float → float → float := SFsub prec emax.
Definition div : float → float → float := SFdiv prec emax.

(** The int [0], which compares with a float as the float of that value. *)
Definition zero : float := S754_zero false.

(** [x > y] and [x >= y]; both are false when an operand is not a number. *)
Definition gt (x y : float) : bool := SFltb y x.
Definition ge (x y : float) : bool := SFleb y x.

(** [math.isnan(x)] *)
Definition is_nan (x : float) : bool :=
  match x with
  | S754_nan => true
  | _ => false
  end.

(** [n / m] on two lengths: true division of two ints, the exact quotient
    rounded once. Below 2^53 the lengths convert exactly, and that is the
    float quotient of the two conversions. *)
Definition py_div (n m : nat) : result float :=
  if decide (m = 0%nat) then Raise ZeroDivisionError
  else Ok (div (of_nat n) (of_nat m)).

End Binary64.

(** ** The random source

    The module-level generator of [random] is a stream of draws and a cursor.
    Every call below consumes one draw per random decision, and every outcome
    the call can have in Python is the image of some draw. *)

Record rng := { draws : nat → nat; cursor : nat }.

Definition rand (A : Type) : Type := rng → result (A * rng).

Global Instance rand_ret : MRet rand := λ A a s, Ok (a, s).
Global Instance rand_bind : MBind rand := λ A B f m s,
  match m s with
  | Ok (a, s') => f a s'
  | Raise e => Raise e
  end.

Definition draw : rand nat :=
  λ s, Ok (draws s (cursor s), {| draws := draws s; cursor := S (cursor s) |}).

Definition raise {A} (e : exn) : rand A := λ _, Raise e.

Definition lift {A} (r : result A) : rand A :=
  λ s, match r with Ok a => Ok (a, s) | Raise e => Raise e end.

(** The value a computation returns from a given generator state. *)
Definition run {A} (m : rand A) (s : rng) : result A :=
  match m s with Ok (a, _) => Ok a | Raise e => Raise e end.

(** A generator that replays [l] and then repeats [d]. *)
Definition replay (l : list nat) (d : nat) : rng :=
  {| draws := λ n, nth n l d; cursor := 0 |}.

(** [random.randint(a, b)]: an integer of [a..b], [ValueError] on an empty
    range. *)
Definition randint (a b : Z) : rand Z :=
  if decide (a ≤ b)%Z
  then d ← draw; mret (a + Z.of_nat d `mod` (b - a + 1))%Z
  else raise ValueError.

(** [random.random() < percent / 100] *)
Definition random_lt (percent : nat) : rand bool :=
  d ← draw; mret (bool_decide (d `mod` 100 < percent)%nat).

(** [random.sample(population, 2)]: two entries at distinct positions,
    [ValueError] when there are fewer than two. *)
Definition sample2 {A} (population : list A) : rand (A * A) :=
  let n := length population in
  if decide (n < 2)%nat then raise ValueError
  else
    d1 ← draw; d2 ← draw;
    let i := (d1 `mod` n)%nat in
    let j0 := (d2 `mod` (n - 1))%nat in
    let j := if decide (j0 < i)%nat then j0 else S j0 in
    match population !! i, population !! j with
    | Some x, Some y => mret (x, y)
    | _, _ => raise IndexError
    end.

(** [[f(x) for x in l]] with a random [f]. *)
Fixpoint rand_map {A B} (f : A → rand B) (l : list A) : rand (list B) :=
  match l with
  | [] => mret []
  | x :: l' => y ← f x; ys ← rand_map f l'; mret (y :: ys)
  end.

(** [[m for _ in range(n)]] *)
Fixpoint rand_repeat {A} (n : nat) (m : rand A) : rand (list A) :=
  match n with
  | O => mret []
  | S n' => x ← m; xs ← rand_repeat n' m; mret (x :: xs)
  end.

(** ** Ordering by a key

    [sorted(l, key=..., reverse=True)] on the list of (key, item) pairs:
    descending keys, items of equal key in their original order. The keys
    are exact values here: where Python rounds two equal exact keys to
    different floats it orders the two items by the floats, so the order
    among items of equal key is that of the program only when the floats are
    equal too. *)

Fixpoint insert_desc {A} (x : Qc * A) (l : list (Qc * A)) : list (Qc * A) :=
  match l with
  | [] => [x]
  | y :: l' =>
      if decide (x.1 < y.1)%Qc then y :: insert_desc x l' else x :: y :: l'
  end.

Definition sorted_desc {A} (l : list (Qc * A)) : list (Qc * A) :=
  foldr insert_desc [] l.

(** [max(l, key=...)] after the first item: a later item replaces the best
    so far only when its key is strictly greater. On exact keys; see
    [TestcaseGaFloat.max_from] for the comparison of floats. *)
Fixpoint max_from {A} (best : Qc * A) (l : list (Qc * A)) : Qc * A :=
  match l with
  | [] => best
  | y :: l' => if decide (best.1 < y.1)%Qc then max_from y l' else max_from best l'
  end.

(** ** src/testcase.py *)

Module Testcase.

(** Data model. A condition is the tuple [(attr, category, value)]. *)
Definition condition : Type := string * string * string.

Record Rule := {
  rule_id : string;
  effect : string;
  conditions : list condition
}.

Record TestCase := {
  tc_id : nat;
  attributes : dict (string * string);   (* attr -> (value, category) *)
  covers : gset string
}.

(** The object stored per attribute: [{"category": cat, "values": set()}]. *)
Record domain := {
  category : string;
  values : gset string
}.

Definition values_add (v : string) (d : domain) : domain :=
  {| category := category d; values := values d ∪ {[v]} |}.

(** Body of the inner loop of [build_attribute_domains]:
    [domains.setdefault(attr, {...}); domains[attr]["values"].add(value)]. *)
Definition register_condition (domains : dict domain) (c : condition) : dict domain :=
  let '(attr, cat, value) := c in
  let domains := dict_setdefault domains attr {| category := cat; values := ∅ |} in
  dict_update (values_add value) domains attr.

Definition register_rule (domains : dict domain) (rule : Rule) : dict domain :=
  foldl register_condition domains (conditions rule).

Definition UNKNOWN : string := "UNKNOWN".

Definition build_attribute_domains (rules : list Rule) : dict domain :=
  let domains := foldl register_rule [] rules in
  foldl (dict_update (values_add UNKNOWN)) domains (dict_keys domains).

(** [domains[attr]["category"]] for an [attr] taken from the keys of
    [domains]; the subscript cannot miss there (see [category_of_key]). *)
Definition category_of (domains : dict domain) (attr : string) : string :=
  match dict_get domains attr with
  | Some d => category d
  | None => ""
  end.

(** [attributes.get(a, ("", ""))[0] == v] *)
Definition condition_holds (attributes : dict (string * string)) (c : condition) : bool :=
  let '(a, _, v) := c in
  bool_decide ((default ("", "") (dict_get attributes a)).1 = v).

(** [all(... for a, _, v in rule.conditions)] *)
Definition rule_holds (attributes : dict (string * string)) (rule : Rule) : bool :=
  forallb (condition_holds attributes) (conditions rule).

(** The loop [for rule in rules: if all(...): covers.add(rule.id)]. *)
Definition compute_covers (rules : list Rule) (attributes : dict (string * string))
    : gset string :=
  foldl (λ covers rule,
           if rule_holds attributes rule then covers ∪ {[rule_id rule]} else covers)
        ∅ rules.

(** The loop [for attr, value in zip(attrs, combination)]. *)
Definition build_assignment (domains : dict domain) (attrs combination : list string)
    : dict (string * string) :=
  foldl (λ attributes '(attr, value),
           dict_set attributes attr (value, category_of domains attr))
        [] (zip attrs combination).

(** The loop over the combinations, with the running counter [tc_id]. *)
Fixpoint generate_loop (rules : list Rule) (domains : dict domain) (attrs : list string)
    (combinations : list (list string)) (tc_id : nat) : list TestCase :=
  match combinations with
  | [] => []
  | combination :: rest =>
      let attributes := build_assignment domains attrs combination in
      let covers := compute_covers rules attributes in
      {| tc_id := tc_id; attributes := attributes; covers := covers |}
        :: generate_loop rules domains attrs rest (tc_id + 1)
  end.

Definition generate_test_cases `{SetOrder} (rules : list Rule) : list TestCase :=
  let domains := build_attribute_domains rules in
  let attrs := dict_keys domains in
  let value_sets :=
    (λ a, set_iter a (default ∅ (values <$> dict_get domains a))) <$> attrs in
  generate_loop rules domains attrs (product value_sets) 1.

(** *** Coverage *)

Definition rule_coverage (test_cases : list TestCase) (all_rules : gset string)
    : result Qc :=
  let covered := foldl (λ covered tc, covered ∪ covers tc) ∅ test_cases in
  py_div (size covered) (size all_rules).

(** *** Genetic algorithm *)

(** The default weights [alpha=0.8, beta=0.2]; every call of [fitness] in the
    program takes them. *)
Definition alpha : Qc := Q2Qc (8 # 10).
Definition beta : Qc := Q2Qc (2 # 10).

(** [[tc for bit, tc in zip(individual, test_cases) if bit]] *)
Definition selected_cases (individual : list Z) (test_cases : list TestCase)
    : list TestCase :=
  (filter (λ p, p.1 ≠ 0%Z) (zip individual test_cases)).*2.

Definition fitness (individual : list Z) (test_cases : list TestCase)
    (all_rules : gset string) : result Qc :=
  let selected := selected_cases individual test_cases in
  match selected with
  | [] => Ok 0%Qc
  | _ =>
      cov ← rule_coverage selected all_rules;
      penalty ← py_div (length selected) (length test_cases);
      mret (alpha * cov - beta * penalty)%Qc
  end.

(** [[1 - b if random.random() < 0.05 else b for b in child]] *)
Definition mutate_bit (percent : nat) (b : Z) : rand Z :=
  flip ← random_lt percent; mret (if flip : bool then (1 - b)%Z else b).

(** One pass of the body of the [while] loop: the child appended to
    [next_gen]. *)
Definition make_child (population : list (list Z)) : rand (list Z) :=
  '(p1, p2) ← sample2 (take 10 population);
  point ← randint 1 (Z.of_nat (length p1) - 1);
  let child := take (Z.to_nat point) p1 ++ drop (Z.to_nat point) p2 in
  rand_map (mutate_bit 5) child.

(** [while len(next_gen) < pop_size]: every pass appends one child, so the
    loop makes [pop_size - len(next_gen)] passes, counted by [k]. *)
Fixpoint fill_next_gen (k : nat) (population next_gen : list (list Z))
    : rand (list (list Z)) :=
  match k with
  | O => mret next_gen
  | S k' =>
      child ← make_child population;
      fill_next_gen k' population (next_gen ++ [child])
  end.

(** The body of [for _ in range(generations)]. *)
Definition generation (test_cases : list TestCase) (all_rules : gset string)
    (pop_size : nat) (population : list (list Z)) : rand (list (list Z)) :=
  keys ← lift (result_map (λ ind, fitness ind test_cases all_rules) population);
  let population := (sorted_desc (zip keys population)).*2 in
  let next_gen := take 2 population in
  fill_next_gen (pop_size - length next_gen) population next_gen.

Fixpoint generations_loop (test_cases : list TestCase) (all_rules : gset string)
    (pop_size generations : nat) (population : list (list Z))
    : rand (list (list Z)) :=
  match generations with
  | O => mret population
  | S n =>
      population ← generation test_cases all_rules pop_size population;
      generations_loop test_cases all_rules pop_size n population
  end.

Definition initial_population (test_cases : list TestCase) (pop_size : nat)
    : rand (list (list Z)) :=
  rand_repeat pop_size (rand_map (λ _, randint 0 1) test_cases).

Definition genetic_algorithm (test_cases : list TestCase) (all_rules : gset string)
    (pop_size generations : nat) : rand (list Z) :=
  population ← initial_population test_cases pop_size;
  population ← generations_loop test_cases all_rules pop_size generations population;
  match population with
  | best :: _ => mret best
  | [] => raise IndexError
  end.

Definition default_pop_size : nat := 20.
Definition default_generations : nat := 50.

End Testcase.

(** ** src/xacml-lab/xacml_testcase_ga.py *)

Module TestcaseGa.

(** A condition is the dictionary with the keys attr, category and value;
    a rule the dictionary with the keys rule_id, effect and conditions. *)
Record condition := {
  attr : string;
  category : string;
  value : string
}.

Record Rule := {
  rule_id : string;
  effect : string;
  conditions : list condition
}.

Record TestCase := {
  tc_id : nat;
  attributes : dict (string * string);   (* attr -> (value, category) *)
  covers : gset string
}.

(** The inner loop [for cond in rule["conditions"]]. *)
Definition rule_assignment (rule : Rule) : dict (string * string) :=
  foldl (λ attributes cond,
           dict_set attributes (attr cond) (value cond, category cond))
        [] (conditions rule).

(** The loop [for rule in rules] with its counter; the result is the list of
    appended test cases and the counter after the loop. *)
Fixpoint dfs_loop (rules : list Rule) (tc_id : nat) : list TestCase * nat :=
  match rules with
  | [] => ([], tc_id)
  | rule :: rest =>
      let tc := {| tc_id := tc_id;
                   attributes := rule_assignment rule;
                   covers := {[rule_id rule]} |} in
      let '(tcs, last) := dfs_loop rest (tc_id + 1) in
      (tc :: tcs, last)
  end.

Definition not_applicable_case (tc_id : nat) : TestCase :=
  {| tc_id := tc_id;
     attributes := [("role", ("unknown", "subject"))];
     covers := ∅ |}.

Definition dfs_generate_test_cases (rules : list Rule) : list TestCase :=
  let '(test_cases, tc_id) := dfs_loop rules 1 in
  test_cases ++ [not_applicable_case tc_id].

Definition rule_coverage (test_cases : list TestCase) (all_rules : gset string)
    : result Qc :=
  let covered := foldl (λ covered tc, covered ∪ covers tc) ∅ test_cases in
  py_div (size covered) (size all_rules).

Definition alpha : Qc := Q2Qc (8 # 10).
Definition beta : Qc := Q2Qc (2 # 10).

(** [[tc for bit, tc in zip(individual, test_cases) if bit == 1]] *)
Definition selected_cases (individual : list Z) (test_cases : list TestCase)
    : list TestCase :=
  (filter (λ p, p.1 = 1%Z) (zip individual test_cases)).*2.

Definition fitness (individual : list Z) (test_cases : list TestCase)
    (all_rules : gset string) : result Qc :=
  let selected := selected_cases individual test_cases in
  match selected with
  | [] => Ok 0%Qc
  | _ =>
      cov ← rule_coverage selected all_rules;
      size_penalty ← py_div (length selected) (length test_cases);
      mret (alpha * cov - beta * size_penalty)%Qc
  end.

Definition random_individual (n : nat) : rand (list Z) :=
  rand_repeat n (randint 0 1).

(** [max(population, key=...)]: [ValueError] on an empty population. *)
Definition select_best (population : list (list Z)) (test_cases : list TestCase)
    (all_rules : gset string) : result (list Z) :=
  keys ← result_map (λ ind, fitness ind test_cases all_rules) population;
  match zip keys population with
  | [] => Raise ValueError
  | first :: rest => Ok (max_from first rest).2
  end.

Definition crossover (p1 p2 : list Z) : rand (list Z) :=
  point ← randint 1 (Z.of_nat (length p1) - 1);
  mret (take (Z.to_nat point) p1 ++ drop (Z.to_nat point) p2).

(** [mutate(ind)] with the default [rate=0.1]. *)
Definition mutate (ind : list Z) : rand (list Z) :=
  rand_map (λ bit, flip ← random_lt 10; mret (if flip : bool then (1 - bit)%Z else bit))
           ind.

(** The body of the inner [for _ in range(pop_size)]. *)
Definition make_child (population : list (list Z)) (test_cases : list TestCase)
    (all_rules : gset string) : rand (list Z) :=
  p1 ← lift (select_best population test_cases all_rules);
  p2 ← lift (select_best population test_cases all_rules);
  child ← crossover p1 p2;
  mutate child.

Definition generation (test_cases : list TestCase) (all_rules : gset string)
    (pop_size : nat) (population : list (list Z)) : rand (list (list Z)) :=
  rand_repeat pop_size (make_child population test_cases all_rules).

Fixpoint generations_loop (test_cases : list TestCase) (all_rules : gset string)
    (pop_size generations : nat) (population : list (list Z))
    : rand (list (list Z)) :=
  match generations with
  | O => mret population
  | S n =>
      population ← generation test_cases all_rules pop_size population;
      generations_loop test_cases all_rules pop_size n population
  end.

Definition initial_population (test_cases : list TestCase) (pop_size : nat)
    : rand (list (list Z)) :=
  rand_repeat pop_size (random_individual (length test_cases)).

Definition genetic_algorithm (test_cases : list TestCase) (all_rules : gset string)
    (pop_size generations : nat) : rand (list Z) :=
  population ← initial_population test_cases pop_size;
  population ← generations_loop test_cases all_rules pop_size generations population;
  lift (select_best population test_cases all_rules).

Definition default_pop_size : nat := 10.
Definition default_generations : nat := 30.

End TestcaseGa.

(** ** src/xacml-lab/xacml_testcase_ga.py, fitness and selection on floats

    [fitness], [select_best] and one generation as Python computes them:
    the quotients, products and the difference are rounded to doubles, and
    [max] compares the rounded values. Lengths convert exactly below 2^53. *)

Module TestcaseGaFloat.

Definition rule_coverage (test_cases : list TestcaseGa.TestCase)
    (all_rules : gset string) : result Binary64.float :=
  let covered := foldl (λ covered tc, covered ∪ TestcaseGa.covers tc) ∅ test_cases in
  Binary64.py_div (size covered) (size all_rules).

(** The literals 0.8 and 0.2 denote the doubles nearest to them,
    0x1.999999999999ap-1 and 0x1.999999999999ap-3. *)
Definition alpha : Binary64.float := S754_finite false 0x1999999999999a (-53).
Definition beta : Binary64.float := S754_finite false 0x1999999999999a (-55).

Definition fitness (individual : list Z) (test_cases : list TestcaseGa.TestCase)
    (all_rules : gset string) : result Binary64.float :=
  let selected := TestcaseGa.selected_cases individual test_cases in
  match selected with
  | [] => Ok Binary64.zero
  | _ =>
      cov ← rule_coverage selected all_rules;
      size_penalty ← Binary64.py_div (length selected) (length test_cases);
      mret (Binary64.sub (Binary64.mul alpha cov) (Binary64.mul beta size_penalty))
  end.

(** [max(l, key=...)] after the first item: a later item replaces the best
    so far only when its key is greater. *)
Fixpoint max_from {A} (best : Binary64.float * A) (l : list (Binary64.float * A))
    : Binary64.float * A :=
  match l with
  | [] => best
  | y :: l' => if Binary64.gt y.1 best.1 then max_from y l' else max_from best l'
  end.

Definition select_best (population : list (list Z))
    (test_cases : list TestcaseGa.TestCase) (all_rules : gset string)
    : result (list Z) :=
  keys ← result_map (λ ind, fitness ind test_cases all_rules) population;
  match zip keys population with
  | [] => Raise ValueError
  | first :: rest => Ok (max_from first rest).2
  end.

Definition make_child (population : list (list Z))
    (test_cases : list TestcaseGa.TestCase) (all_rules : gset string)
    : rand (list Z) :=
  p1 ← lift (select_best population test_cases all_rules);
  p2 ← lift (select_best population test_cases all_rules);
  child ← TestcaseGa.crossover p1 p2;
  TestcaseGa.mutate child.

Definition generation (test_cases : list TestcaseGa.TestCase)
    (all_rules : gset string) (pop_size : nat) (population : list (list Z))
    : rand (list (list Z)) :=
  rand_repeat pop_size (make_child population test_cases all_rules).

End TestcaseGaFloat.

(** ** src/xacml-lab/xacml_test_optimization.py *)

Module TestOptimization.

Record TestCase := {
  tc_id : nat;
  attributes : dict string;   (* attr -> value *)
  covers : gset string
}.

(** The simulated traversal: three fixed test cases. *)
Definition dfs_generate_test_cases : list TestCase :=
  [ {| tc_id := 1; attributes := [("role", "manager")]; covers := {["rule-1"]} |};
    {| tc_id := 2; attributes := [("role", "guest")]; covers := {["rule-2"]} |};
    {| tc_id := 3; attributes := [("role", "staff")]; covers := ∅ |} ].

Definition rule_coverage (selected_tests : list TestCase) (all_rules : gset string)
    : result Qc :=
  match selected_tests with
  | [] => Ok 0%Qc
  | _ =>
      let covered := foldl (λ covered tc, covered ∪ covers tc) ∅ selected_tests in
      py_div (size covered) (size all_rules)
  end.

Definition alpha : Qc := Q2Qc (8 # 10).
Definition beta : Qc := Q2Qc (2 # 10).

Definition selected_cases (individual : list Z) (test_cases : list TestCase)
    : list TestCase :=
  (filter (λ p, p.1 = 1%Z) (zip individual test_cases)).*2.

Definition fitness (individual : list Z) (test_cases : list TestCase)
    (all_rules : gset string) : result Qc :=
  let selected := selected_cases individual test_cases in
  match selected with
  | [] => Ok 0%Qc
  | _ =>
      coverage ← rule_coverage selected all_rules;
      size_penalty ← py_div (length selected) (length test_cases);
      mret (alpha * coverage - beta * size_penalty)%Qc
  end.

Definition random_individual (length : nat) : rand (list Z) :=
  rand_repeat length (randint 0 1).

Definition select_best (population : list (list Z)) (test_cases : list TestCase)
    (all_rules : gset string) : result (list Z) :=
  keys ← result_map (λ ind, fitness ind test_cases all_rules) population;
  match zip keys population with
  | [] => Raise ValueError
  | first :: rest => Ok (max_from first rest).2
  end.

Definition crossover (p1 p2 : list Z) : rand (list Z) :=
  point ← randint 1 (Z.of_nat (length p1) - 1);
  mret (take (Z.to_nat point) p1 ++ drop (Z.to_nat point) p2).

Definition mutate (individual : list Z) : rand (list Z) :=
  rand_map (λ bit, flip ← random_lt 10; mret (if flip : bool then (1 - bit)%Z else bit))
           individual.

Definition make_child (population : list (list Z)) (test_cases : list TestCase)
    (all_rules : gset string) : rand (list Z) :=
  p1 ← lift (select_best population test_cases all_rules);
  p2 ← lift (select_best population test_cases all_rules);
  child ← crossover p1 p2;
  mutate child.

Definition generation (test_cases : list TestCase) (all_rules : gset string)
    (pop_size : nat) (population : list (list Z)) : rand (list (list Z)) :=
  rand_repeat pop_size (make_child population test_cases all_rules).

Fixpoint generations_loop (test_cases : list TestCase) (all_rules : gset string)
    (pop_size generations : nat) (population : list (list Z))
    : rand (list (list Z)) :=
  match generations with
  | O => mret population
  | S n =>
      population ← generation test_cases all_rules pop_size population;
      generations_loop test_cases all_rules pop_size n population
  end.

Definition initial_population (test_cases : list TestCase) (pop_size : nat)
    : rand (list (list Z)) :=
  rand_repeat pop_size (random_individual (length test_cases)).

Definition genetic_algorithm (test_cases : list TestCase) (all_rules : gset string)
    (pop_size generations : nat) : rand (list Z) :=
  population ← initial_population test_cases pop_size;
  population ← generations_loop test_cases all_rules pop_size generations population;
  lift (select_best population test_cases all_rules).

Definition default_pop_size : nat := 10.
Definition default_generations : nat := 30.

End TestOptimization.

(** * Vocabulary of the properties

    The notions the statements below are written with. None of them is part
    of the program. *)

(** One enumeration of a set, so that the generator can be run. *)
Definition elements_order : SetOrder :=
  {| set_iter := λ _, elements; set_iter_perm := λ _ X, reflexivity (elements X) |}.

(** The policy of the concrete scenario, with the categories of its two
    conditions left open. *)
Definition two_rule_policy (c1 c2 : string) : list Testcase.Rule :=
  [ {| Testcase.rule_id := "rule-1"; Testcase.effect := "Permit";
       Testcase.conditions := [("role", c1, "manager")] |};
    {| Testcase.rule_id := "rule-2"; Testcase.effect := "Deny";
       Testcase.conditions := [("role", c2, "guest")] |} ].

(** What the loop body of [generate_test_cases] builds from one combination,
    the id apart. *)
Definition vector_of (rules : list Testcase.Rule) (domains : dict Testcase.domain)
    (attrs combination : list string) : dict (string * string) * gset string :=
  let attributes := Testcase.build_assignment domains attrs combination in
  (attributes, Testcase.compute_covers rules attributes).

(** The values the conditions [conds] give to attribute [a], and the
    category of the first of them. *)
Definition value_on (a : string) (c : Testcase.condition) : option string :=
  if decide (c.1.1 = a) then Some c.2 else None.

Definition category_on (a : string) (c : Testcase.condition) : option string :=
  if decide (c.1.1 = a) then Some c.1.2 else None.

Definition condition_values (conds : list Testcase.condition) (a : string)
    : gset string :=
  list_to_set (omap (value_on a) conds).

Definition first_category (conds : list Testcase.condition) (a : string)
    : option string :=
  head (omap (category_on a) conds).

(** All conditions of a rule list, in rule order. *)
Definition all_conditions (rules : list Testcase.Rule) : list Testcase.condition :=
  rules ≫= Testcase.conditions.

(** The domain of [a] after registering [conds], from the domain [o] it had
    before. *)
Definition extend (o : option Testcase.domain) (conds : list Testcase.condition)
    (a : string) : option Testcase.domain :=
  match o with
  | Some d =>
      Some {| Testcase.category := Testcase.category d;
              Testcase.values := Testcase.values d ∪ condition_values conds a |}
  | None =>
      (λ c, {| Testcase.category := c; Testcase.values := condition_values conds a |})
        <$> first_category conds a
  end.

(** The last condition of a rule on attribute [a], as the pair stored in the
    assignment. *)
Definition binding_on (a : string) (cond : TestcaseGa.condition)
    : option (string * string) :=
  if decide (TestcaseGa.attr cond = a)
  then Some (TestcaseGa.value cond, TestcaseGa.category cond)
  else None.

Definition last_binding (conds : list TestcaseGa.condition) (a : string)
    : option (string * string) :=
  last (omap (binding_on a) conds).

(** The check [all(attributes.get(a, ("", ""))[0] == v ...)] of the
    combinatorial generator, on the rules of xacml_testcase_ga.py. *)
Definition assignment_satisfies (attributes : dict (string * string))
    (rule : TestcaseGa.Rule) : bool :=
  forallb (λ cond, bool_decide
             ((default ("", "") (dict_get attributes (TestcaseGa.attr cond))).1
              = TestcaseGa.value cond))
          (TestcaseGa.conditions rule).

(** The test case [dfs_loop] builds for the rule at position [i], when the
    counter starts at [first]. *)
Definition dfs_case (first : nat) (i : nat) (rule : TestcaseGa.Rule)
    : TestcaseGa.TestCase :=
  {| TestcaseGa.tc_id := first + i;
     TestcaseGa.attributes := TestcaseGa.rule_assignment rule;
     TestcaseGa.covers := {[TestcaseGa.rule_id rule]} |}.

(** [returns m P]: from every generator state [m] returns a value, and the
    value satisfies [P]. [raises m e]: from every state [m] raises [e]. *)
Definition returns {A} (m : rand A) (P : A → Prop) : Prop :=
  ∀ s, ∃ a s', m s = Ok (a, s') ∧ P a.

Definition raises {A} (m : rand A) (e : exn) : Prop :=
  ∀ s, m s = Raise e.

(** [ind1] is at most as fit as [ind2], by the fitness of src/testcase.py. *)
Definition fitness_le (test_cases : list Testcase.TestCase) (all_rules : gset string)
    (ind1 ind2 : list Z) : Prop :=
  ∃ q1 q2, Testcase.fitness ind1 test_cases all_rules = Ok q1
         ∧ Testcase.fitness ind2 test_cases all_rules = Ok q2
         ∧ (q1 ≤ q2)%Qc.

(** Every individual has one bit per test case. *)
Definition genomes (test_cases : list Testcase.TestCase)
    (population : list (list Z)) : Prop :=
  Forall (λ ind, length ind = length test_cases) population.

(** The population after the last generation, as [genetic_algorithm] of
    src/testcase.py holds it when it returns. *)
Definition final_population (test_cases : list Testcase.TestCase)
    (all_rules : gset string) (pop_size generations : nat)
    : rand (list (list Z)) :=
  population ← Testcase.initial_population test_cases pop_size;
  Testcase.generations_loop test_cases all_rules pop_size generations population.

(** A generator state against the optimizer of xacml_test_optimization.py:
    the initial population is 110 followed by nine times 000 (30 draws); no
    bit is flipped during 29 generations (40 draws each); every bit is
    flipped in the last one. *)
Definition floor_breaking_draws : rng :=
  {| draws := λ k, if (k <? 2)%nat then 1%nat
                   else if (k <? 30)%nat then 0%nat
                   else if (k <? 30 + 29 * 40)%nat then 50%nat
                   else 0%nat;
     cursor := 0 |}.

(** A generator state against the optimizer of src/testcase.py: the initial
    population is twenty times 111 (60 draws); no bit is flipped during 49
    generations (108 draws each); in the last generation the third bit of
    the first child is flipped. *)
Definition late_improvement_draws : rng :=
  {| draws := λ k, if (k <? 60)%nat then 1%nat
                   else if (k =? 60 + 49 * 108 + 5)%nat then 0%nat
                   else 50%nat;
     cursor := 0 |}.

(** * Properties *)

(** ** Quotients of lengths *)

Section quotients.
Local Open Scope Qc_scope.

Lemma Qc_of_nat_nonneg n : 0 ≤ Qc_of_nat n.
Proof.
  unfold Qc_of_nat. rewrite <-Z2Qc_inj_0, <-Z2Qc_inj_le. lia.
Qed.

Lemma Qc_of_nat_pos n : n ≠ 0%nat → 0 < Qc_of_nat n.
Proof.
  intros Hn. unfold Qc_of_nat. rewrite <-Z2Qc_inj_0, <-Z2Qc_inj_lt. lia.
Qed.

Lemma Qc_of_nat_le n m : (n ≤ m)%nat → Qc_of_nat n ≤ Qc_of_nat m.
Proof. intros Hnm. unfold Qc_of_nat. rewrite <-Z2Qc_inj_le. lia. Qed.

Lemma Qcinv_nonneg x : 0 ≤ x → 0 ≤ /x.
Proof.
  intros [Hx| <-]%Qcle_lt_or_eq.
  - apply Qclt_le_weak, Qcinv_pos, Hx.
  - by vm_compute.
Qed.

Lemma ratio_nonneg n m : 0 ≤ Qc_of_nat n / Qc_of_nat m.
Proof.
  unfold Qcdiv. rewrite <-(Qcmult_0_l (/ Qc_of_nat m)).
  apply Qcmult_le_compat_r; [apply Qc_of_nat_nonneg|].
  apply Qcinv_nonneg, Qc_of_nat_nonneg.
Qed.

Lemma ratio_mono n1 n2 m :
  (n1 ≤ n2)%nat → Qc_of_nat n1 / Qc_of_nat m ≤ Qc_of_nat n2 / Qc_of_nat m.
Proof.
  intros Hn. unfold Qcdiv.
  apply Qcmult_le_compat_r; [by apply Qc_of_nat_le|].
  apply Qcinv_nonneg, Qc_of_nat_nonneg.
Qed.

Lemma ratio_self m : m ≠ 0%nat → Qc_of_nat m / Qc_of_nat m = 1.
Proof.
  intros Hm. unfold Qcdiv. apply Qcmult_inv_r.
  intros Heq. apply (Qclt_not_eq 0 (Qc_of_nat m)); [by apply Qc_of_nat_pos|done].
Qed.

Lemma ratio_le_1 n m :
  (n ≤ m)%nat → m ≠ 0%nat → Qc_of_nat n / Qc_of_nat m ≤ 1.
Proof.
  intros Hn Hm. rewrite <-(ratio_self m Hm). by apply ratio_mono.
Qed.

Lemma ratio_zero m : Qc_of_nat 0 / Qc_of_nat m = 0.
Proof. unfold Qcdiv. apply Qcmult_0_l. Qed.

Lemma py_div_ok n m : m ≠ 0%nat → py_div n m = Ok (Qc_of_nat n / Qc_of_nat m).
Proof. intros Hm. unfold py_div. by case_decide. Qed.

Lemma py_div_zero n : py_div n 0 = Raise ZeroDivisionError.
Proof. reflexivity. Qed.
End quotients.

(** ** The accumulated set of covered rules *)

Lemma foldl_union_acc {A} (f : A → gset string) (X : gset string) (l : list A) :
  foldl (λ covered x, covered ∪ f x) X l = X ∪ ⋃ (f <$> l).
Proof.
  revert X. induction l as [|x l IH]; intros X; simpl.
  - set_solver.
  - rewrite IH. set_solver.
Qed.

Lemma foldl_union {A} (f : A → gset string) (l : list A) :
  foldl (λ covered x, covered ∪ f x) ∅ l = ⋃ (f <$> l).
Proof. rewrite foldl_union_acc. set_solver. Qed.

Lemma union_list_fmap_mono {A} (f : A → gset string) (l1 l2 : list A) :
  l1 ⊆ l2 → ⋃ (f <$> l1) ⊆ ⋃ (f <$> l2).
Proof.
  intros Hsub x (X & (y & -> & Hy)%list_elem_of_fmap & Hx)%elem_of_union_list.
  apply elem_of_union_list. exists (f y). split; [|done].
  apply list_elem_of_fmap. exists y. split; [done|]. by apply Hsub.
Qed.

Lemma union_list_fmap_bound {A} (f : A → gset string) (l : list A) (Y : gset string) :
  (∀ x, x ∈ l → f x ⊆ Y) → ⋃ (f <$> l) ⊆ Y.
Proof.
  intros Hall x (X & (y & -> & Hy)%list_elem_of_fmap & Hx)%elem_of_union_list.
  by apply (Hall y).
Qed.

Lemma size_nonempty (X : gset string) : X ≠ ∅ → size X ≠ 0%nat.
Proof. intros HX Hsz. apply HX, leibniz_equiv, size_empty_inv, Hsz. Qed.

(** ** C1: the coverage evaluator *)

(** C1, the claim as stated fails: with no rule identifiers the evaluator of
    src/testcase.py faults on the division, also for the empty collection, and
    so does the one of xacml_test_optimization.py on a collection that is not
    empty; and a vector whose covers set leaves the rule identifiers takes
    the quotient above 1. *)
Lemma rule_coverage_faults_or_exceeds_one :
  Testcase.rule_coverage [] ∅ = Raise ZeroDivisionError
  ∧ Testcase.rule_coverage [] ∅ ≠ Ok 0%Qc
  ∧ TestOptimization.rule_coverage
      [ {| TestOptimization.tc_id := 1; TestOptimization.attributes := [];
           TestOptimization.covers := ∅ |} ] ∅ = Raise ZeroDivisionError
  ∧ ∃ q, Testcase.rule_coverage
           [ {| Testcase.tc_id := 1; Testcase.attributes := [];
                Testcase.covers := {["rule-1"; "rule-2"]} |} ] {["rule-1"]} = Ok q
         ∧ (1 < q)%Qc.
Proof.
  split; [reflexivity|]. split; [discriminate|]. split; [reflexivity|].
  eexists. split; [vm_compute; reflexivity|]. reflexivity.
Qed.

(** C1, amended: when the set of rule identifiers is not empty, both
    evaluators return the quotient of the size of the union of the covers sets
    by the number of rule identifiers; this value is at least 0, is 0 for the
    empty collection, and is at most 1 when every covers set lies within the
    rule identifiers. When the set of rule identifiers is empty, the
    evaluator of src/testcase.py raises ZeroDivisionError for every
    collection, and the one of xacml_test_optimization.py returns 0 for the
    empty collection and raises ZeroDivisionError for every other. *)
Theorem rule_coverage_quotient
    (test_cases : list Testcase.TestCase)
    (selected_tests : list TestOptimization.TestCase)
    (all_rules : gset string) :
  (all_rules ≠ ∅ →
     let q := (Qc_of_nat (size (⋃ (Testcase.covers <$> test_cases)))
               / Qc_of_nat (size all_rules))%Qc in
     Testcase.rule_coverage test_cases all_rules = Ok q
     ∧ (0 ≤ q)%Qc
     ∧ (test_cases = [] → q = 0%Qc)
     ∧ ((∀ tc, tc ∈ test_cases → Testcase.covers tc ⊆ all_rules) → (q ≤ 1)%Qc))
  ∧ (all_rules ≠ ∅ →
     let q := (Qc_of_nat (size (⋃ (TestOptimization.covers <$> selected_tests)))
               / Qc_of_nat (size all_rules))%Qc in
     TestOptimization.rule_coverage selected_tests all_rules = Ok q
     ∧ (0 ≤ q)%Qc
     ∧ (selected_tests = [] → q = 0%Qc)
     ∧ ((∀ tc, tc ∈ selected_tests → TestOptimization.covers tc ⊆ all_rules)
        → (q ≤ 1)%Qc))
  ∧ (all_rules = ∅ →
     Testcase.rule_coverage test_cases all_rules = Raise ZeroDivisionError
     ∧ (selected_tests = [] →
        TestOptimization.rule_coverage selected_tests all_rules = Ok 0%Qc)
     ∧ (selected_tests ≠ [] →
        TestOptimization.rule_coverage selected_tests all_rules
        = Raise ZeroDivisionError)).
Proof.
  split; [|split].
  - intros Hne q. pose proof (size_nonempty _ Hne) as Hsz.
    split; [|split; [|split]].
    + unfold Testcase.rule_coverage. rewrite foldl_union. by apply py_div_ok.
    + apply ratio_nonneg.
    + intros ->. subst q. rewrite fmap_nil, union_list_nil, size_empty. apply ratio_zero.
    + intros Hsub. apply ratio_le_1; [|done].
      apply subseteq_size, union_list_fmap_bound, Hsub.
  - intros Hne q. pose proof (size_nonempty _ Hne) as Hsz.
    split; [|split; [|split]].
    + unfold TestOptimization.rule_coverage.
      destruct selected_tests as [|tc tcs] eqn:Heq.
      * subst q. rewrite fmap_nil, union_list_nil, size_empty, ratio_zero. done.
      * rewrite foldl_union. by apply py_div_ok.
    + apply ratio_nonneg.
    + intros ->. subst q. rewrite fmap_nil, union_list_nil, size_empty. apply ratio_zero.
    + intros Hsub. apply ratio_le_1; [|done].
      apply subseteq_size, union_list_fmap_bound, Hsub.
  - intros ->. split; [|split].
    + unfold Testcase.rule_coverage. rewrite size_empty. apply py_div_zero.
    + intros ->. reflexivity.
    + intros Hne. destruct selected_tests as [|tc tcs]; [done|].
      unfold TestOptimization.rule_coverage. rewrite size_empty. apply py_div_zero.
Qed.

(** ** C8: coverage is monotone in the suite *)

Lemma selected_cases_subseteq (individual : list Z)
    (test_cases : list Testcase.TestCase) :
  Testcase.selected_cases individual test_cases ⊆ test_cases.
Proof.
  intros tc ([b tc'] & -> & Hin)%list_elem_of_fmap.
  apply list_elem_of_filter in Hin as [_ Hin]. by apply elem_of_zip_r in Hin.
Qed.

(** C8: for suites S1 ⊆ S2 and a set of rule identifiers that is not empty,
    the coverage of S1 is at most the coverage of S2; in particular the
    coverage of a whole pool bounds the coverage of each of its subsets, and
    so of every suite a genome selects from it. *)
Theorem rule_coverage_monotone
    (S1 S2 : list Testcase.TestCase) (all_rules : gset string) :
  S1 ⊆ S2 → all_rules ≠ ∅ →
  ∃ q1 q2, Testcase.rule_coverage S1 all_rules = Ok q1
         ∧ Testcase.rule_coverage S2 all_rules = Ok q2
         ∧ (q1 ≤ q2)%Qc
         ∧ ∀ individual,
             ∃ q, Testcase.rule_coverage
                    (Testcase.selected_cases individual S2) all_rules = Ok q
                  ∧ (q ≤ q2)%Qc.
Proof.
  intros Hsub Hne. pose proof (size_nonempty _ Hne) as Hsz.
  unfold Testcase.rule_coverage. rewrite !foldl_union, !py_div_ok by done.
  do 2 eexists. split; [done|]. split; [done|]. split.
  - apply ratio_mono, subseteq_size. by apply union_list_fmap_mono.
  - intros individual. rewrite foldl_union, py_div_ok by done.
    eexists. split; [done|].
    apply ratio_mono, subseteq_size, union_list_fmap_mono, selected_cases_subseteq.
Qed.

(** A run of C8 on a two-vector suite and its one-vector prefix. *)
Lemma rule_coverage_monotone_witness :
  let tc1 := {| Testcase.tc_id := 1; Testcase.attributes := [];
                Testcase.covers := {["rule-1"]} |} in
  let tc2 := {| Testcase.tc_id := 2; Testcase.attributes := [];
                Testcase.covers := {["rule-2"]} |} in
  ∃ q1 q2, Testcase.rule_coverage [tc1] {["rule-1"; "rule-2"]} = Ok q1
         ∧ Testcase.rule_coverage [tc1; tc2] {["rule-1"; "rule-2"]} = Ok q2
         ∧ (q1 ≤ q2)%Qc
         ∧ ∀ individual,
             ∃ q, Testcase.rule_coverage
                    (Testcase.selected_cases individual [tc1; tc2])
                    {["rule-1"; "rule-2"]} = Ok q
                  ∧ (q ≤ q2)%Qc.
Proof.
  intros tc1 tc2.
  apply (rule_coverage_monotone [tc1] [tc1; tc2] {["rule-1"; "rule-2"]}).
  - intros x Hx. apply list_elem_of_singleton in Hx as ->. left.
  - intros Heq. apply (f_equal size) in Heq. vm_compute in Heq. discriminate.
Defined.

(** ** C3: the empty rule list *)

(** C3, the claim as stated fails: for the empty rule list the generator
    returns one test vector, not none. *)
Lemma generate_test_cases_nil_not_empty :
  Testcase.build_attribute_domains [] = []
  ∧ length (@Testcase.generate_test_cases elements_order []) = 1%nat
  ∧ @Testcase.generate_test_cases elements_order [] ≠ [].
Proof. split; [reflexivity|]. split; [reflexivity|discriminate]. Qed.

(** C3, amended: for the empty rule list the attribute domain builder
    returns the empty mapping, and the candidate generator returns a pool of
    exactly one test vector, with id 1, the empty assignment and the empty
    covers set (the product of no value sets is the single empty tuple). *)
Theorem generate_test_cases_nil (order : SetOrder) :
  Testcase.build_attribute_domains [] = []
  ∧ Testcase.generate_test_cases [] =
      [ {| Testcase.tc_id := 1; Testcase.attributes := [];
           Testcase.covers := ∅ |} ].
Proof. split; reflexivity. Qed.

(** ** The candidate generator *)

Section generator.
Import Testcase.
Context (rules : list Rule) (domains : dict domain) (attrs : list string).

Lemma generate_loop_vectors combinations i :
  (λ tc, (attributes tc, covers tc))
    <$> generate_loop rules domains attrs combinations i
  = vector_of rules domains attrs <$> combinations.
Proof.
  revert i. induction combinations as [|c cs IH]; intros i; simpl; [done|].
  by rewrite IH.
Qed.

Lemma generate_loop_ids combinations i :
  tc_id <$> generate_loop rules domains attrs combinations i
  = seq i (length combinations).
Proof.
  revert i. induction combinations as [|c cs IH]; intros i; simpl; [done|].
  by rewrite IH, Nat.add_1_r.
Qed.

Lemma generate_loop_length combinations i :
  length (generate_loop rules domains attrs combinations i) = length combinations.
Proof.
  revert i. induction combinations as [|c cs IH]; intros i; simpl; [done|].
  by rewrite IH.
Qed.
End generator.

Lemma product_singleton {A} (xs : list A) : product [xs] = (λ x, [x]) <$> xs.
Proof.
  simpl. induction xs as [|x xs IH]; [done|].
  simpl. by f_equal.
Qed.

(** ** C9: the two-rule scenario *)

(** C9: for the policy rule-1: role=manager, Permit; rule-2: role=guest,
    Deny (whatever the categories of the two conditions and the iteration
    order of the value set), the domain of role is manager, guest, UNKNOWN;
    the generator returns exactly three vectors, numbered 1, 2, 3, which are,
    in some order, role=manager covering rule-1 only, role=guest covering
    rule-2 only and role=UNKNOWN covering nothing; and the coverage of this
    pool is 1. *)
Theorem two_rule_scenario (order : SetOrder) (c1 c2 : string) :
  let rules := two_rule_policy c1 c2 in
  let pool := Testcase.generate_test_cases rules in
  Testcase.build_attribute_domains rules
  = [("role", {| Testcase.category := c1;
                 Testcase.values := {["manager"; "guest"; "UNKNOWN"]} |})]
  ∧ length pool = 3%nat
  ∧ Testcase.tc_id <$> pool = [1; 2; 3]%nat
  ∧ (λ tc, (Testcase.attributes tc, Testcase.covers tc)) <$> pool
    ≡ₚ [ ([("role", ("manager", c1))], {["rule-1"]});
         ([("role", ("guest", c1))], {["rule-2"]});
         ([("role", ("UNKNOWN", c1))], ∅) ]
  ∧ Testcase.rule_coverage pool {["rule-1"; "rule-2"]} = Ok 1%Qc.
Proof.
  intros rules pool.
  assert (Hdom : Testcase.build_attribute_domains rules
    = [("role", {| Testcase.category := c1;
                   Testcase.values := {["manager"; "guest"; "UNKNOWN"]} |})]).
  { vm_compute. reflexivity. }
  set (X := ({["manager"; "guest"; "UNKNOWN"]} : gset string)) in *.
  set (D := [("role", {| Testcase.category := c1; Testcase.values := X |})]) in *.
  assert (Hpool : pool = Testcase.generate_loop rules D ["role"]
                           ((λ x, [x]) <$> set_iter "role" X) 1).
  { unfold pool, Testcase.generate_test_cases. cbv zeta. rewrite Hdom.
    rewrite <-product_singleton. reflexivity. }
  assert (Hlen : length (set_iter "role" X) = 3%nat).
  { rewrite set_iter_perm. reflexivity. }
  assert (Hvec : (λ tc, (Testcase.attributes tc, Testcase.covers tc)) <$> pool
    ≡ₚ [ ([("role", ("manager", c1))], {["rule-1"]});
         ([("role", ("guest", c1))], {["rule-2"]});
         ([("role", ("UNKNOWN", c1))], ∅) ]).
  { rewrite Hpool, generate_loop_vectors, <-list_fmap_compose, set_iter_perm.
    replace (elements X) with ["guest"; "manager"; "UNKNOWN"]
      by (vm_compute; reflexivity).
    vm_compute. apply perm_swap. }
  split; [done|]. split; [by rewrite Hpool, generate_loop_length, length_fmap|].
  split; [by rewrite Hpool, generate_loop_ids, length_fmap, Hlen|].
  split; [done|].
  unfold Testcase.rule_coverage. rewrite foldl_union.
  replace (⋃ (Testcase.covers <$> pool)) with ({["rule-1"; "rule-2"]} : gset string).
  { vm_compute. f_equal. apply Qc_is_canon. reflexivity. }
  change (Testcase.covers <$> pool)
    with ((snd ∘ (λ tc, (Testcase.attributes tc, Testcase.covers tc))) <$> pool).
  rewrite list_fmap_compose, Hvec. vm_compute. reflexivity.
Qed.
(** ** Dictionaries *)

Section dict_facts.
Context {V : Type}.
Implicit Types (d : dict V) (k : string) (v : V).

Lemma dict_get_app d1 d2 k :
  dict_get (d1 ++ d2) k
  = match dict_get d1 k with Some v => Some v | None => dict_get d2 k end.
Proof.
  induction d1 as [|[k' v'] d1 IH]; simpl; [done|].
  by case_decide.
Qed.

Lemma dict_get_setdefault d k v k' :
  dict_get (dict_setdefault d k v) k'
  = match dict_get d k' with
    | Some x => Some x
    | None => if decide (k = k') then Some v else None
    end.
Proof.
  unfold dict_setdefault. destruct (dict_get d k) as [x|] eqn:Hk.
  - destruct (dict_get d k') eqn:Hk'; [done|].
    case_decide; [congruence|done].
  - rewrite dict_get_app. simpl. by destruct (dict_get d k').
Qed.

Lemma dict_get_update (f : V → V) d k k' :
  dict_get (dict_update f d k) k'
  = if decide (k = k') then f <$> dict_get d k' else dict_get d k'.
Proof.
  induction d as [|[k0 v0] d IH]; simpl.
  - by case_decide.
  - repeat (case_decide; simpl; subst); try done; try congruence.
Qed.

Lemma dict_get_set d k v k' :
  dict_get (dict_set d k v) k' = if decide (k = k') then Some v else dict_get d k'.
Proof.
  induction d as [|[k0 v0] d IH]; simpl.
  - done.
  - repeat (case_decide; simpl; subst); try done; try congruence.
Qed.

Lemma dict_keys_get d k : k ∈ dict_keys d ↔ is_Some (dict_get d k).
Proof.
  unfold dict_keys. induction d as [|[k0 v0] d IH]; simpl.
  - split; [by intros ?%elem_of_nil|by intros [? ?]].
  - rewrite elem_of_cons, IH. case_decide; subst.
    + split; [by eexists|by left].
    + split; [by intros [?|?]; [congruence|]|by right].
Qed.

(** Updating at every key of a list, with an idempotent update. *)
Lemma dict_get_update_all (f : V → V) (ks : list string) d k :
  (∀ x, f (f x) = f x) →
  dict_get (foldl (dict_update f) d ks) k
  = if decide (k ∈ ks) then f <$> dict_get d k else dict_get d k.
Proof.
  intros Hf. revert d. induction ks as [|k0 ks IH]; intros d; cbn [foldl].
  - case_decide as Hin; [by apply elem_of_nil in Hin|done].
  - rewrite IH, dict_get_update.
    destruct (decide (k0 = k)) as [->|Hne].
    + rewrite (decide_True (P := k ∈ k :: ks)) by left.
      case_decide; [|done].
      destruct (dict_get d k); simpl; [by rewrite Hf|done].
    + case_decide as Hin.
      * rewrite decide_True; [done|by right].
      * rewrite decide_False; [done|]. by intros [?|?]%elem_of_cons.
Qed.

(** After [d.setdefault(k, v)] the subscript [d[k]] finds an entry. *)
Lemma dict_setdefault_present d k v : is_Some (dict_get (dict_setdefault d k v) k).
Proof.
  rewrite dict_get_setdefault. destruct (dict_get d k); [by eexists|].
  rewrite decide_True by done. by eexists.
Qed.
End dict_facts.

(** [domains[attr]["category"]] is read at the keys of [domains] only, where
    the subscript finds an entry. *)
Lemma category_of_key (domains : dict Testcase.domain) (attr : string) :
  attr ∈ dict_keys domains →
  ∃ d, dict_get domains attr = Some d
     ∧ Testcase.category_of domains attr = Testcase.category d.
Proof.
  intros [d Hd]%dict_keys_get. exists d. split; [done|].
  unfold Testcase.category_of. by rewrite Hd.
Qed.

(** ** The attribute domain builder *)

Section builder.
Import Testcase.

Lemma domain_eq c X Y :
  X ≡ Y → {| category := c; values := X |} = {| category := c; values := Y |}.
Proof. intros ->%leibniz_equiv. done. Qed.

Lemma condition_values_cons a0 c0 v0 conds a :
  condition_values ((a0, c0, v0) :: conds) a
  = if decide (a0 = a) then {[v0]} ∪ condition_values conds a
    else condition_values conds a.
Proof.
  unfold condition_values. cbn [omap]. unfold value_on at 1. simpl.
  by case_decide.
Qed.

Lemma first_category_cons a0 c0 v0 conds a :
  first_category ((a0, c0, v0) :: conds) a
  = if decide (a0 = a) then Some c0 else first_category conds a.
Proof.
  unfold first_category. cbn [omap]. unfold category_on at 1. simpl.
  by case_decide.
Qed.

Lemma register_conditions_get conds D a :
  dict_get (foldl register_condition D conds) a = extend (dict_get D a) conds a.
Proof.
  revert D. induction conds as [|[[a0 c0] v0] conds IH]; intros D.
  - simpl. destruct (dict_get D a) as [[c X]|]; simpl; [|done].
    f_equal. apply domain_eq. unfold condition_values. simpl. set_solver.
  - cbn [foldl]. rewrite IH. cbn [register_condition].
    rewrite dict_get_update, dict_get_setdefault.
    unfold extend. rewrite condition_values_cons, first_category_cons.
    destruct (decide (a0 = a)) as [->|Hne].
    + destruct (dict_get D a) as [[c X]|]; simpl.
      * f_equal. apply domain_eq. set_solver.
      * f_equal. apply domain_eq. set_solver.
    + destruct (dict_get D a) as [[c X]|]; simpl; done.
Qed.

Lemma register_rules_get rules D a :
  dict_get (foldl register_rule D rules) a
  = extend (dict_get D a) (all_conditions rules) a.
Proof.
  assert (Hflat : ∀ D, foldl register_rule D rules
                       = foldl register_condition D (all_conditions rules)).
  { clear. induction rules as [|r rules IH]; intros D; [done|].
    cbn [foldl]. rewrite IH. unfold all_conditions. simpl.
    by rewrite foldl_app. }
  rewrite Hflat. apply register_conditions_get.
Qed.

Lemma values_add_idemp v d : values_add v (values_add v d) = values_add v d.
Proof. destruct d as [c X]. unfold values_add. simpl. apply domain_eq. set_solver. Qed.

(** The domain of every attribute after both loops. *)
Lemma build_attribute_domains_get rules a :
  dict_get (build_attribute_domains rules) a
  = (λ c, {| category := c;
             values := condition_values (all_conditions rules) a ∪ {[UNKNOWN]} |})
      <$> first_category (all_conditions rules) a.
Proof.
  unfold build_attribute_domains. cbv zeta.
  rewrite dict_get_update_all by apply values_add_idemp.
  rewrite register_rules_get. simpl.
  destruct (first_category (all_conditions rules) a) as [c|] eqn:Hc; simpl.
  - rewrite decide_True; [done|].
    apply dict_keys_get. rewrite register_rules_get. simpl. rewrite Hc. by eexists.
  - by case_decide.
Qed.

Lemma elem_of_condition_values conds a v :
  v ∈ condition_values conds a ↔ ∃ c, (a, c, v) ∈ conds.
Proof.
  unfold condition_values. rewrite elem_of_list_to_set, list_elem_of_omap.
  split.
  - intros ([[a' c] v'] & Hin & Heq). unfold value_on in Heq.
    case_decide; [|done]. simplify_eq/=. by exists c.
  - intros (c & Hin). exists (a, c, v). split; [done|].
    unfold value_on. by rewrite decide_True.
Qed.

Lemma elem_of_all_conditions rules x :
  x ∈ all_conditions rules ↔ ∃ rule, rule ∈ rules ∧ x ∈ conditions rule.
Proof.
  unfold all_conditions. rewrite list_elem_of_bind. naive_solver.
Qed.

Lemma first_category_is_Some conds a c v :
  (a, c, v) ∈ conds → is_Some (first_category conds a).
Proof.
  induction conds as [|[[a0 c0] v0] conds IH].
  - by intros ?%elem_of_nil.
  - fold (first_category conds a) in IH. rewrite first_category_cons.
    intros [Heq|Hin]%elem_of_cons.
    + simplify_eq. rewrite decide_True by done. by eexists.
    + case_decide; [by eexists|by apply IH].
Qed.

Lemma first_category_elem conds a c :
  first_category conds a = Some c → ∃ v, (a, c, v) ∈ conds.
Proof.
  unfold first_category. intros Hhd%head_Some_elem_of.
  apply list_elem_of_omap in Hhd as ([[a' c'] v'] & Hin & Heq).
  unfold category_on in Heq. case_decide; [|done]. simplify_eq/=. by exists v'.
Qed.
End builder.

(** ** C6: the sentinel value *)

(** C6, the claim as stated fails: when a rule condition on an attribute has
    the literal value UNKNOWN, the domain of that attribute has no value that
    is absent from the rule conditions. *)
Lemma sentinel_collides_with_rule_value :
  let rules := [ {| Testcase.rule_id := "rule-1"; Testcase.effect := "Permit";
                    Testcase.conditions := [("role", "subject", "UNKNOWN")] |} ] in
  ∃ d, dict_get (Testcase.build_attribute_domains rules) "role" = Some d
     ∧ Testcase.values d = {["UNKNOWN"]}
     ∧ size (Testcase.values d ∖ condition_values (all_conditions rules) "role") = 0%nat.
Proof.
  intros rules. eexists. split; [vm_compute; reflexivity|].
  split; vm_compute; reflexivity.
Qed.

(** C6, amended: for every rule list, the domain of every attribute is the
    set of the values the rule conditions give to that attribute together
    with the literal UNKNOWN. It contains exactly one value absent from the
    rule conditions for that attribute, namely UNKNOWN, when no rule
    condition on the attribute has the value UNKNOWN, and no such value
    otherwise. *)
Theorem sentinel_presence (rules : list Testcase.Rule) (a : string)
    (d : Testcase.domain) :
  dict_get (Testcase.build_attribute_domains rules) a = Some d →
  let rule_values := condition_values (all_conditions rules) a in
  Testcase.values d = rule_values ∪ {[Testcase.UNKNOWN]}
  ∧ (Testcase.UNKNOWN ∉ rule_values →
     Testcase.values d ∖ rule_values = {[Testcase.UNKNOWN]}
     ∧ size (Testcase.values d ∖ rule_values) = 1%nat)
  ∧ (Testcase.UNKNOWN ∈ rule_values →
     Testcase.values d ∖ rule_values = ∅).
Proof.
  rewrite build_attribute_domains_get. intros Hd rule_values.
  destruct (first_category (all_conditions rules) a) as [c|]; [|done].
  simpl in Hd. injection Hd as <-. simpl. fold rule_values.
  split; [done|]. split.
  - intros Hnot.
    assert (Heq : (rule_values ∪ {[Testcase.UNKNOWN]}) ∖ rule_values
                  = {[Testcase.UNKNOWN]}) by set_solver.
    rewrite Heq. split; [done|]. apply size_singleton.
  - intros Hin. set_solver.
Qed.

(** A run of C6 on the two-rule policy. *)
Lemma sentinel_presence_witness :
  let d := {| Testcase.category := "subject";
              Testcase.values := {["manager"; "guest"; "UNKNOWN"]} |} in
  let rule_values :=
    condition_values (all_conditions (two_rule_policy "subject" "subject")) "role" in
  Testcase.values d = rule_values ∪ {[Testcase.UNKNOWN]}
  ∧ (Testcase.UNKNOWN ∉ rule_values →
     Testcase.values d ∖ rule_values = {[Testcase.UNKNOWN]}
     ∧ size (Testcase.values d ∖ rule_values) = 1%nat)
  ∧ (Testcase.UNKNOWN ∈ rule_values →
     Testcase.values d ∖ rule_values = ∅).
Proof.
  intros d.
  apply (sentinel_presence (two_rule_policy "subject" "subject") "role" d).
  vm_compute. reflexivity.
Defined.

(** ** C7: domain completeness *)

(** C7, the claim as stated fails: when two conditions on one attribute carry
    different categories, the domain keeps the category of the first. *)
Lemma category_first_writer_wins :
  let rules := two_rule_policy "subject" "resource" in
  ("role", "resource", "guest") ∈ all_conditions rules
  ∧ Testcase.category
      <$> dict_get (Testcase.build_attribute_domains rules) "role" = Some "subject"
  ∧ "subject" ≠ "resource".
Proof.
  intros rules. split; [|split; [vm_compute; reflexivity|discriminate]].
  right. left.
Qed.

(** C7, amended: for every rule list and every condition (a, c, v) of any of
    its rules, after build_attribute_domains there is a domain for a, v is
    one of its values, and its category is the category of the first
    condition on a in rule order; it equals c whenever all conditions on a
    carry the same category. *)
Theorem domain_completeness (rules : list Testcase.Rule) (rule : Testcase.Rule)
    (a c v : string) :
  rule ∈ rules → (a, c, v) ∈ Testcase.conditions rule →
  ∃ d, dict_get (Testcase.build_attribute_domains rules) a = Some d
     ∧ v ∈ Testcase.values d
     ∧ first_category (all_conditions rules) a = Some (Testcase.category d)
     ∧ ((∀ rule' c' v', rule' ∈ rules → (a, c', v') ∈ Testcase.conditions rule' → c' = c)
        → Testcase.category d = c).
Proof.
  intros Hrule Hcond.
  assert (Hin : (a, c, v) ∈ all_conditions rules).
  { apply elem_of_all_conditions. by exists rule. }
  destruct (first_category_is_Some _ _ _ _ Hin) as [c1 Hc1].
  rewrite build_attribute_domains_get, Hc1. simpl.
  eexists. split; [done|]. simpl. split; [|split; [done|]].
  - apply elem_of_union. left. apply elem_of_condition_values. by exists c.
  - intros Hcons.
    apply first_category_elem in Hc1 as (v1 & Hv1).
    apply elem_of_all_conditions in Hv1 as (rule' & Hrule' & Hcond').
    by apply (Hcons rule' c1 v1).
Qed.

(** A run of C7 on the first rule of the two-rule policy. *)
Lemma domain_completeness_witness :
  ∃ d, dict_get (Testcase.build_attribute_domains
                   (two_rule_policy "subject" "subject")) "role" = Some d
     ∧ "manager" ∈ Testcase.values d
     ∧ first_category (all_conditions (two_rule_policy "subject" "subject")) "role"
       = Some (Testcase.category d)
     ∧ ((∀ rule' c' v', rule' ∈ two_rule_policy "subject" "subject" →
           ("role", c', v') ∈ Testcase.conditions rule' → c' = "subject")
        → Testcase.category d = "subject").
Proof.
  apply (domain_completeness (two_rule_policy "subject" "subject")
           {| Testcase.rule_id := "rule-1"; Testcase.effect := "Permit";
              Testcase.conditions := [("role", "subject", "manager")] |}
           "role" "subject" "manager").
  - left.
  - left.
Defined.

(** ** C10: one candidate per rule *)

Section dfs.
Import TestcaseGa.

Lemma dfs_loop_imap rules first :
  dfs_loop rules first = (imap (dfs_case first) rules, (first + length rules)%nat).
Proof.
  revert first. induction rules as [|rule rules IH]; intros first.
  - simpl. by rewrite Nat.add_0_r.
  - cbn [dfs_loop]. rewrite IH, imap_cons. cbn [length].
    f_equal; [|lia]. f_equal.
    + unfold dfs_case. by rewrite Nat.add_0_r.
    + apply imap_ext. intros i x _. unfold dfs_case. simpl. f_equal. lia.
Qed.

Lemma omap_cons {A B} (f : A → option B) (x : A) (l : list A) :
  omap f (x :: l) = match f x with Some y => y :: omap f l | None => omap f l end.
Proof. reflexivity. Qed.

Lemma last_binding_cons cond conds a :
  last_binding (cond :: conds) a
  = match last_binding conds a with
    | Some b => Some b
    | None => binding_on a cond
    end.
Proof.
  unfold last_binding. rewrite omap_cons.
  destruct (binding_on a cond) as [b|].
  - rewrite last_cons. by destruct (last _).
  - by destruct (last _).
Qed.

Lemma dfs_case_ids rules first :
  tc_id <$> imap (dfs_case first) rules = seq first (length rules).
Proof.
  revert first. induction rules as [|rule rules IH]; intros first; [done|].
  rewrite imap_cons. cbn [fmap list_fmap length seq]. f_equal.
  - unfold dfs_case. simpl. lia.
  - rewrite <-IH. f_equal. apply imap_ext. intros i x _.
    unfold dfs_case. simpl. f_equal. lia.
Qed.

Lemma assignment_fold_get conds D a :
  dict_get (foldl (λ attributes cond,
                     dict_set attributes (attr cond) (value cond, category cond))
                  D conds) a
  = match last_binding conds a with
    | Some b => Some b
    | None => dict_get D a
    end.
Proof.
  revert D. induction conds as [|cond conds IH]; intros D; [done|].
  cbn [foldl]. rewrite IH, dict_get_set, last_binding_cons.
  unfold binding_on. destruct (last_binding conds a); [done|].
  by case_decide.
Qed.

Lemma rule_assignment_get rule a :
  dict_get (rule_assignment rule) a = last_binding (conditions rule) a.
Proof.
  unfold rule_assignment. rewrite assignment_fold_get.
  by destruct (last_binding _ _).
Qed.
End dfs.

(** C10: for every rule list the one-candidate-per-rule generator returns
    len(rules)+1 test cases with the ids 1..len(rules)+1; the i-th case is
    built from the i-th rule and its covers set is exactly that rule's id,
    whatever its assignment; the assignment maps every attribute to the value
    and category of the last condition of the rule on it, so that a rule with
    two conditions on one attribute is labelled as covered by a case that
    does not satisfy it; and the final case has an empty covers set. *)
Theorem dfs_generate_test_cases_shape (rules : list TestcaseGa.Rule) :
  let test_cases := TestcaseGa.dfs_generate_test_cases rules in
  length test_cases = S (length rules)
  ∧ TestcaseGa.tc_id <$> test_cases = seq 1 (S (length rules))
  ∧ (∀ i rule, rules !! i = Some rule →
       ∃ tc, test_cases !! i = Some tc
           ∧ TestcaseGa.tc_id tc = S i
           ∧ TestcaseGa.covers tc = {[TestcaseGa.rule_id rule]}
           ∧ ∀ a, dict_get (TestcaseGa.attributes tc) a
                  = last_binding (TestcaseGa.conditions rule) a)
  ∧ (∃ tc, test_cases !! length rules = Some tc
         ∧ TestcaseGa.tc_id tc = S (length rules)
         ∧ TestcaseGa.attributes tc = [("role", ("unknown", "subject"))]
         ∧ TestcaseGa.covers tc = ∅)
  ∧ (let rule := {| TestcaseGa.rule_id := "rule-1"; TestcaseGa.effect := "Permit";
                    TestcaseGa.conditions :=
                      [ {| TestcaseGa.attr := "role"; TestcaseGa.category := "subject";
                           TestcaseGa.value := "manager" |};
                        {| TestcaseGa.attr := "role"; TestcaseGa.category := "subject";
                           TestcaseGa.value := "guest" |} ] |} in
     ∃ tc, TestcaseGa.dfs_generate_test_cases [rule] !! 0%nat = Some tc
         ∧ TestcaseGa.covers tc = {["rule-1"]}
         ∧ TestcaseGa.attributes tc = [("role", ("guest", "subject"))]
         ∧ assignment_satisfies (TestcaseGa.attributes tc) rule = false).
Proof.
  intros test_cases.
  assert (Heq : test_cases
    = imap (dfs_case 1) rules ++ [TestcaseGa.not_applicable_case (S (length rules))]).
  { unfold test_cases, TestcaseGa.dfs_generate_test_cases.
    by rewrite dfs_loop_imap. }
  split; [|split; [|split; [|split]]].
  - rewrite Heq, length_app, length_imap. simpl. lia.
  - rewrite Heq, fmap_app, dfs_case_ids, seq_S. done.
  - intros i rule Hi. exists (dfs_case 1 i rule).
    split; [|split; [done|split; [done|]]].
    + rewrite Heq, lookup_app_l by (rewrite length_imap; by eapply lookup_lt_Some).
      by rewrite list_lookup_imap, Hi.
    + intros a. apply rule_assignment_get.
  - exists (TestcaseGa.not_applicable_case (S (length rules))). split; [|done].
    rewrite Heq, lookup_app_r by (by rewrite length_imap).
    by rewrite length_imap, Nat.sub_diag.
  - intros rule. eexists. split; [reflexivity|].
    split; [|split]; vm_compute; reflexivity.
Qed.

(** ** Reasoning about random computations *)

Section returns.
Context {A B : Type}.

Lemma returns_ret (a : A) (P : A → Prop) : P a → returns (mret a) P.
Proof. intros Ha s. by exists a, s. Qed.

Lemma returns_bind (m : rand A) (f : A → rand B) (P : A → Prop) (Q : B → Prop) :
  returns m P → (∀ a, P a → returns (f a) Q) → returns (m ≫= f) Q.
Proof.
  intros Hm Hf s. destruct (Hm s) as (a & s' & Hms & Ha).
  destruct (Hf a Ha s') as (b & s'' & Hfs & Hb).
  exists b, s''. split; [|done].
  unfold mbind, rand_bind. by rewrite Hms.
Qed.

Lemma returns_mono (m : rand A) (P Q : A → Prop) :
  returns m P → (∀ a, P a → Q a) → returns m Q.
Proof.
  intros Hm HPQ s. destruct (Hm s) as (a & s' & Hms & Ha).
  exists a, s'. auto.
Qed.

Lemma returns_lift (r : result A) (a : A) (P : A → Prop) :
  r = Ok a → P a → returns (lift r) P.
Proof. intros -> Ha s. by exists a, s. Qed.

Lemma raises_bind (m : rand A) (f : A → rand B) (P : A → Prop) (e : exn) :
  returns m P → (∀ a, P a → raises (f a) e) → raises (m ≫= f) e.
Proof.
  intros Hm Hf s. destruct (Hm s) as (a & s' & Hms & Ha).
  unfold mbind, rand_bind. rewrite Hms. by apply Hf.
Qed.

Lemma raises_bind_l (m : rand A) (f : A → rand B) (e : exn) :
  raises m e → raises (m ≫= f) e.
Proof. intros Hm s. unfold mbind, rand_bind. by rewrite Hm. Qed.

Lemma returns_run (m : rand A) (P : A → Prop) (s : rng) :
  returns m P → ∃ a, run m s = Ok a ∧ P a.
Proof.
  intros Hm. destruct (Hm s) as (a & s' & Hms & Ha).
  exists a. unfold run. by rewrite Hms.
Qed.

Lemma raises_run (m : rand A) (e : exn) (s : rng) :
  raises m e → run m s = Raise e.
Proof. intros Hm. unfold run. by rewrite Hm. Qed.
End returns.

Lemma returns_draw : returns draw (λ _, True).
Proof. intros s. by eexists _, _. Qed.

Lemma returns_randint (a b : Z) :
  (a ≤ b)%Z → returns (randint a b) (λ z, (a ≤ z ≤ b)%Z).
Proof.
  intros Hab. unfold randint. rewrite decide_True by done.
  eapply returns_bind; [apply returns_draw|]. intros d _.
  apply returns_ret.
  pose proof (Z.mod_pos_bound (Z.of_nat d) (b - a + 1)). lia.
Qed.

Lemma raises_randint (a b : Z) : (b < a)%Z → raises (randint a b) ValueError.
Proof. intros Hab s. unfold randint. rewrite decide_False by lia. done. Qed.

Lemma returns_random_lt (percent : nat) : returns (random_lt percent) (λ _, True).
Proof.
  unfold random_lt. eapply returns_bind; [apply returns_draw|]. intros d _.
  by apply returns_ret.
Qed.

Lemma returns_sample2 {A} (population : list A) :
  (2 ≤ length population)%nat →
  returns (sample2 population) (λ p, p.1 ∈ population ∧ p.2 ∈ population).
Proof.
  intros Hlen. unfold sample2. rewrite decide_False by lia.
  eapply returns_bind; [apply returns_draw|]. intros d1 _.
  eapply returns_bind; [apply returns_draw|]. intros d2 _.
  cbv zeta.
  set (n := length population) in *.
  set (i := (d1 `mod` n)%nat).
  set (j0 := (d2 `mod` (n - 1))%nat).
  set (j := if decide (j0 < i)%nat then j0 else S j0).
  assert (Hi : (i < n)%nat) by (apply Nat.mod_upper_bound; lia).
  assert (Hj0 : (j0 < n - 1)%nat) by (apply Nat.mod_upper_bound; lia).
  assert (Hj : (j < n)%nat) by (unfold j; case_decide; lia).
  destruct (lookup_lt_is_Some_2 population i Hi) as [x Hx].
  destruct (lookup_lt_is_Some_2 population j Hj) as [y Hy].
  rewrite Hx, Hy. apply returns_ret. simpl.
  split; by eapply list_elem_of_lookup_2.
Qed.

Lemma raises_sample2 {A} (population : list A) :
  (length population < 2)%nat → raises (sample2 population) ValueError.
Proof. intros Hlen s. unfold sample2. by rewrite decide_True by lia. Qed.

Lemma returns_rand_map {A B} (f : A → rand B) (l : list A) (P : A → B → Prop) :
  (∀ x, x ∈ l → returns (f x) (P x)) →
  returns (rand_map f l) (λ ys, Forall2 P l ys).
Proof.
  induction l as [|x l IH]; intros Hf; simpl.
  - apply returns_ret. constructor.
  - eapply returns_bind; [apply Hf; left|]. intros y Hy.
    eapply returns_bind; [apply IH; intros x' Hx'; apply Hf; by right|].
    intros ys Hys. apply returns_ret. by constructor.
Qed.

Lemma returns_rand_repeat {A} (n : nat) (m : rand A) (P : A → Prop) :
  returns m P →
  returns (rand_repeat n m) (λ xs, length xs = n ∧ Forall P xs).
Proof.
  intros Hm. induction n as [|n IH]; simpl.
  - apply returns_ret. by split.
  - eapply returns_bind; [apply Hm|]. intros x Hx.
    eapply returns_bind; [apply IH|]. intros xs [Hlen Hxs].
    apply returns_ret. split; [simpl; by f_equal|by constructor].
Qed.

(** ** The random source reaches every outcome *)

Lemma randint_onto (a b z : Z) :
  (a ≤ z ≤ b)%Z → ∃ s, run (randint a b) s = Ok z.
Proof.
  intros Hz. exists (replay [Z.to_nat (z - a)] 0).
  unfold run, randint. rewrite decide_True by lia.
  unfold mbind, rand_bind, draw, replay. simpl. f_equal.
  rewrite Z2Nat.id by lia. rewrite Z.mod_small by lia. lia.
Qed.

Lemma random_lt_onto (percent : nat) (flip : bool) :
  (0 < percent < 100)%nat → ∃ s, run (random_lt percent) s = Ok flip.
Proof.
  intros Hp. exists (replay [if flip then 0%nat else percent] 0).
  unfold run, random_lt, mbind, rand_bind, draw, replay, mret, rand_ret.
  cbn [draws cursor nth]. f_equal.
  destruct flip.
  - apply bool_decide_eq_true. rewrite Nat.mod_small; lia.
  - apply bool_decide_eq_false. rewrite Nat.mod_small; lia.
Qed.

Lemma sample2_onto {A} (population : list A) (i j : nat) (x y : A) :
  i ≠ j → population !! i = Some x → population !! j = Some y →
  ∃ s, run (sample2 population) s = Ok (x, y).
Proof.
  intros Hij Hx Hy.
  pose proof (lookup_lt_Some _ _ _ Hx) as Hi.
  pose proof (lookup_lt_Some _ _ _ Hy) as Hj.
  exists (replay [i; if decide (j < i)%nat then j else pred j] 0).
  unfold run, sample2. rewrite decide_False by lia.
  unfold mbind, rand_bind, draw, replay. cbn [draws cursor nth].
  rewrite (Nat.mod_small i) by lia.
  destruct (decide (j < i)%nat) as [Hlt|Hge].
  - rewrite (Nat.mod_small j) by lia. rewrite decide_True by done.
    by rewrite Hx, Hy.
  - rewrite (Nat.mod_small (pred j)) by lia. rewrite decide_False by lia.
    replace (S (pred j)) with j by lia. by rewrite Hx, Hy.
Qed.

(** ** Facts about the ordering by a key *)

Section ordering.
Context {A : Type}.
Implicit Types (x y b : Qc * A) (l : list (Qc * A)).
Local Open Scope Qc_scope.

Lemma insert_desc_perm x l : insert_desc x l ≡ₚ x :: l.
Proof.
  induction l as [|y l IH]; simpl; [done|].
  case_decide; [|done].
  rewrite IH. apply perm_swap.
Qed.

Lemma sorted_desc_perm l : sorted_desc l ≡ₚ l.
Proof.
  induction l as [|x l IH]; simpl; [done|].
  by rewrite insert_desc_perm, IH.
Qed.

(** The head of the sorted list carries a greatest key. *)
Lemma sorted_desc_head x l :
  ∃ b rest, sorted_desc (x :: l) = b :: rest ∧ ∀ y, y ∈ x :: l → y.1 ≤ b.1.
Proof.
  revert x. induction l as [|x' l IH]; intros x.
  - exists x, []. split; [done|].
    intros y ->%list_elem_of_singleton. apply Qcle_refl.
  - destruct (IH x') as (b & rest & Hsort & Hmax).
    change (sorted_desc (x :: x' :: l)) with (insert_desc x (sorted_desc (x' :: l))).
    rewrite Hsort. simpl. case_decide as Hlt.
    + exists b, (insert_desc x rest). split; [done|].
      intros y [->|Hy]%elem_of_cons; [by apply Qclt_le_weak|by apply Hmax].
    + exists x, (b :: rest). split; [done|].
      apply Qcnot_lt_le in Hlt.
      intros y [->|Hy]%elem_of_cons; [apply Qcle_refl|].
      eapply Qcle_trans; [by apply Hmax|done].
Qed.

Lemma max_from_ge b l : b.1 ≤ (max_from b l).1.
Proof.
  revert b. induction l as [|x l IH]; intros b; simpl; [apply Qcle_refl|].
  case_decide as Hlt; [|done].
  eapply Qcle_trans; [by apply Qclt_le_weak|apply IH].
Qed.

(** [max] returns the first item among those of greatest key. *)
Lemma max_from_first_max b l :
  ∃ l1 l2, b :: l = l1 ++ max_from b l :: l2
         ∧ (∀ y, y ∈ l1 → y.1 < (max_from b l).1)
         ∧ (∀ y, y ∈ l2 → y.1 ≤ (max_from b l).1).
Proof.
  revert b. induction l as [|x l IH]; intros b.
  - exists [], []. split; [done|]. split; by intros y ?%elem_of_nil.
  - simpl. case_decide as Hlt.
    + destruct (IH x) as (l1 & l2 & Heq & Hl1 & Hl2).
      exists (b :: l1), l2. split; [by rewrite Heq|]. split; [|done].
      intros y [->|Hy]%elem_of_cons; [|by apply Hl1].
      eapply Qclt_le_trans; [exact Hlt|apply max_from_ge].
    + apply Qcnot_lt_le in Hlt.
      destruct (IH b) as (l1 & l2 & Heq & Hl1 & Hl2).
      destruct l1 as [|b1 l1].
      * simpl in Heq. injection Heq as Hb Hl.
        exists [], (x :: l2). split; [simpl; congruence|].
        split; [by intros y ?%elem_of_nil|].
        intros y [->|Hy]%elem_of_cons; [by rewrite <-Hb|by apply Hl2].
      * simpl in Heq. injection Heq as Hb Hl. subst b1.
        exists (b :: x :: l1), l2. split; [simpl; congruence|]. split; [|done].
        intros y [->|[->|Hy]%elem_of_cons]%elem_of_cons.
        -- apply Hl1. left.
        -- eapply Qcle_lt_trans; [exact Hlt|]. apply Hl1. left.
        -- apply Hl1. by right.
Qed.
End ordering.

(** ** The genetic optimizer of src/testcase.py *)

Lemma result_map_total {A B} (f : A → result B) (l : list A) :
  (∀ x, x ∈ l → ∃ y, f x = Ok y) →
  ∃ ys, result_map f l = Ok ys ∧ Forall2 (λ x y, f x = Ok y) l ys.
Proof.
  induction l as [|x l IH]; intros Hf; simpl.
  - exists []. split; [done|constructor].
  - destruct (Hf x) as [y Hy]; [left|].
    destruct IH as (ys & Hys & Hall); [intros x' Hx'; apply Hf; by right|].
    exists (y :: ys). rewrite Hy. simpl. rewrite Hys. simpl.
    split; [done|by constructor].
Qed.

Lemma result_map_inv {A B} (f : A → result B) (l : list A) (ys : list B) :
  result_map f l = Ok ys → Forall2 (λ x y, f x = Ok y) l ys.
Proof.
  revert ys. induction l as [|x l IH]; intros ys; simpl.
  - intros [= <-]. constructor.
  - destruct (f x) as [y|e] eqn:Hy; simpl; [|done].
    destruct (result_map f l) as [ys'|e]; simpl; [|done].
    intros [= <-]. constructor; [done|by apply IH].
Qed.

Lemma result_map_raises {A B} (f : A → result B) (l : list A) (e : exn) :
  result_map f l = Raise e → ∃ x, x ∈ l ∧ f x = Raise e.
Proof.
  induction l as [|x l IH]; simpl; [done|].
  destruct (f x) as [y|e'] eqn:Hy; simpl.
  - destruct (result_map f l) as [ys|e']; simpl; [done|].
    intros [= ->]. destruct IH as (x' & Hin & Hx'); [done|].
    exists x'. split; [by right|done].
  - intros [= ->]. exists x. split; [left|done].
Qed.

Lemma zip_keys_lookup {A K} (P : A → K → Prop) (l : list A) (ks : list K) :
  Forall2 P l ks →
  (∀ k x, (k, x) ∈ zip ks l → P x k ∧ x ∈ l)
  ∧ (∀ x, x ∈ l → ∃ k, (k, x) ∈ zip ks l).
Proof.
  induction 1 as [|x k l ks Hxk Hall [IH1 IH2]]; simpl.
  - split; [by intros k x ?%elem_of_nil|by intros x ?%elem_of_nil].
  - split.
    + intros k' x' [Heq|Hin]%elem_of_cons.
      * simplify_eq. split; [done|left].
      * destruct (IH1 _ _ Hin). split; [done|by right].
    + intros x' [->|Hin]%elem_of_cons.
      * exists k. left.
      * destruct (IH2 _ Hin) as [k' Hk']. exists k'. by right.
Qed.

Section testcase_ga.
Import Testcase.
Context (test_cases : list TestCase) (all_rules : gset string).
Context (Hrules : all_rules ≠ ∅).

Local Abbreviation n := (length test_cases).
Local Abbreviation fit := (λ ind, fitness ind test_cases all_rules).

Lemma selected_cases_nil individual : selected_cases individual [] = [].
Proof. unfold selected_cases. by destruct individual. Qed.

Lemma fitness_total individual : ∃ q, fit individual = Ok q.
Proof using Hrules.
  simpl. unfold fitness. cbv zeta.
  destruct (selected_cases individual test_cases) as [|tc tcs] eqn:Hsel.
  - by eexists.
  - assert (Hn : n ≠ 0%nat).
    { intros Hn. apply length_zero_iff_nil in Hn. rewrite Hn in Hsel.
      by rewrite selected_cases_nil in Hsel. }
    unfold rule_coverage.
    rewrite (py_div_ok _ (size all_rules)) by by apply size_nonempty.
    simpl. rewrite py_div_ok by done. simpl. by eexists.
Qed.

Lemma fitness_le_trans ind1 ind2 ind3 :
  fitness_le test_cases all_rules ind1 ind2 →
  fitness_le test_cases all_rules ind2 ind3 →
  fitness_le test_cases all_rules ind1 ind3.
Proof.
  intros (q1 & q2 & H1 & H2 & H12) (q2' & q3 & H2' & H3 & H23).
  exists q1, q3. split; [done|]. split; [done|].
  assert (q2 = q2') as -> by congruence.
  by eapply Qcle_trans.
Qed.

Lemma returns_make_child population :
  (2 ≤ length (take 10 population))%nat → (2 ≤ n)%nat → genomes test_cases population →
  returns (make_child population) (λ child, length child = n).
Proof.
  intros Hpop Hn Hgen. unfold make_child.
  eapply returns_bind; [by apply returns_sample2|].
  intros [p1 p2] [Hp1 Hp2]. simpl in Hp1, Hp2.
  assert (Hl1 : length p1 = n).
  { eapply (proj1 (Forall_forall _ _) Hgen). by eapply subseteq_take. }
  assert (Hl2 : length p2 = n).
  { eapply (proj1 (Forall_forall _ _) Hgen). by eapply subseteq_take. }
  eapply returns_bind; [apply returns_randint; lia|].
  intros point Hpoint. cbv zeta.
  eapply returns_mono.
  { apply (returns_rand_map _ _ (λ _ _, True)). intros b _.
    unfold mutate_bit. eapply returns_bind; [apply returns_random_lt|].
    intros flip _. by apply returns_ret. }
  intros child Hall%Forall2_length.
  rewrite <-Hall, length_app, length_take, length_drop. lia.
Qed.

Lemma returns_fill_next_gen k population next_gen :
  (k = 0%nat ∨ ((2 ≤ length (take 10 population))%nat ∧ (2 ≤ n)%nat)) →
  genomes test_cases population → genomes test_cases next_gen →
  returns (fill_next_gen k population next_gen)
          (λ population', length population' = (length next_gen + k)%nat
                          ∧ genomes test_cases population'
                          ∧ next_gen `prefix_of` population').
Proof.
  intros Hk Hpop. revert next_gen Hk.
  induction k as [|k IH]; intros next_gen Hk Hnext; simpl.
  - apply returns_ret. split; [lia|]. by split.
  - destruct Hk as [?|[Hlen Hn]]; [done|].
    eapply returns_bind; [by apply returns_make_child|].
    intros child Hchild.
    eapply returns_mono.
    { apply IH; [by right|].
      apply Forall_app. split; [done|]. by constructor. }
    intros population' (Hlen' & Hgen' & Hpre).
    rewrite length_app in Hlen'. simpl in Hlen'.
    split; [lia|]. split; [done|].
    etrans; [|exact Hpre]. by apply prefix_app_r.
Qed.

(** One generation: the population keeps its size and genome length, and the
    new population starts with a fittest individual of the old one. *)
Lemma returns_generation pop_size population :
  (1 ≤ pop_size)%nat → (pop_size ≤ 2 ∨ 2 ≤ n)%nat →
  length population = pop_size → genomes test_cases population →
  returns (generation test_cases all_rules pop_size population)
          (λ population', length population' = pop_size
                          ∧ genomes test_cases population'
                          ∧ ∃ best rest, population' = best :: rest
                                       ∧ best ∈ population
                                       ∧ ∀ ind, ind ∈ population →
                                           fitness_le test_cases all_rules ind best).
Proof using Hrules.
  intros Hpos Hsize Hlen Hgen. unfold generation.
  destruct (result_map_total fit population) as (keys & Hkeys & Hall).
  { intros ind _. apply fitness_total. }
  eapply (returns_bind _ _ (λ ks, ks = keys)); [by eapply returns_lift|].
  intros ? ->. cbv zeta.
  destruct (zip_keys_lookup _ _ _ Hall) as [Hzip1 Hzip2].
  pose proof (Forall2_length _ _ _ Hall) as Hklen.
  destruct (zip keys population) as [|kx kxs] eqn:Hz.
  { apply (f_equal length) in Hz. rewrite length_zip in Hz. simpl in Hz. lia. }
  destruct (sorted_desc_head kx kxs) as (b & rest & Hsort & Hmax).
  assert (Hperm : (sorted_desc (kx :: kxs)).*2 ≡ₚ population).
  { rewrite sorted_desc_perm, <-Hz. by rewrite snd_zip by lia. }
  set (sorted := (sorted_desc (kx :: kxs)).*2) in *.
  assert (Hsgen : genomes test_cases sorted) by (unfold genomes; by rewrite Hperm).
  assert (Hslen : length sorted = pop_size) by by rewrite Hperm.
  assert (Hb : b ∈ kx :: kxs).
  { rewrite <-(sorted_desc_perm (kx :: kxs)), Hsort. left. }
  destruct b as [kb best]. destruct (Hzip1 _ _ Hb) as [Hfb Hbin].
  assert (Hhead : sorted = best :: rest.*2) by (unfold sorted; by rewrite Hsort).
  eapply returns_mono.
  { apply (returns_fill_next_gen _ sorted (take 2 sorted)).
    - destruct (decide (pop_size ≤ 2)%nat) as [Hle|Hgt].
      + left. rewrite length_take. lia.
      + right. rewrite length_take. lia.
    - done.
    - unfold genomes. eapply Forall_take, Hsgen. }
  intros population' (Hlen' & Hgen' & Hpre).
  rewrite length_take in Hlen'.
  split; [lia|]. split; [done|].
  rewrite Hhead in Hpre. cbn [take] in Hpre.
  destruct Hpre as [tail Htail]. simpl in Htail.
  exists best, (take 1 rest.*2 ++ tail). split; [done|]. split; [done|].
  intros ind Hind. destruct (Hzip2 _ Hind) as [k Hk].
  destruct (Hzip1 _ _ Hk) as [Hfk _].
  exists k, kb. split; [done|]. split; [done|]. by apply (Hmax (k, ind)).
Qed.

Lemma returns_generations_loop_S pop_size g population :
  (1 ≤ pop_size)%nat → (pop_size ≤ 2 ∨ 2 ≤ n)%nat →
  length population = pop_size → genomes test_cases population →
  returns (generations_loop test_cases all_rules pop_size (S g) population)
          (λ population', length population' = pop_size
                          ∧ genomes test_cases population'
                          ∧ ∃ best rest, population' = best :: rest
                               ∧ ∀ ind, ind ∈ population →
                                   fitness_le test_cases all_rules ind best).
Proof using Hrules.
  intros Hpos Hsize. revert population.
  induction g as [|g IH]; intros population Hlen Hgen.
  - cbn [generations_loop].
    eapply returns_bind; [by apply returns_generation|].
    intros population1 (Hlen1 & Hgen1 & best1 & rest1 & -> & Hin1 & Hdom1).
    apply returns_ret. split; [done|]. split; [done|]. by exists best1, rest1.
  - change (generations_loop test_cases all_rules pop_size (S (S g)) population)
      with (generation test_cases all_rules pop_size population
              ≫= generations_loop test_cases all_rules pop_size (S g)).
    eapply returns_bind; [by apply returns_generation|].
    intros population1 (Hlen1 & Hgen1 & best1 & rest1 & -> & Hin1 & Hdom1).
    eapply returns_mono; [by apply IH|].
    intros population' (Hlen' & Hgen' & best' & rest' & -> & Hdom').
    split; [done|]. split; [done|]. exists best', rest'. split; [done|].
    intros ind Hind. eapply fitness_le_trans; [by apply Hdom1|].
    apply Hdom'. left.
Qed.

Lemma returns_generations_loop pop_size generations population :
  (1 ≤ pop_size)%nat → (pop_size ≤ 2 ∨ 2 ≤ n)%nat →
  length population = pop_size → genomes test_cases population →
  returns (generations_loop test_cases all_rules pop_size generations population)
          (λ population', length population' = pop_size ∧ genomes test_cases population').
Proof using Hrules.
  intros Hpos Hsize Hlen Hgen. destruct generations as [|g].
  - by apply returns_ret.
  - eapply returns_mono; [by apply returns_generations_loop_S|].
    by intros population' (? & ? & _).
Qed.

Lemma returns_initial_population pop_size :
  returns (initial_population test_cases pop_size)
          (λ population, length population = pop_size ∧ genomes test_cases population).
Proof.
  unfold initial_population. apply returns_rand_repeat.
  eapply returns_mono.
  { apply (returns_rand_map _ _ (λ _ _, True)). intros tc _.
    eapply returns_mono; [by apply returns_randint|done]. }
  by intros ind Hall%Forall2_length.
Qed.

(** With genomes test_cases of length at most 1 the cut point has an empty range. *)
Lemma raises_make_child population :
  (2 ≤ length (take 10 population))%nat → (n ≤ 1)%nat → genomes test_cases population →
  raises (make_child population) ValueError.
Proof.
  intros Hpop Hn Hgen. unfold make_child.
  eapply raises_bind; [by apply returns_sample2|].
  intros [p1 p2] [Hp1 Hp2]. simpl in Hp1.
  assert (Hl1 : length p1 = n).
  { eapply (proj1 (Forall_forall _ _) Hgen). by eapply subseteq_take. }
  apply raises_bind_l, raises_randint. lia.
Qed.

(** With at least three individuals the first pass of the [while] loop is
    reached as soon as every fitness has been computed. *)
Lemma raises_generation_keys pop_size population keys :
  (3 ≤ pop_size)%nat → (n ≤ 1)%nat →
  length population = pop_size → genomes test_cases population →
  result_map fit population = Ok keys →
  raises (generation test_cases all_rules pop_size population) ValueError.
Proof.
  intros Hpos Hn Hlen Hgen Hkeys. unfold generation.
  pose proof (Forall2_length _ _ _ (result_map_inv _ _ _ Hkeys)) as Hklen.
  eapply (raises_bind _ _ (λ ks, ks = keys)); [by eapply returns_lift|].
  intros ? ->. cbv zeta.
  assert (Hperm : (sorted_desc (zip keys population)).*2 ≡ₚ population).
  { rewrite sorted_desc_perm. by rewrite snd_zip by lia. }
  set (sorted := (sorted_desc (zip keys population)).*2) in *.
  assert (Hsgen : genomes test_cases sorted) by (unfold genomes; by rewrite Hperm).
  assert (Hslen : length sorted = pop_size) by by rewrite Hperm.
  rewrite length_take, Hslen.
  replace (pop_size - 2 `min` pop_size)%nat with (S (pop_size - 3)) by lia.
  cbn [fill_next_gen]. apply raises_bind_l, raises_make_child; [|done|done].
  rewrite length_take. lia.
Qed.
End testcase_ga.

(** [fitness] of src/testcase.py on an empty set of rule identifiers: it
    returns 0 for an individual that selects nothing and divides by zero for
    every other one; no other exception leaves it. *)
Lemma testcase_fitness_unselected (test_cases : list Testcase.TestCase)
    (all_rules : gset string) (individual : list Z) :
  Testcase.selected_cases individual test_cases = [] →
  Testcase.fitness individual test_cases all_rules = Ok 0%Qc.
Proof. intros Hsel. unfold Testcase.fitness. by rewrite Hsel. Qed.

Lemma testcase_fitness_no_rules (test_cases : list Testcase.TestCase)
    (individual : list Z) :
  Testcase.selected_cases individual test_cases ≠ [] →
  Testcase.fitness individual test_cases ∅ = Raise ZeroDivisionError.
Proof.
  intros Hsel. unfold Testcase.fitness. cbv zeta.
  destruct (Testcase.selected_cases individual test_cases) as [|tc tcs]; [done|].
  unfold Testcase.rule_coverage. by rewrite size_empty, py_div_zero.
Qed.

Lemma testcase_fitness_raises (test_cases : list Testcase.TestCase)
    (all_rules : gset string) (individual : list Z) (e : exn) :
  Testcase.fitness individual test_cases all_rules = Raise e →
  e = ZeroDivisionError.
Proof.
  assert (Hdiv : ∀ n m e', py_div n m = Raise e' → e' = ZeroDivisionError).
  { intros n m e'. unfold py_div. case_decide; congruence. }
  unfold Testcase.fitness, Testcase.rule_coverage. cbv zeta.
  destruct (Testcase.selected_cases individual test_cases) as [|tc tcs]; [done|].
  destruct (py_div _ (size all_rules)) as [cov|e1] eqn:H1; simpl.
  - destruct (py_div _ (length test_cases)) as [penalty|e2] eqn:H2; simpl; [done|].
    intros [= <-]. by eapply Hdiv.
  - intros [= <-]. by eapply Hdiv.
Qed.

(** A generation on a pool of at most one vector, with at least three
    individuals: the first fault of the fitness computation if there is one,
    and the empty range of the cut point otherwise. *)
Lemma generation_small_pool (test_cases : list Testcase.TestCase)
    (all_rules : gset string) (pop_size : nat) (population : list (list Z))
    (s : rng) :
  (3 ≤ pop_size)%nat → (length test_cases ≤ 1)%nat →
  length population = pop_size → genomes test_cases population →
  (all_rules ≠ ∅
   ∨ Forall (λ ind, Testcase.selected_cases ind test_cases = []) population →
   Testcase.generation test_cases all_rules pop_size population s
   = Raise ValueError)
  ∧ (all_rules = ∅ →
     Exists (λ ind, Testcase.selected_cases ind test_cases ≠ []) population →
     Testcase.generation test_cases all_rules pop_size population s
     = Raise ZeroDivisionError).
Proof.
  intros Hpos Hn Hlen Hgen. split.
  - intros Htotal.
    destruct (result_map_total
                (λ ind, Testcase.fitness ind test_cases all_rules) population)
      as (keys & Hkeys & _).
    { intros ind Hind. destruct Htotal as [Hrules|Hnone].
      - by apply fitness_total.
      - exists 0%Qc. apply testcase_fitness_unselected.
        by apply (proj1 (Forall_forall _ _) Hnone). }
    by apply (raises_generation_keys test_cases all_rules pop_size population keys).
  - intros -> (ind & Hind & Hsel)%Exists_exists.
    unfold Testcase.generation, mbind, rand_bind, lift.
    destruct (result_map _ population) as [keys|e] eqn:Hkeys.
    + apply result_map_inv in Hkeys.
      apply list_elem_of_lookup in Hind as [i Hi].
      destruct (Forall2_lookup_l _ _ _ _ _ Hkeys Hi) as (k & _ & Hk).
      by rewrite testcase_fitness_no_rules in Hk.
    + apply result_map_raises in Hkeys as (ind' & _ & Hraise).
      by apply testcase_fitness_raises in Hraise as ->.
Qed.

(** ** C2: failure semantics of the optimizer *)

(** C2, the claim as stated fails: on a pool of one vector, which is not
    empty, the optimizer of src/testcase.py with its default parameters
    raises ValueError; on the empty pool it raises ValueError too, and does
    not return an empty suite; and the crossover of xacml_testcase_ga.py on
    parents of length 1 raises ValueError, and does not return a parent. *)
Lemma genetic_algorithm_faults_on_small_pool :
  let tc := {| Testcase.tc_id := 1; Testcase.attributes := [];
               Testcase.covers := {["rule-1"]} |} in
  run (Testcase.genetic_algorithm [tc] {["rule-1"]} Testcase.default_pop_size
         Testcase.default_generations) (replay [] 0) = Raise ValueError
  ∧ run (Testcase.genetic_algorithm [] {["rule-1"]} Testcase.default_pop_size
           Testcase.default_generations) (replay [] 0) = Raise ValueError
  ∧ run (TestcaseGa.crossover [1%Z] [0%Z]) (replay [] 0) = Raise ValueError.
Proof. intros tc. split; [|split]; vm_compute; reflexivity. Qed.

(** C2, amended: the optimizer of src/testcase.py returns a genome of the
    length of the pool, for every random sequence and every number of
    generations, whenever the set of rule identifiers is not empty, the
    population size is at least 1, and the pool has at least two vectors or
    the population size is at most 2 (no crossover takes place then). It has
    no short-circuit for small pools: on a pool of at most one vector, with a
    population of at least 3 and at least one generation, it never returns.
    It raises ValueError at the draw of the cut point when the set of rule
    identifiers is not empty, when the pool is empty, or when no individual
    of the initial population selects the vector; with an empty set of rule
    identifiers and an initial individual that selects the vector it raises
    ZeroDivisionError before, in the fitness computed for the sort. The
    crossover of xacml_testcase_ga.py raises ValueError whenever its first
    parent has length at most 1; its mutation returns a genome of the length
    of its argument, whatever that length. *)
Theorem genetic_algorithm_failure_semantics :
  (∀ test_cases all_rules pop_size generations s,
     all_rules ≠ ∅ → (1 ≤ pop_size)%nat →
     (pop_size ≤ 2 ∨ 2 ≤ length test_cases)%nat →
     ∃ best,
       run (Testcase.genetic_algorithm test_cases all_rules pop_size generations) s
       = Ok best
       ∧ length best = length test_cases)
  ∧ (∀ test_cases all_rules pop_size generations s,
       (3 ≤ pop_size)%nat → (1 ≤ generations)%nat →
       (length test_cases ≤ 1)%nat →
       ∃ population0,
         run (Testcase.initial_population test_cases pop_size) s = Ok population0
         ∧ (all_rules ≠ ∅ ∨ test_cases = []
            ∨ Forall (λ ind, Testcase.selected_cases ind test_cases = [])
                     population0 →
            run (Testcase.genetic_algorithm test_cases all_rules pop_size
                   generations) s
            = Raise ValueError)
         ∧ (all_rules = ∅ →
            Exists (λ ind, Testcase.selected_cases ind test_cases ≠ [])
                   population0 →
            run (Testcase.genetic_algorithm test_cases all_rules pop_size
                   generations) s
            = Raise ZeroDivisionError)
         ∧ ∃ e, run (Testcase.genetic_algorithm test_cases all_rules pop_size
                       generations) s
                = Raise e)
  ∧ (∀ p1 p2 s, (length p1 ≤ 1)%nat →
       run (TestcaseGa.crossover p1 p2) s = Raise ValueError)
  ∧ (∀ ind s, ∃ ind', run (TestcaseGa.mutate ind) s = Ok ind'
                      ∧ length ind' = length ind).
Proof.
  split; [|split; [|split]].
  - intros test_cases all_rules pop_size generations s Hrules Hpos Hsize.
    apply returns_run. unfold Testcase.genetic_algorithm.
    eapply returns_bind; [apply returns_initial_population|].
    intros population0 [Hlen0 Hgen0].
    eapply returns_bind; [by apply returns_generations_loop|].
    intros population [Hlen Hgen].
    destruct population as [|best rest]; [simpl in Hlen; lia|].
    apply returns_ret. by apply Forall_cons in Hgen as [? _].
  - intros test_cases all_rules pop_size generations s Hpos Hgens Hn.
    destruct (returns_initial_population test_cases pop_size s)
      as (population0 & s0 & Hinit & Hlen0 & Hgen0).
    exists population0. split; [unfold run; by rewrite Hinit|].
    destruct generations as [|g]; [lia|].
    destruct (generation_small_pool test_cases all_rules pop_size population0 s0
                Hpos Hn Hlen0 Hgen0) as [Hvalue Hzero].
    assert (Hrun : ∀ e,
      Testcase.generation test_cases all_rules pop_size population0 s0 = Raise e →
      run (Testcase.genetic_algorithm test_cases all_rules pop_size (S g)) s
      = Raise e).
    { intros e He. unfold run, Testcase.genetic_algorithm, mbind, rand_bind.
      rewrite Hinit. cbn [Testcase.generations_loop]. unfold mbind, rand_bind.
      by rewrite He. }
    split; [|split].
    + intros Hcase. apply Hrun, Hvalue.
      destruct Hcase as [Hrules|[->|Hnone]]; [by left| |by right].
      right. apply Forall_forall. intros ind _.
      apply selected_cases_nil.
    + intros Hrules Hsome. by apply Hrun, Hzero.
    + destruct (decide (all_rules = ∅)) as [Hrules|Hrules].
      * assert (Hdec : ∀ ind,
          sumbool (Testcase.selected_cases ind test_cases = [])
                  (Testcase.selected_cases ind test_cases ≠ [])).
        { intros ind. destruct (Testcase.selected_cases ind test_cases);
            [by left|by right]. }
        destruct (Forall_Exists_dec _ _ Hdec population0) as [Hnone|Hsome].
        -- exists ValueError. apply Hrun, Hvalue. by right.
        -- exists ZeroDivisionError. by apply Hrun, Hzero.
      * exists ValueError. apply Hrun, Hvalue. by left.
  - intros p1 p2 s Hlen. apply raises_run. unfold TestcaseGa.crossover.
    apply raises_bind_l, raises_randint. lia.
  - intros ind s. apply returns_run. unfold TestcaseGa.mutate.
    eapply returns_mono.
    { apply (returns_rand_map _ _ (λ _ _, True)). intros b _.
      eapply returns_bind; [apply returns_random_lt|].
      intros flip _. by apply returns_ret. }
    by intros ind' Hall%Forall2_length.
Qed.

(** The second case of C2 at an input: a pool of one vector, no rule
    identifier, and an initial population whose first individual selects the
    vector. *)
Lemma small_pool_without_rule_ids :
  let tc := {| Testcase.tc_id := 1; Testcase.attributes := [];
               Testcase.covers := {["rule-1"]} |} in
  run (Testcase.initial_population [tc] 3) (replay [1%nat] 0) = Ok [[1]; [0]; [0]]%Z
  ∧ run (Testcase.genetic_algorithm [tc] ∅ 3 1) (replay [1%nat] 0)
    = Raise ZeroDivisionError
  ∧ run (Testcase.genetic_algorithm [tc] ∅ 3 1) (replay [] 0)
    = Raise ValueError.
Proof. intros tc. split; [|split]; vm_compute; reflexivity. Qed.

(** ** C4: the convergence floor *)

(** C4, the code of xacml_test_optimization.py at a failing input: every
    generation replaces the whole population by mutated copies of its best
    individual, and nothing is carried over. With the default parameters, on
    the three test cases of the file and the draws [floor_breaking_draws],
    the initial population holds 110 of fitness 2/3 and the run returns 001
    of fitness -1/15. *)
Lemma optimizer_without_elitism_loses_best :
  let test_cases := TestOptimization.dfs_generate_test_cases in
  let all_rules : gset string := {["rule-1"; "rule-2"]} in
  run (TestOptimization.initial_population test_cases
         TestOptimization.default_pop_size) floor_breaking_draws
  = Ok ([1; 1; 0]%Z :: replicate 9 [0; 0; 0]%Z)
  ∧ run (TestOptimization.genetic_algorithm test_cases all_rules
           TestOptimization.default_pop_size TestOptimization.default_generations)
        floor_breaking_draws
    = Ok [0; 0; 1]%Z
  ∧ ∃ q0 q, TestOptimization.fitness [1; 1; 0]%Z test_cases all_rules = Ok q0
          ∧ TestOptimization.fitness [0; 0; 1]%Z test_cases all_rules = Ok q
          ∧ (q < q0)%Qc.
Proof.
  intros test_cases all_rules.
  split; [vm_compute; reflexivity|]. split; [vm_compute; reflexivity|].
  do 2 eexists. split; [vm_compute; reflexivity|].
  split; [vm_compute; reflexivity|]. reflexivity.
Qed.

(** The sibling optimizer of src/testcase.py carries the two fittest
    individuals over to the next generation (its line is marked elitism),
    and keeps the floor from the first generation on: whenever the set of
    rule identifiers is not empty, the population size is at least 1, the
    pool has at least two vectors or the population size is at most 2, and
    at least one generation is run, the run returns, for every random
    sequence, an individual at least as fit as every individual of the
    initial population; and every generation returns a population whose
    first individual is at least as fit as every individual of the
    population it started from. *)
Theorem elitist_optimizer_floor (test_cases : list Testcase.TestCase)
    (all_rules : gset string) (pop_size generations : nat) (s : rng) :
  all_rules ≠ ∅ → (1 ≤ pop_size)%nat →
  (pop_size ≤ 2 ∨ 2 ≤ length test_cases)%nat → (1 ≤ generations)%nat →
  (∃ population0 best,
     run (Testcase.initial_population test_cases pop_size) s = Ok population0
     ∧ run (Testcase.genetic_algorithm test_cases all_rules pop_size generations) s
       = Ok best
     ∧ ∀ ind, ind ∈ population0 → fitness_le test_cases all_rules ind best)
  ∧ (∀ population,
       length population = pop_size → genomes test_cases population →
       ∃ best rest,
         run (Testcase.generation test_cases all_rules pop_size population) s
         = Ok (best :: rest)
         ∧ ∀ ind, ind ∈ population → fitness_le test_cases all_rules ind best).
Proof.
  intros Hrules Hpos Hsize Hgens. split.
  - destruct (returns_initial_population test_cases pop_size s)
      as (population0 & s0 & Hinit & Hlen0 & Hgen0).
    destruct generations as [|g]; [lia|].
    destruct (returns_generations_loop_S test_cases all_rules Hrules pop_size g
                population0 Hpos Hsize Hlen0 Hgen0 s0)
      as (population & s1 & Hloop & _ & _ & best & rest & -> & Hdom).
    exists population0, best. split; [|split; [|done]].
    + unfold run. by rewrite Hinit.
    + unfold run, Testcase.genetic_algorithm, mbind, rand_bind.
      by rewrite Hinit, Hloop.
  - intros population Hlen Hgen.
    destruct (returns_generation test_cases all_rules Hrules pop_size
                population Hpos Hsize Hlen Hgen s)
      as (population' & s1 & Hstep & _ & _ & best & rest & -> & _ & Hdom).
    exists best, rest. split; [|done]. unfold run. by rewrite Hstep.
Qed.

(** A run of the sibling on the pool of the two-rule scenario, with the
    default parameters of src/testcase.py. *)
Lemma elitist_optimizer_floor_witness :
  let test_cases :=
    @Testcase.generate_test_cases elements_order (two_rule_policy "subject" "subject") in
  let all_rules : gset string := {["rule-1"; "rule-2"]} in
  let s := replay [1; 0; 1; 1; 5; 7; 2; 3; 4; 5; 6; 3; 4; 2; 3]%nat 7 in
  (∃ population0 best,
     run (Testcase.initial_population test_cases Testcase.default_pop_size) s
     = Ok population0
     ∧ run (Testcase.genetic_algorithm test_cases all_rules
              Testcase.default_pop_size Testcase.default_generations) s
       = Ok best
     ∧ ∀ ind, ind ∈ population0 → fitness_le test_cases all_rules ind best)
  ∧ (∀ population,
       length population = Testcase.default_pop_size →
       genomes test_cases population →
       ∃ best rest,
         run (Testcase.generation test_cases all_rules Testcase.default_pop_size
                population) s
         = Ok (best :: rest)
         ∧ ∀ ind, ind ∈ population → fitness_le test_cases all_rules ind best).
Proof.
  intros test_cases all_rules s.
  apply (elitist_optimizer_floor test_cases all_rules Testcase.default_pop_size
           Testcase.default_generations s).
  - intros Heq. apply (f_equal size) in Heq. vm_compute in Heq. discriminate.
  - vm_compute. lia.
  - right. vm_compute. lia.
  - vm_compute. lia.
Defined.

(** With no generation the sibling returns the first individual as drawn,
    since the population is sorted inside the loop only: here 001 of fitness
    -1/15 from an initial population that holds 110 of fitness 2/3. *)
Lemma floor_needs_a_generation :
  let test_cases :=
    @Testcase.generate_test_cases elements_order (two_rule_policy "subject" "subject") in
  let all_rules : gset string := {["rule-1"; "rule-2"]} in
  let s := replay [0; 0; 1; 1; 1; 0]%nat 0 in
  run (Testcase.initial_population test_cases 2) s = Ok [[0; 0; 1]; [1; 1; 0]]%Z
  ∧ run (Testcase.genetic_algorithm test_cases all_rules 2 0) s = Ok [0; 0; 1]%Z
  ∧ ∃ q0 q, Testcase.fitness [1; 1; 0]%Z test_cases all_rules = Ok q0
          ∧ Testcase.fitness [0; 0; 1]%Z test_cases all_rules = Ok q
          ∧ (q < q0)%Qc.
Proof.
  intros test_cases all_rules s.
  split; [vm_compute; reflexivity|]. split; [vm_compute; reflexivity|].
  do 2 eexists. split; [vm_compute; reflexivity|].
  split; [vm_compute; reflexivity|]. reflexivity.
Qed.

(** ** C5: the individual returned *)

(** C5, the code of src/testcase.py at a failing input: with the default
    parameters, on the pool of the two-rule scenario and the draws
    [late_improvement_draws], the run returns the first individual of the
    final population, 111 of fitness 3/5, while the final population holds
    110 of fitness 2/3. *)
Theorem returned_individual_not_fittest :
  let test_cases :=
    @Testcase.generate_test_cases elements_order (two_rule_policy "subject" "subject") in
  let all_rules : gset string := {["rule-1"; "rule-2"]} in
  ∃ final q q',
    run (final_population test_cases all_rules Testcase.default_pop_size
           Testcase.default_generations) late_improvement_draws = Ok final
    ∧ run (Testcase.genetic_algorithm test_cases all_rules Testcase.default_pop_size
             Testcase.default_generations) late_improvement_draws = Ok [1; 1; 1]%Z
    ∧ final !! 0%nat = Some [1; 1; 1]%Z
    ∧ final !! 2%nat = Some [1; 1; 0]%Z
    ∧ Testcase.fitness [1; 1; 1]%Z test_cases all_rules = Ok q
    ∧ Testcase.fitness [1; 1; 0]%Z test_cases all_rules = Ok q'
    ∧ (q < q')%Qc.
Proof.
  intros test_cases all_rules. do 3 eexists.
  split; [vm_compute; reflexivity|]. split; [vm_compute; reflexivity|].
  split; [reflexivity|]. split; [reflexivity|].
  split; [vm_compute; reflexivity|]. split; [vm_compute; reflexivity|].
  reflexivity.
Qed.

(** The optimizer of xacml_testcase_ga.py ends with [select_best] on the
    final population, which returns the first individual of greatest
    fitness. *)
Lemma select_best_first_max (population : list (list Z))
    (test_cases : list TestcaseGa.TestCase) (all_rules : gset string)
    (best : list Z) :
  TestcaseGa.select_best population test_cases all_rules = Ok best →
  ∃ l1 l2 q,
    population = l1 ++ best :: l2
    ∧ TestcaseGa.fitness best test_cases all_rules = Ok q
    ∧ (∀ ind, ind ∈ l1 →
         ∃ q', TestcaseGa.fitness ind test_cases all_rules = Ok q' ∧ (q' < q)%Qc)
    ∧ (∀ ind, ind ∈ l2 →
         ∃ q', TestcaseGa.fitness ind test_cases all_rules = Ok q' ∧ (q' ≤ q)%Qc).
Proof.
  unfold TestcaseGa.select_best.
  destruct (result_map _ population) as [keys|e] eqn:Hkeys; simpl; [|done].
  apply result_map_inv in Hkeys.
  destruct (zip_keys_lookup _ _ _ Hkeys) as [Hzip _].
  pose proof (Forall2_length _ _ _ Hkeys) as Hlen.
  destruct (zip keys population) as [|first rest] eqn:Hz; [done|].
  intros [= <-].
  destruct (max_from_first_max first rest) as (l1 & l2 & Heq & Hl1 & Hl2).
  set (b := max_from first rest) in *.
  assert (Hin : ∀ y, y ∈ l1 ++ b :: l2 →
                 TestcaseGa.fitness y.2 test_cases all_rules = Ok y.1).
  { intros [k x] Hy. rewrite <-Heq in Hy. by destruct (Hzip _ _ Hy). }
  exists l1.*2, l2.*2, b.1. split; [|split; [|split]].
  - rewrite <-(snd_zip keys population) by lia.
    by rewrite Hz, Heq, fmap_app, fmap_cons.
  - apply Hin, elem_of_app. right. left.
  - intros ind ([k x] & -> & Hy)%list_elem_of_fmap. exists k. split.
    + apply (Hin (k, x)), elem_of_app. by left.
    + by apply (Hl1 (k, x)).
  - intros ind ([k x] & -> & Hy)%list_elem_of_fmap. exists k. split.
    + apply (Hin (k, x)), elem_of_app. right. by right.
    + by apply (Hl2 (k, x)).
Qed.

Lemma sibling_returns_first_max (test_cases : list TestcaseGa.TestCase)
    (all_rules : gset string) (pop_size generations : nat) (s s' : rng)
    (final : list (list Z)) (winner : list Z) :
  (population ← TestcaseGa.initial_population test_cases pop_size;
   TestcaseGa.generations_loop test_cases all_rules pop_size generations population) s
  = Ok (final, s') →
  run (TestcaseGa.genetic_algorithm test_cases all_rules pop_size generations) s
  = Ok winner →
  ∃ l1 l2 q,
    final = l1 ++ winner :: l2
    ∧ TestcaseGa.fitness winner test_cases all_rules = Ok q
    ∧ (∀ ind, ind ∈ l1 →
         ∃ q', TestcaseGa.fitness ind test_cases all_rules = Ok q' ∧ (q' < q)%Qc)
    ∧ (∀ ind, ind ∈ l2 →
         ∃ q', TestcaseGa.fitness ind test_cases all_rules = Ok q' ∧ (q' ≤ q)%Qc).
Proof.
  unfold run, TestcaseGa.genetic_algorithm, mbind, rand_bind.
  destruct (TestcaseGa.initial_population test_cases pop_size s)
    as [[population0 s0]|e]; [|done].
  intros ->. unfold lift.
  destruct (TestcaseGa.select_best final test_cases all_rules) as [w|e] eqn:Hsel;
    [|done].
  intros [= <-]. by apply select_best_first_max.
Qed.

(** * Further properties of the code *)

(** ** The fitness function of src/testcase.py *)

Section fitness_facts.
Import Testcase.
Local Open Scope Qc_scope.

Lemma selected_cases_zeros (k : nat) (test_cases : list TestCase) :
  selected_cases (replicate k 0%Z) test_cases = [].
Proof.
  unfold selected_cases. revert test_cases.
  induction k as [|k IH]; intros [|tc tcs]; simpl; try done.
  rewrite filter_cons_False by (simpl; lia). apply IH.
Qed.

Lemma selected_cases_length (individual : list Z) (test_cases : list TestCase) :
  (length (selected_cases individual test_cases) ≤ length test_cases)%nat.
Proof.
  unfold selected_cases. rewrite length_fmap.
  etrans; [apply length_filter|]. rewrite length_zip. lia.
Qed.

Lemma alpha_nonneg : 0 ≤ alpha.
Proof. by vm_compute. Qed.

Lemma beta_nonneg : 0 ≤ beta.
Proof. by vm_compute. Qed.

Lemma weighted_difference_bounds (cov pen : Qc) :
  0 ≤ cov → cov ≤ 1 → 0 ≤ pen → pen ≤ 1 →
  - beta ≤ alpha * cov - beta * pen ∧ alpha * cov - beta * pen ≤ alpha.
Proof.
  intros Hc0 Hc1 Hp0 Hp1.
  assert (Ha : 0 ≤ alpha * cov).
  { rewrite <-(Qcmult_0_r alpha). apply Qcmult_le_mono_nonneg_l; [apply alpha_nonneg|done]. }
  assert (Ha' : alpha * cov ≤ alpha).
  { rewrite <-(Qcmult_1_r alpha) at 2.
    apply Qcmult_le_mono_nonneg_l; [apply alpha_nonneg|done]. }
  assert (Hb : 0 ≤ beta * pen).
  { rewrite <-(Qcmult_0_r beta). apply Qcmult_le_mono_nonneg_l; [apply beta_nonneg|done]. }
  assert (Hb' : beta * pen ≤ beta).
  { rewrite <-(Qcmult_1_r beta) at 2.
    apply Qcmult_le_mono_nonneg_l; [apply beta_nonneg|done]. }
  unfold Qcminus. split.
  - rewrite <-(Qcplus_0_l (- beta)). apply Qcplus_le_compat; [done|].
    by apply Qcopp_le_compat.
  - rewrite <-(Qcplus_0_r alpha) at 2. apply Qcplus_le_compat; [done|].
    apply Qcopp_le_compat in Hb. exact Hb.
Qed.

(** X1: a genome of zeros selects no test case, and its fitness is 0 for
    every pool and every set of rule identifiers, the empty one included: no
    division takes place. *)
Theorem fitness_zero_genome (k : nat) (test_cases : list TestCase)
    (all_rules : gset string) :
  fitness (replicate k 0%Z) test_cases all_rules = Ok 0.
Proof. unfold fitness. by rewrite selected_cases_zeros. Qed.

(** X2: [fitness] raises exactly when the set of rule identifiers is empty
    and the genome selects at least one test case, and then it raises
    ZeroDivisionError; in every other case it returns. *)
Theorem fitness_raises_iff (individual : list Z) (test_cases : list TestCase)
    (all_rules : gset string) (e : exn) :
  fitness individual test_cases all_rules = Raise e
  ↔ e = ZeroDivisionError ∧ all_rules = ∅
    ∧ selected_cases individual test_cases ≠ [].
Proof.
  unfold fitness. cbv zeta.
  destruct (selected_cases individual test_cases) as [|tc tcs] eqn:Hsel.
  { split; [done|]. by intros (_ & _ & ?). }
  assert (Hn : length test_cases ≠ 0%nat).
  { pose proof (selected_cases_length individual test_cases) as Hlen.
    rewrite Hsel in Hlen. simpl in Hlen. lia. }
  unfold rule_coverage.
  destruct (decide (all_rules = ∅)) as [->|Hne].
  - rewrite size_empty, py_div_zero. simpl. split; [by intros [= <-]|].
    by intros (-> & _ & _).
  - rewrite (py_div_ok _ (size all_rules)) by by apply size_nonempty.
    simpl. rewrite py_div_ok by done. simpl. split; [done|]. by intros (_ & ? & _).
Qed.

(** X3: when the set of rule identifiers is not empty and the covers sets of
    the pool lie within it, the fitness of every genome is between -0.2 and
    0.8. *)
Theorem fitness_bounds (individual : list Z) (test_cases : list TestCase)
    (all_rules : gset string) :
  all_rules ≠ ∅ →
  (∀ tc, tc ∈ test_cases → covers tc ⊆ all_rules) →
  ∃ q, fitness individual test_cases all_rules = Ok q ∧ - beta ≤ q ∧ q ≤ alpha.
Proof.
  intros Hne Hsub. unfold fitness. cbv zeta.
  destruct (selected_cases individual test_cases) as [|tc tcs] eqn:Hsel.
  { exists 0. split; [done|]. split; by vm_compute. }
  pose proof (selected_cases_length individual test_cases) as Hlen.
  assert (Hn : length test_cases ≠ 0%nat).
  { rewrite Hsel in Hlen. simpl in Hlen. lia. }
  cbv beta match. rewrite <-Hsel.
  unfold rule_coverage. rewrite foldl_union.
  rewrite (py_div_ok _ (size all_rules)) by by apply size_nonempty.
  rewrite py_div_ok by done.
  eexists. split; [reflexivity|].
  apply weighted_difference_bounds.
  - apply ratio_nonneg.
  - apply ratio_le_1; [|by apply size_nonempty].
    apply subseteq_size, union_list_fmap_bound. intros tc' Htc'.
    apply Hsub. by eapply selected_cases_subseteq.
  - apply ratio_nonneg.
  - by apply ratio_le_1.
Qed.

(** A run of X3 on the pool of the two-rule scenario. *)
Lemma fitness_bounds_witness :
  ∃ q, fitness [1; 0; 1]%Z
         (@generate_test_cases elements_order (two_rule_policy "subject" "subject"))
         {["rule-1"; "rule-2"]} = Ok q
     ∧ - beta ≤ q ∧ q ≤ alpha.
Proof.
  apply (fitness_bounds [1; 0; 1]%Z
           (@generate_test_cases elements_order (two_rule_policy "subject" "subject"))
           {["rule-1"; "rule-2"]}).
  - intros Heq. apply (f_equal size) in Heq. vm_compute in Heq. discriminate.
  - apply Forall_forall. apply (bool_decide_unpack _). by vm_compute.
Defined.
End fitness_facts.

(** ** Keys of dictionaries *)

Section dict_keys_facts.
Context {V : Type}.
Implicit Types (d : dict V) (k : string) (v : V).

Lemma dict_get_None_keys d k : dict_get d k = None ↔ k ∉ dict_keys d.
Proof.
  rewrite dict_keys_get. split.
  - intros Hk [v Hv]. congruence.
  - intros Hk. destruct (dict_get d k) eqn:Hd; [|done]. destruct Hk. by eexists.
Qed.

Lemma dict_keys_update (f : V → V) d k : dict_keys (dict_update f d k) = dict_keys d.
Proof.
  unfold dict_keys. induction d as [|[k' v'] d IH]; simpl; [done|].
  case_decide; simpl; [done|]. f_equal. apply IH.
Qed.

Lemma dict_keys_update_all (f : V → V) (ks : list string) d :
  dict_keys (foldl (dict_update f) d ks) = dict_keys d.
Proof.
  revert d. induction ks as [|k ks IH]; intros d; cbn [foldl]; [done|].
  rewrite IH. apply dict_keys_update.
Qed.

Lemma dict_keys_setdefault d k v :
  dict_keys (dict_setdefault d k v)
  = if decide (k ∈ dict_keys d) then dict_keys d else dict_keys d ++ [k].
Proof.
  unfold dict_setdefault. destruct (dict_get d k) as [x|] eqn:Hk.
  - rewrite decide_True; [done|]. apply dict_keys_get. by eexists.
  - rewrite decide_False by by apply dict_get_None_keys.
    unfold dict_keys. by rewrite fmap_app.
Qed.

(** Writing at a key that is absent appends the entry. *)
Lemma dict_set_fresh d k v : k ∉ dict_keys d → dict_set d k v = d ++ [(k, v)].
Proof.
  unfold dict_keys. induction d as [|[k' v'] d IH]; simpl; [done|].
  intros Hk. apply not_elem_of_cons in Hk as [Hne Hk].
  rewrite decide_False by done. by rewrite IH.
Qed.

Lemma dict_get_fmap_keys {A} (g : A → V) (l : list (string * A)) k :
  dict_get (prod_map id g <$> l) k = g <$> dict_get l k.
Proof.
  induction l as [|[k' x] l IH]; simpl; [done|].
  by case_decide.
Qed.
End dict_keys_facts.

(** ** The Cartesian product *)

Lemma elem_of_product {A} (c : list A) (value_sets : list (list A)) :
  c ∈ product value_sets ↔ Forall2 (λ x xs, x ∈ xs) c value_sets.
Proof.
  revert c. induction value_sets as [|xs rest IH]; intros c; simpl.
  - rewrite list_elem_of_singleton. split; [intros ->; constructor|].
    by intros ->%Forall2_nil_inv_r.
  - rewrite list_elem_of_bind. split.
    + intros (x & (c' & -> & Hc')%list_elem_of_fmap & Hx).
      constructor; [done|]. by apply IH.
    + intros (x & c' & Hx & Hc' & ->)%Forall2_cons_inv_r.
      exists x. split; [|done]. apply list_elem_of_fmap. exists c'.
      split; [done|]. by apply IH.
Qed.

Lemma length_bind_const {A B} (f : A → list B) (xs : list A) (m : nat) :
  (∀ x, length (f x) = m) → length (xs ≫= f) = (length xs * m)%nat.
Proof.
  intros Hf. induction xs as [|x xs IH]; [done|].
  rewrite bind_cons, length_app, IH, Hf. simpl. lia.
Qed.

Lemma length_product {A} (value_sets : list (list A)) :
  length (product value_sets)
  = foldr (λ xs acc, (length xs * acc)%nat) 1%nat value_sets.
Proof.
  induction value_sets as [|xs rest IH]; [done|].
  cbn [product foldr]. rewrite <-IH.
  apply length_bind_const. intros x. apply length_fmap.
Qed.

(** ** Attributes of the domain mapping *)

(** The elements of a list in the order of their first occurrence. *)
Definition add_new (acc : list string) (a : string) : list string :=
  if decide (a ∈ acc) then acc else acc ++ [a].

Definition first_occurrences (l : list string) : list string :=
  foldl add_new [] l.

(** The attribute of a condition tuple. *)
Definition condition_attr (c : Testcase.condition) : string := c.1.1.

Lemma add_new_fold_NoDup (acc l : list string) :
  NoDup acc → NoDup (foldl add_new acc l).
Proof.
  revert acc. induction l as [|a l IH]; intros acc Hacc; simpl; [done|].
  apply IH. unfold add_new. case_decide; [done|].
  apply NoDup_app. split; [done|]. split; [|apply NoDup_singleton].
  intros x Hx ->%list_elem_of_singleton. done.
Qed.

Lemma add_new_fold_elem (acc l : list string) (a : string) :
  a ∈ foldl add_new acc l ↔ a ∈ acc ∨ a ∈ l.
Proof.
  revert acc. induction l as [|b l IH]; intros acc; simpl.
  - rewrite elem_of_nil. naive_solver.
  - rewrite IH, elem_of_cons. unfold add_new. case_decide as Hb.
    + split; [naive_solver|]. intros [?|[->|?]]; auto.
    + rewrite elem_of_app, list_elem_of_singleton. naive_solver.
Qed.

Section domain_keys.
Import Testcase.

Lemma register_conditions_keys conds D :
  dict_keys (foldl register_condition D conds)
  = foldl add_new (dict_keys D) (condition_attr <$> conds).
Proof.
  revert D. induction conds as [|[[a c] v] conds IH]; intros D; [done|].
  cbn [foldl fmap list_fmap]. rewrite IH. f_equal.
  cbn [register_condition]. rewrite dict_keys_update, dict_keys_setdefault.
  done.
Qed.

Lemma register_rules_flat rules D :
  foldl register_rule D rules = foldl register_condition D (all_conditions rules).
Proof.
  revert D. induction rules as [|r rules IH]; intros D; [done|].
  cbn [foldl]. rewrite IH. unfold all_conditions. simpl.
  by rewrite foldl_app.
Qed.

Lemma build_attribute_domains_keys_eq rules :
  dict_keys (build_attribute_domains rules)
  = first_occurrences (condition_attr <$> all_conditions rules).
Proof.
  unfold build_attribute_domains. cbv zeta.
  rewrite dict_keys_update_all, register_rules_flat, register_conditions_keys.
  done.
Qed.

Lemma build_attribute_domains_NoDup rules :
  NoDup (dict_keys (build_attribute_domains rules)).
Proof.
  rewrite build_attribute_domains_keys_eq. apply add_new_fold_NoDup, NoDup_nil_2.
Qed.

Lemma build_attribute_domains_key rules a :
  a ∈ dict_keys (build_attribute_domains rules)
  ↔ ∃ rule c v, rule ∈ rules ∧ (a, c, v) ∈ conditions rule.
Proof.
  rewrite build_attribute_domains_keys_eq. unfold first_occurrences.
  rewrite add_new_fold_elem, elem_of_nil, list_elem_of_fmap. split.
  - intros [[]|([[a' c] v] & -> & Hin)].
    apply elem_of_all_conditions in Hin as (rule & Hrule & Hcond).
    by exists rule, c, v.
  - intros (rule & c & v & Hrule & Hcond). right. exists (a, c, v).
    split; [done|]. apply elem_of_all_conditions. by exists rule.
Qed.

(** X4: the keys of the domain mapping are the attributes that occur in the
    conditions of the rules, each once, in the order of their first
    occurrence. *)
Theorem build_attribute_domains_keys (rules : list Rule) :
  dict_keys (build_attribute_domains rules)
  = first_occurrences (condition_attr <$> all_conditions rules)
  ∧ NoDup (dict_keys (build_attribute_domains rules))
  ∧ ∀ a, a ∈ dict_keys (build_attribute_domains rules)
         ↔ ∃ rule c v, rule ∈ rules ∧ (a, c, v) ∈ conditions rule.
Proof.
  split; [apply build_attribute_domains_keys_eq|].
  split; [apply build_attribute_domains_NoDup|].
  apply build_attribute_domains_key.
Qed.
End domain_keys.

(** ** The candidate pool *)

(** The identifiers of a rule list: [{r.id for r in rules}]. *)
Definition rule_ids (rules : list Testcase.Rule) : gset string :=
  list_to_set (Testcase.rule_id <$> rules).

(** No two conditions of the rule demand different values of one
    attribute. *)
Definition consistent (rule : Testcase.Rule) : Prop :=
  ∀ a c1 v1 c2 v2,
    (a, c1, v1) ∈ Testcase.conditions rule →
    (a, c2, v2) ∈ Testcase.conditions rule → v1 = v2.

(** The value a rule demands of attribute [a]: that of its first condition on
    [a], and the sentinel when it has none. *)
Definition demanded (rule : Testcase.Rule) (a : string) : string :=
  default Testcase.UNKNOWN (head (omap (value_on a) (Testcase.conditions rule))).

Lemma fst_zip_sublist {A B} (l : list A) (k : list B) :
  (zip l k).*1 `sublist_of` l.
Proof.
  revert k. induction l as [|x l IH]; intros [|y k]; simpl.
  - done.
  - done.
  - apply sublist_nil_l.
  - apply sublist_skip, IH.
Qed.

Section assignment.
Import Testcase.
Context (domains : dict domain).

Definition bind_attr (p : string * string) : string * (string * string) :=
  (p.1, (p.2, category_of domains p.1)).

Lemma build_assignment_fold acc (l : list (string * string)) :
  NoDup (dict_keys acc ++ l.*1) →
  foldl (λ attributes '(attr, value),
           dict_set attributes attr (value, category_of domains attr)) acc l
  = acc ++ (bind_attr <$> l).
Proof.
  revert acc. induction l as [|[a v] l IH]; intros acc Hnd; simpl.
  - by rewrite app_nil_r.
  - apply NoDup_app in Hnd as (Hacc & Hdisj & Hl).
    apply NoDup_cons in Hl as [Ha Hl].
    rewrite dict_set_fresh by (intros Hin; apply (Hdisj a Hin); left).
    rewrite IH.
    + by rewrite <-app_assoc.
    + unfold dict_keys. rewrite fmap_app. simpl. rewrite <-app_assoc. simpl.
      apply NoDup_app. split; [done|]. split; [|by apply NoDup_cons].
      intros x Hx. apply Hdisj in Hx. done.
Qed.

Lemma build_assignment_zip attrs combination :
  NoDup attrs →
  build_assignment domains attrs combination = bind_attr <$> zip attrs combination.
Proof.
  intros Hnd. unfold build_assignment. rewrite build_assignment_fold; [done|].
  simpl. eapply sublist_NoDup; [exact Hnd|apply fst_zip_sublist].
Qed.
End assignment.

Section covers_facts.
Import Testcase.

Lemma rule_holds_spec attributes rule :
  rule_holds attributes rule = true
  ↔ ∀ a c v, (a, c, v) ∈ conditions rule →
             (default ("", "") (dict_get attributes a)).1 = v.
Proof.
  unfold rule_holds. induction (conditions rule) as [|[[a c] v] conds IH]; simpl.
  - split; [|done]. by intros _ a c v ?%elem_of_nil.
  - rewrite andb_true_iff, IH, bool_decide_eq_true. split.
    + intros [Hhd Htl] a' c' v' [Heq|Hin]%elem_of_cons; [by simplify_eq|].
      by eapply Htl.
    + intros Hall. split; [apply (Hall a c v); left|].
      intros a' c' v' Hin. apply (Hall a' c' v'). by right.
Qed.

Lemma elem_of_covers_fold rules attributes (acc : gset string) id :
  id ∈ foldl (λ covers rule,
                if rule_holds attributes rule then covers ∪ {[rule_id rule]}
                else covers) acc rules
  ↔ id ∈ acc ∨ ∃ rule, rule ∈ rules ∧ rule_id rule = id
                       ∧ rule_holds attributes rule = true.
Proof.
  revert acc. induction rules as [|r rules IH]; intros acc; simpl.
  - split; [by left|]. intros [?|(rule & ?%elem_of_nil & _)]; done.
  - rewrite IH. destruct (rule_holds attributes r) eqn:Hr.
    + rewrite elem_of_union, elem_of_singleton. split.
      * intros [[? | ->]|(rule & Hin & Hid & Hh)]; [by left| |].
        -- right. exists r. split; [left|done].
        -- right. exists rule. split; [by right|done].
      * intros [?|(rule & [-> | Hin]%elem_of_cons & Hid & Hh)].
        -- by left; left.
        -- left; right. done.
        -- right. by exists rule.
    + split.
      * intros [?|(rule & Hin & Hid & Hh)]; [by left|].
        right. exists rule. split; [by right|done].
      * intros [?|(rule & [-> | Hin]%elem_of_cons & Hid & Hh)]; [by left|congruence|].
        right. by exists rule.
Qed.

Lemma elem_of_compute_covers rules attributes id :
  id ∈ compute_covers rules attributes
  ↔ ∃ rule, rule ∈ rules ∧ rule_id rule = id ∧ rule_holds attributes rule = true.
Proof.
  unfold compute_covers. rewrite elem_of_covers_fold, elem_of_empty. naive_solver.
Qed.

Lemma generate_loop_elem rules domains attrs combinations i tc :
  tc ∈ generate_loop rules domains attrs combinations i →
  ∃ combination, combination ∈ combinations
    ∧ attributes tc = build_assignment domains attrs combination
    ∧ covers tc = compute_covers rules (attributes tc).
Proof.
  revert i. induction combinations as [|c cs IH]; intros i; simpl.
  - by intros ?%elem_of_nil.
  - intros [-> | Hin]%elem_of_cons.
    + exists c. split; [left|done].
    + destruct (IH _ Hin) as (c' & Hc' & Hattr & Hcov).
      exists c'. split; [by right|done].
Qed.

Lemma generate_loop_combination rules domains attrs combinations i combination :
  combination ∈ combinations →
  ∃ tc, tc ∈ generate_loop rules domains attrs combinations i
      ∧ attributes tc = build_assignment domains attrs combination
      ∧ covers tc = compute_covers rules (attributes tc).
Proof.
  revert i. induction combinations as [|c cs IH]; intros i; simpl.
  - by intros ?%elem_of_nil.
  - intros [-> | Hin]%elem_of_cons.
    + eexists. split; [left|done].
    + destruct (IH (i + 1)%nat Hin) as (tc & Htc & Hattr & Hcov).
      exists tc. split; [by right|done].
Qed.

Lemma dict_get_bind_attr domains (l : list (string * string)) a :
  dict_get (bind_attr domains <$> l) a
  = (λ v, (v, category_of domains a)) <$> dict_get l a.
Proof.
  induction l as [|[a' v] l IH]; simpl; [done|].
  case_decide; [by subst|done].
Qed.

Lemma dict_keys_bind_attr domains (l : list (string * string)) :
  dict_keys (bind_attr domains <$> l) = l.*1.
Proof.
  unfold dict_keys. rewrite <-list_fmap_compose. by apply list_fmap_ext.
Qed.

Lemma dict_get_zip_fmap (f : string → string) (l : list string) a :
  a ∈ l → dict_get (zip l (f <$> l)) a = Some (f a).
Proof.
  induction l as [|b l IH]; simpl; [by intros ?%elem_of_nil|].
  intros Hin. case_decide; [by subst|].
  apply IH. by apply elem_of_cons in Hin as [?|?].
Qed.

Lemma dict_get_zip_Forall2 (R : string → string → Prop) (comb l : list string) a :
  Forall2 R comb l → a ∈ l →
  ∃ v, dict_get (zip l comb) a = Some v ∧ R v a.
Proof.
  induction 1 as [|v b comb l Hvb Hall IH]; simpl; [by intros ?%elem_of_nil|].
  intros Hin. case_decide as Hb; [subst; by exists v|].
  apply IH. apply elem_of_cons in Hin as [?|?]; [by subst|done].
Qed.
End covers_facts.

Section pool.
Import Testcase.
Context (order : SetOrder) (rules : list Rule).

Local Abbreviation D := (build_attribute_domains rules).
Local Abbreviation value_set_of :=
  (λ a, set_iter a (default ∅ (values <$> dict_get D a))).

(** The value [v] belongs to the domain of attribute [a]. *)
Definition in_domain (v a : string) : Prop :=
  ∃ d, dict_get D a = Some d ∧ v ∈ values d.

Lemma elem_of_value_set v a :
  a ∈ dict_keys D → v ∈ value_set_of a ↔ in_domain v a.
Proof.
  intros [d Hd]%dict_keys_get. simpl. rewrite Hd. simpl.
  rewrite set_iter_perm, elem_of_elements. unfold in_domain. rewrite Hd.
  naive_solver.
Qed.

Lemma Forall2_value_sets (combination l : list string) :
  l ⊆ dict_keys D →
  Forall2 (λ x xs, x ∈ xs) combination (value_set_of <$> l)
  ↔ Forall2 in_domain combination l.
Proof.
  revert combination. induction l as [|a l IH]; intros combination Hsub.
  - simpl. split; intros ->%Forall2_nil_inv_r; constructor.
  - assert (Ha : a ∈ dict_keys D) by (apply Hsub; left).
    assert (Hl : l ⊆ dict_keys D) by (intros x Hx; apply Hsub; by right).
    rewrite fmap_cons. split.
    + intros (v & c' & Hv & Hc' & ->)%Forall2_cons_inv_r.
      constructor; [by apply elem_of_value_set|by apply IH].
    + intros (v & c' & Hv & Hc' & ->)%Forall2_cons_inv_r.
      constructor; [by apply elem_of_value_set|by apply IH].
Qed.

Lemma elem_of_combinations combination :
  combination ∈ product (value_set_of <$> dict_keys D)
  ↔ Forall2 in_domain combination (dict_keys D).
Proof. rewrite elem_of_product. by apply Forall2_value_sets. Qed.

(** What a vector of the pool is made of. *)
Lemma pool_vector tc :
  tc ∈ generate_test_cases rules →
  ∃ combination,
    Forall2 in_domain combination (dict_keys D)
    ∧ attributes tc = bind_attr D <$> zip (dict_keys D) combination
    ∧ covers tc = compute_covers rules (attributes tc).
Proof.
  unfold generate_test_cases. cbv zeta. intros Htc.
  destruct (generate_loop_elem _ _ _ _ _ _ Htc) as (c & Hc & Hattr & Hcov).
  exists c. split; [by apply elem_of_combinations|]. split; [|done].
  rewrite Hattr. apply build_assignment_zip, build_attribute_domains_NoDup.
Qed.

Lemma pool_has combination :
  Forall2 in_domain combination (dict_keys D) →
  ∃ tc, tc ∈ generate_test_cases rules
      ∧ attributes tc = bind_attr D <$> zip (dict_keys D) combination
      ∧ covers tc = compute_covers rules (attributes tc).
Proof.
  intros Hc%elem_of_combinations.
  destruct (generate_loop_combination rules D (dict_keys D) _ 1%nat _ Hc)
    as (tc & Htc & Hattr & Hcov).
  exists tc. split; [done|]. split; [|done].
  rewrite Hattr. apply build_assignment_zip, build_attribute_domains_NoDup.
Qed.

(** The value a vector of the pool gives to an attribute of a rule. *)
Lemma pool_vector_get tc a :
  tc ∈ generate_test_cases rules → a ∈ dict_keys D →
  ∃ v d, dict_get D a = Some d
       ∧ dict_get (attributes tc) a = Some (v, category d)
       ∧ v ∈ values d.
Proof.
  intros (c & Hc & Hattr & _)%pool_vector Ha.
  destruct (dict_get_zip_Forall2 _ _ _ a Hc Ha) as (v & Hv & d & Hd & Hin).
  exists v, d. split; [done|]. split; [|done].
  rewrite Hattr, dict_get_bind_attr, Hv. simpl.
  unfold category_of. by rewrite Hd.
Qed.

Lemma pool_vector_keys tc :
  tc ∈ generate_test_cases rules → dict_keys (attributes tc) = dict_keys D.
Proof.
  intros (c & Hc & Hattr & _)%pool_vector.
  rewrite Hattr, dict_keys_bind_attr. apply fst_zip.
  apply Forall2_length in Hc. lia.
Qed.

Lemma rule_attr_key rule a c v :
  rule ∈ rules → (a, c, v) ∈ conditions rule → a ∈ dict_keys D.
Proof.
  intros Hrule Hcond. apply build_attribute_domains_key. by exists rule, c, v.
Qed.

(** On a vector of the pool the check of a rule never falls back on the
    default of [get]. *)
Lemma pool_rule_holds tc rule :
  tc ∈ generate_test_cases rules → rule ∈ rules →
  rule_holds (attributes tc) rule = true
  ↔ ∀ a c v, (a, c, v) ∈ conditions rule →
             ∃ c', dict_get (attributes tc) a = Some (v, c').
Proof.
  intros Htc Hrule. rewrite rule_holds_spec. split.
  - intros Hall a c v Hcond.
    destruct (pool_vector_get tc a Htc (rule_attr_key _ _ _ _ Hrule Hcond))
      as (v' & d & _ & Hget & _).
    specialize (Hall a c v Hcond). rewrite Hget in Hall. simpl in Hall.
    subst v'. by eexists.
  - intros Hall a c v Hcond. destruct (Hall a c v Hcond) as [c' Hget].
    by rewrite Hget.
Qed.
End pool.

Section pool_properties.
Import Testcase.
Context (order : SetOrder).

Lemma dict_entries_lookup {V B} (g : string → option V → B) (d : dict V) :
  NoDup (dict_keys d) →
  (λ a, g a (dict_get d a)) <$> dict_keys d = (λ p, g p.1 (Some p.2)) <$> d.
Proof.
  unfold dict_keys. induction d as [|[k v] d IH]; intros Hnd; [done|].
  apply NoDup_cons in Hnd as [Hk Hnd]. cbn [fmap list_fmap fst snd].
  f_equal.
  - simpl. by rewrite decide_True.
  - rewrite <-IH by done. apply list_fmap_ext. intros i a Ha.
    simpl. rewrite decide_False; [done|].
    intros ->. apply Hk. by eapply list_elem_of_lookup_2.
Qed.

Lemma length_set_iter a (X : gset string) : length (set_iter a X) = size X.
Proof. by rewrite set_iter_perm. Qed.

Lemma unknown_in_domain rules a :
  a ∈ dict_keys (build_attribute_domains rules) → in_domain rules UNKNOWN a.
Proof.
  intros [d Hd]%dict_keys_get. exists d. split; [done|].
  rewrite build_attribute_domains_get in Hd.
  destruct (first_category _ _); simplify_eq/=. set_solver.
Qed.

Lemma value_sets_sizes (l : dict domain) :
  foldr (λ xs acc, (length xs * acc)%nat) 1%nat
        ((λ p, set_iter p.1 (default ∅ (values <$> Some p.2))) <$> l)
  = foldr (λ p acc, (size (values p.2) * acc)%nat) 1%nat l.
Proof.
  induction l as [|[a d] l IH]; [done|].
  rewrite fmap_cons. cbn [foldr]. rewrite IH. f_equal. apply length_set_iter.
Qed.

(** X5: the pool has as many vectors as the product of the sizes of the
    value sets of the domain mapping, numbered from 1 in the order of
    generation, and it is never empty. *)
Theorem pool_size (rules : list Rule) :
  let pool := generate_test_cases rules in
  length pool
  = foldr (λ p acc, (size (values p.2) * acc)%nat) 1%nat
          (build_attribute_domains rules)
  ∧ tc_id <$> pool = seq 1 (length pool)
  ∧ (1 ≤ length pool)%nat.
Proof.
  intros pool.
  assert (Hlen : length pool
    = length (product ((λ a, set_iter a (default ∅ (values <$>
                dict_get (build_attribute_domains rules) a)))
              <$> dict_keys (build_attribute_domains rules)))).
  { unfold pool, generate_test_cases. cbv zeta. apply generate_loop_length. }
  split; [|split].
  - rewrite Hlen, length_product.
    rewrite (dict_entries_lookup
               (λ a o, set_iter a (default ∅ (values <$> o))))
      by apply build_attribute_domains_NoDup.
    apply value_sets_sizes.
  - unfold pool, generate_test_cases. cbv zeta.
    by rewrite generate_loop_ids, generate_loop_length.
  - destruct (pool_has order rules
                ((λ _, UNKNOWN) <$> dict_keys (build_attribute_domains rules)))
      as (tc & Htc & _).
    { apply Forall2_fmap_l, Forall_Forall2_diag, Forall_forall.
      intros a Ha. by apply unknown_in_domain. }
    fold pool in Htc. destruct pool; [by apply elem_of_nil in Htc|simpl; lia].
Qed.

(** X6: every vector of the pool assigns a value to exactly the attributes of
    the domain mapping, in its order, and the value of an attribute is taken
    from its value set and carries its category. *)
Theorem pool_assignments (rules : list Rule) :
  Forall (λ tc,
            dict_keys (attributes tc) = dict_keys (build_attribute_domains rules)
            ∧ ∀ a d, dict_get (build_attribute_domains rules) a = Some d →
                     ∃ v, dict_get (attributes tc) a = Some (v, category d)
                          ∧ v ∈ values d)
         (generate_test_cases rules).
Proof.
  apply Forall_forall. intros tc Htc. split; [by apply (pool_vector_keys order)|].
  intros a d Hd.
  destruct (pool_vector_get order rules tc a Htc) as (v & d' & Hd' & Hget & Hin).
  { apply dict_keys_get. by eexists. }
  exists v. by simplify_eq.
Qed.

(** X7: the covers set of every vector of the pool holds exactly the
    identifiers of the rules all of whose conditions name the value the
    vector assigns to their attribute. *)
Theorem pool_covers (rules : list Rule) :
  Forall (λ tc,
            ∀ id, id ∈ covers tc
                  ↔ ∃ rule, rule ∈ rules ∧ rule_id rule = id
                      ∧ ∀ a c v, (a, c, v) ∈ conditions rule →
                                 ∃ c', dict_get (attributes tc) a = Some (v, c'))
         (generate_test_cases rules).
Proof.
  apply Forall_forall. intros tc Htc id.
  destruct (pool_vector order rules tc Htc) as (_ & _ & _ & ->).
  rewrite elem_of_compute_covers. split.
  - intros (rule & Hrule & Hid & Hh). exists rule. split; [done|]. split; [done|].
    by apply (pool_rule_holds order rules tc rule).
  - intros (rule & Hrule & Hid & Hh). exists rule. split; [done|]. split; [done|].
    by apply (pool_rule_holds order rules tc rule).
Qed.

(** X8: a rule without conditions is covered by every vector of the pool. *)
Theorem rule_without_conditions_covered (rules : list Rule) (rule : Rule) :
  rule ∈ rules → conditions rule = [] →
  Forall (λ tc, rule_id rule ∈ covers tc) (generate_test_cases rules).
Proof.
  intros Hrule Hnil. apply Forall_forall. intros tc Htc.
  destruct (pool_vector order rules tc Htc) as (_ & _ & _ & ->).
  apply elem_of_compute_covers. exists rule. split; [done|]. split; [done|].
  unfold rule_holds. by rewrite Hnil.
Qed.
End pool_properties.

(** A run of X8: a rule without conditions beside a rule on role. *)
Lemma rule_without_conditions_covered_witness :
  let rule := {| Testcase.rule_id := "rule-0"; Testcase.effect := "Permit";
                 Testcase.conditions := [] |} in
  Forall (λ tc, Testcase.rule_id rule ∈ Testcase.covers tc)
         (@Testcase.generate_test_cases elements_order
            (rule :: two_rule_policy "subject" "subject")).
Proof.
  intros rule.
  apply (rule_without_conditions_covered elements_order
           (rule :: two_rule_policy "subject" "subject") rule).
  - left.
  - reflexivity.
Defined.

Section pool_coverage.
Import Testcase.
Context (order : SetOrder).

Lemma demanded_cases rule a :
  (demanded rule a = UNKNOWN ∧ ∀ c v, (a, c, v) ∉ conditions rule)
  ∨ ∃ c, (a, c, demanded rule a) ∈ conditions rule.
Proof.
  unfold demanded.
  destruct (head (omap (value_on a) (conditions rule))) as [v|] eqn:Hhd; simpl.
  - right. apply head_Some_elem_of, list_elem_of_omap in Hhd
      as ([[a' c] v'] & Hin & Hv).
    unfold value_on in Hv. case_decide; simplify_eq/=. by exists c.
  - left. split; [done|]. intros c v Hin.
    apply head_None in Hhd.
    assert (Hv : v ∈ omap (value_on a) (conditions rule)).
    { apply list_elem_of_omap. exists (a, c, v). split; [done|].
      unfold value_on. simpl. by rewrite decide_True. }
    rewrite Hhd in Hv. by apply elem_of_nil in Hv.
Qed.

Lemma demanded_in_domain rules rule a :
  rule ∈ rules → a ∈ dict_keys (build_attribute_domains rules) →
  in_domain rules (demanded rule a) a.
Proof.
  intros Hrule Ha. destruct (demanded_cases rule a) as [[-> _]|[c Hc]].
  { by apply unknown_in_domain. }
  apply dict_keys_get in Ha as [d Hd]. exists d. split; [done|].
  rewrite build_attribute_domains_get in Hd.
  destruct (first_category _ _); simplify_eq/=.
  apply elem_of_union. left. apply elem_of_condition_values. exists c.
  apply elem_of_all_conditions. by exists rule.
Qed.

(** A rule that holds on some assignment is consistent. *)
Lemma rule_holds_consistent attributes rule :
  rule_holds attributes rule = true → consistent rule.
Proof.
  intros Hh a c1 v1 c2 v2 H1 H2.
  rewrite rule_holds_spec in Hh.
  by rewrite <-(Hh a c1 v1 H1), <-(Hh a c2 v2 H2).
Qed.

(** A consistent rule holds on the vector of its demanded values. *)
Lemma consistent_rule_covered rules rule :
  rule ∈ rules → consistent rule →
  ∃ tc, tc ∈ generate_test_cases rules
      ∧ rule_holds (attributes tc) rule = true
      ∧ rule_id rule ∈ covers tc.
Proof.
  intros Hrule Hcons.
  destruct (pool_has order rules
              (demanded rule <$> dict_keys (build_attribute_domains rules)))
    as (tc & Htc & Hattr & Hcov).
  { apply Forall2_fmap_l, Forall_Forall2_diag, Forall_forall.
    intros a Ha. by apply demanded_in_domain. }
  assert (Hh : rule_holds (attributes tc) rule = true).
  { apply rule_holds_spec. intros a c v Hcond.
    assert (Ha : a ∈ dict_keys (build_attribute_domains rules))
      by by eapply rule_attr_key.
    rewrite Hattr, dict_get_bind_attr, dict_get_zip_fmap by done. simpl.
    destruct (demanded_cases rule a) as [[_ Hno]|[c0 Hc0]].
    - by destruct (Hno c v).
    - by apply (Hcons a c0 _ c v). }
  exists tc. split; [done|]. split; [done|].
  rewrite Hcov. apply elem_of_compute_covers. by exists rule.
Qed.

(** X9: a rule of the policy holds on some vector of the pool exactly when
    no two of its conditions demand different values of one attribute. *)
Theorem rule_coverable_iff_consistent (rules : list Rule) (rule : Rule) :
  rule ∈ rules →
  (∃ tc, tc ∈ generate_test_cases rules ∧ rule_holds (attributes tc) rule = true)
  ↔ consistent rule.
Proof.
  intros Hrule. split.
  - intros (tc & _ & Hh). by eapply rule_holds_consistent.
  - intros Hcons.
    destruct (consistent_rule_covered rules rule Hrule Hcons) as (tc & ? & ? & _).
    by exists tc.
Qed.

Lemma pool_covers_rule_ids rules tc :
  tc ∈ generate_test_cases rules → covers tc ⊆ rule_ids rules.
Proof.
  intros Htc id Hid.
  destruct (pool_vector order rules tc Htc) as (_ & _ & _ & Hcov).
  rewrite Hcov in Hid. apply elem_of_compute_covers in Hid as (rule & Hr & <- & _).
  apply elem_of_list_to_set, list_elem_of_fmap. by exists rule.
Qed.

Lemma rule_ids_nonempty rules : rules ≠ [] → rule_ids rules ≠ ∅.
Proof.
  destruct rules as [|r rules]; [done|]. intros _ Heq.
  assert (Hin : rule_id r ∈ rule_ids (r :: rules)).
  { apply elem_of_list_to_set. left. }
  rewrite Heq in Hin. by apply elem_of_empty in Hin.
Qed.

(** X10: when the policy has a rule and all its rules are consistent, the
    pool covers every rule: its coverage over the rule identifiers of the
    policy is 1. *)
Theorem pool_coverage_full (rules : list Rule) :
  rules ≠ [] → (∀ rule, rule ∈ rules → consistent rule) →
  rule_coverage (generate_test_cases rules) (rule_ids rules) = Ok 1%Qc.
Proof.
  intros Hne Hcons. unfold rule_coverage. rewrite foldl_union.
  assert (Heq : ⋃ (covers <$> generate_test_cases rules) = rule_ids rules).
  { apply set_eq. intros id. split.
    - intros (X & (tc & -> & Htc)%list_elem_of_fmap & Hid)%elem_of_union_list.
      by eapply pool_covers_rule_ids.
    - intros (rule & -> & Hrule)%elem_of_list_to_set%list_elem_of_fmap.
      destruct (consistent_rule_covered rules rule Hrule (Hcons rule Hrule))
        as (tc & Htc & _ & Hid).
      apply elem_of_union_list. exists (covers tc). split; [|done].
      by apply list_elem_of_fmap_2. }
  rewrite Heq.
  pose proof (size_nonempty _ (rule_ids_nonempty rules Hne)) as Hsz.
  rewrite py_div_ok by done. by rewrite ratio_self.
Qed.

(** X11: the first coverage the pipeline of src/testcase.py computes, that
    of the generated pool over the rule identifiers of the policy, is a
    value of [0, 1] for every policy with a rule, and raises
    ZeroDivisionError for the policy without rules. *)
Theorem coverage_before_optimization (rules : list Rule) :
  (rules ≠ [] →
   ∃ q, rule_coverage (generate_test_cases rules) (rule_ids rules) = Ok q
        ∧ (0 ≤ q)%Qc ∧ (q ≤ 1)%Qc)
  ∧ (rules = [] →
     rule_coverage (generate_test_cases rules) (rule_ids rules)
     = Raise ZeroDivisionError).
Proof.
  split.
  - intros Hne. unfold rule_coverage. rewrite foldl_union.
    pose proof (size_nonempty _ (rule_ids_nonempty rules Hne)) as Hsz.
    rewrite py_div_ok by done. eexists. split; [done|].
    split; [apply ratio_nonneg|]. apply ratio_le_1; [|done].
    apply subseteq_size, union_list_fmap_bound. intros tc Htc.
    by apply pool_covers_rule_ids.
  - intros ->. reflexivity.
Qed.
End pool_coverage.

(** Runs of X9 and X10 on the two-rule policy. *)
Lemma two_rule_policy_consistent (rule : Testcase.Rule) :
  rule ∈ two_rule_policy "subject" "subject" → consistent rule.
Proof.
  intros Hrule a c1 v1 c2 v2 H1 H2.
  repeat (apply elem_of_cons in Hrule as [-> | Hrule];
          [apply list_elem_of_singleton in H1, H2; by simplify_eq|]).
  by apply elem_of_nil in Hrule.
Defined.

Lemma rule_coverable_iff_consistent_witness :
  let rule := {| Testcase.rule_id := "rule-1"; Testcase.effect := "Permit";
                 Testcase.conditions := [("role", "subject", "manager")] |} in
  (∃ tc, tc ∈ @Testcase.generate_test_cases elements_order
                (two_rule_policy "subject" "subject")
         ∧ Testcase.rule_holds (Testcase.attributes tc) rule = true)
  ↔ consistent rule.
Proof.
  intros rule.
  apply (rule_coverable_iff_consistent elements_order
           (two_rule_policy "subject" "subject") rule).
  left.
Defined.

Lemma pool_coverage_full_witness :
  Testcase.rule_coverage
    (@Testcase.generate_test_cases elements_order (two_rule_policy "subject" "subject"))
    (rule_ids (two_rule_policy "subject" "subject")) = Ok 1%Qc.
Proof.
  apply (pool_coverage_full elements_order (two_rule_policy "subject" "subject")).
  - discriminate.
  - apply two_rule_policy_consistent.
Defined.

(** ** The genetic operators of xacml_testcase_ga.py *)

(** A bit, and a bit that mutation kept or flipped. *)
Definition is_bit (b : Z) : Prop := b = 0%Z ∨ b = 1%Z.

Definition kept_or_flipped (b b' : Z) : Prop := b' = b ∨ b' = (1 - b)%Z.

(** A genome of [n] bits. *)
Definition bit_genome (n : nat) (ind : list Z) : Prop :=
  length ind = n ∧ Forall is_bit ind.

Lemma kept_or_flipped_bit b b' : is_bit b → kept_or_flipped b b' → is_bit b'.
Proof. unfold is_bit, kept_or_flipped. lia. Qed.

Lemma kept_or_flipped_genome n ind ind' :
  bit_genome n ind → Forall2 kept_or_flipped ind ind' → bit_genome n ind'.
Proof.
  intros [Hlen Hbits] Hall. split; [by rewrite <-(Forall2_length _ _ _ Hall)|].
  clear Hlen. induction Hall as [|b b' ind ind' Hb Hall IH]; [done|].
  apply Forall_cons in Hbits as [Hb0 Hbits].
  constructor; [by eapply kept_or_flipped_bit|by apply IH].
Qed.

Section ga_operators.
Import TestcaseGa.

Lemma returns_crossover (p1 p2 : list Z) :
  (2 ≤ length p1)%nat →
  returns (crossover p1 p2)
          (λ child, ∃ point, (1 ≤ point < length p1)%nat
                             ∧ child = take point p1 ++ drop point p2).
Proof.
  intros Hlen. unfold crossover.
  eapply returns_bind; [apply returns_randint; lia|].
  intros point Hpoint. cbv beta in Hpoint.
  apply returns_ret. exists (Z.to_nat point). split; [lia|done].
Qed.

Lemma returns_mutate (ind : list Z) :
  returns (mutate ind) (λ ind', Forall2 kept_or_flipped ind ind').
Proof.
  unfold mutate. apply returns_rand_map. intros bit _.
  eapply returns_bind; [apply returns_random_lt|].
  intros [|] _; apply returns_ret; [by right|by left].
Qed.

(** X12: on parents of one length, at least 2, [crossover] returns a child of
    that length made of a non-empty proper prefix of the first parent and the
    rest of the second; in particular the child starts as the first parent
    and ends as the second. *)
Theorem crossover_child (p1 p2 : list Z) (s : rng) :
  (2 ≤ length p1)%nat → length p2 = length p1 →
  ∃ child point,
    run (crossover p1 p2) s = Ok child
    ∧ (1 ≤ point < length p1)%nat
    ∧ child = take point p1 ++ drop point p2
    ∧ length child = length p1
    ∧ head child = head p1
    ∧ last child = last p2.
Proof.
  intros Hlen Heq.
  destruct (returns_run _ _ s (returns_crossover p1 p2 Hlen))
    as (child & Hrun & point & Hpoint & ->).
  exists (take point p1 ++ drop point p2), point.
  split; [done|]. split; [done|]. split; [done|]. split; [|split].
  - rewrite length_app, length_take, length_drop. lia.
  - destruct p1 as [|b p1]; [simpl in Hlen; lia|].
    destruct point as [|point]; [lia|]. done.
  - destruct (drop point p2) as [|b rest] eqn:Hdrop.
    { apply (f_equal length) in Hdrop. rewrite length_drop in Hdrop.
      simpl in Hdrop. lia. }
    rewrite last_app_cons, <-Hdrop.
    rewrite <-(take_drop point p2) at 2. rewrite Hdrop, last_app_cons. done.
Qed.

(** X13: the crossover of an individual with itself returns it unchanged,
    whatever the cut point. *)
Theorem crossover_same_parent (p : list Z) (s : rng) :
  (2 ≤ length p)%nat → run (crossover p p) s = Ok p.
Proof.
  intros Hlen.
  destruct (returns_run _ _ s (returns_crossover p p Hlen))
    as (child & Hrun & point & Hpoint & ->).
  by rewrite take_drop in Hrun.
Qed.

(** X14: [mutate] never faults, and every bit of the result is the bit of
    the argument or its complement; so a genome of bits stays a genome of
    bits of the same length. *)
Theorem mutate_bits (ind : list Z) (s : rng) :
  ∃ ind', run (mutate ind) s = Ok ind'
        ∧ Forall2 kept_or_flipped ind ind'
        ∧ (Forall is_bit ind → Forall is_bit ind').
Proof.
  destruct (returns_run _ _ s (returns_mutate ind)) as (ind' & Hrun & Hall).
  exists ind'. split; [done|]. split; [done|]. intros Hbits.
  by apply (kept_or_flipped_genome (length ind) ind ind').
Qed.
End ga_operators.

(** Runs of X12 and X13. *)
Lemma crossover_child_witness :
  ∃ child point,
    run (TestcaseGa.crossover [1; 1; 0]%Z [0; 0; 1]%Z) (replay [] 0) = Ok child
    ∧ (1 ≤ point < length [1; 1; 0]%Z)%nat
    ∧ child = take point [1; 1; 0]%Z ++ drop point [0; 0; 1]%Z
    ∧ length child = length [1; 1; 0]%Z
    ∧ head child = head [1; 1; 0]%Z
    ∧ last child = last [0; 0; 1]%Z.
Proof.
  apply (crossover_child [1; 1; 0]%Z [0; 0; 1]%Z (replay [] 0)).
  - simpl. lia.
  - reflexivity.
Defined.

Lemma crossover_same_parent_witness :
  run (TestcaseGa.crossover [1; 1; 0]%Z [1; 1; 0]%Z) (replay [] 0)
  = Ok [1; 1; 0]%Z.
Proof.
  apply (crossover_same_parent [1; 1; 0]%Z (replay [] 0)). simpl. lia.
Defined.

(** ** The optimizer of xacml_testcase_ga.py *)

Section ga_optimizer.
Import TestcaseGa.
Context (test_cases : list TestCase) (all_rules : gset string).
Context (Hrules : all_rules ≠ ∅).

Local Abbreviation n := (length test_cases).

Lemma ga_selected_cases_length (individual : list Z) :
  (length (selected_cases individual test_cases) ≤ n)%nat.
Proof.
  unfold selected_cases. rewrite length_fmap.
  etrans; [apply length_filter|]. rewrite length_zip. lia.
Qed.

Lemma ga_fitness_total (individual : list Z) :
  ∃ q, fitness individual test_cases all_rules = Ok q.
Proof using Hrules.
  unfold fitness. cbv zeta.
  destruct (selected_cases individual test_cases) as [|tc tcs] eqn:Hsel.
  - by eexists.
  - assert (Hn : n ≠ 0%nat).
    { pose proof (ga_selected_cases_length individual) as Hlen.
      rewrite Hsel in Hlen. simpl in Hlen. lia. }
    unfold rule_coverage.
    rewrite (py_div_ok _ (size all_rules)) by by apply size_nonempty.
    simpl. rewrite py_div_ok by done. simpl. by eexists.
Qed.

Lemma select_best_total (population : list (list Z)) :
  population ≠ [] →
  ∃ best, select_best population test_cases all_rules = Ok best.
Proof using Hrules.
  intros Hne. unfold select_best.
  destruct (result_map_total (λ ind, fitness ind test_cases all_rules) population)
    as (keys & -> & Hall).
  { intros ind _. apply ga_fitness_total. }
  simpl. pose proof (Forall2_length _ _ _ Hall) as Hlen.
  destruct population as [|ind population]; [done|].
  destruct keys as [|k keys]; [done|]. simpl. by eexists.
Qed.

Lemma select_best_member (population : list (list Z)) (best : list Z) :
  select_best population test_cases all_rules = Ok best → best ∈ population.
Proof.
  intros (l1 & l2 & q & -> & _)%select_best_first_max.
  apply elem_of_app. right. left.
Qed.

(** In a generation every child is a mutation of the best individual: both
    parents are the same individual, so the crossover changes nothing. *)
Lemma returns_ga_make_child (population : list (list Z)) :
  population ≠ [] → (2 ≤ n)%nat → Forall (bit_genome n) population →
  returns (make_child population test_cases all_rules)
          (λ child, ∃ best, select_best population test_cases all_rules = Ok best
                            ∧ Forall2 kept_or_flipped best child
                            ∧ bit_genome n child).
Proof using Hrules.
  intros Hne Hn Hgen. unfold make_child.
  destruct (select_best_total population Hne) as [best Hbest].
  assert (Hb : bit_genome n best).
  { eapply (proj1 (Forall_forall _ _) Hgen). by eapply select_best_member. }
  eapply (returns_bind _ _ (λ p1, p1 = best)); [by eapply returns_lift|].
  intros ? ->.
  eapply (returns_bind _ _ (λ p2, p2 = best)); [by eapply returns_lift|].
  intros ? ->.
  eapply (returns_bind _ _ (λ child, child = best)).
  { eapply returns_mono; [apply returns_crossover; destruct Hb; lia|].
    intros child (point & _ & ->). apply take_drop. }
  intros ? ->. eapply returns_mono; [apply returns_mutate|].
  intros child Hall. exists best. split; [done|]. split; [done|].
  by eapply kept_or_flipped_genome.
Qed.

Lemma returns_ga_generation (pop_size : nat) (population : list (list Z)) :
  population ≠ [] → (2 ≤ n)%nat → Forall (bit_genome n) population →
  returns (generation test_cases all_rules pop_size population)
          (λ population',
             length population' = pop_size
             ∧ Forall (bit_genome n) population'
             ∧ ∃ best, select_best population test_cases all_rules = Ok best
                       ∧ Forall (Forall2 kept_or_flipped best) population').
Proof using Hrules.
  intros Hne Hn Hgen. unfold generation.
  destruct (select_best_total population Hne) as [best Hbest].
  eapply returns_mono.
  { apply returns_rand_repeat. by apply returns_ga_make_child. }
  intros population' [Hlen Hall]. split; [done|]. split.
  - eapply Forall_impl; [exact Hall|]. by intros child (_ & _ & _ & ?).
  - exists best. split; [done|].
    eapply Forall_impl; [exact Hall|].
    intros child (best' & Hbest' & Hkf & _).
    assert (best' = best) as -> by congruence. done.
Qed.

Lemma returns_ga_loop (pop_size generations : nat) (population : list (list Z)) :
  (1 ≤ pop_size)%nat → (2 ≤ n)%nat →
  length population = pop_size → Forall (bit_genome n) population →
  returns (generations_loop test_cases all_rules pop_size generations population)
          (λ population', length population' = pop_size
                          ∧ Forall (bit_genome n) population').
Proof using Hrules.
  intros Hpos Hn. revert population.
  induction generations as [|g IH]; intros population Hlen Hgen; simpl.
  - by apply returns_ret.
  - eapply returns_bind.
    { apply returns_ga_generation; [|done|done].
      intros ->. simpl in Hlen. lia. }
    intros population' (Hlen' & Hgen' & _). by apply IH.
Qed.

Lemma returns_ga_initial (pop_size : nat) :
  returns (initial_population test_cases pop_size)
          (λ population, length population = pop_size
                         ∧ Forall (bit_genome n) population).
Proof.
  unfold initial_population. apply returns_rand_repeat.
  unfold random_individual. eapply returns_mono.
  { apply returns_rand_repeat. by apply returns_randint. }
  intros ind [Hlen Hall]. split; [done|].
  eapply Forall_impl; [exact Hall|]. unfold is_bit. simpl. lia.
Qed.

(** X16: with a set of rule identifiers that is not empty, a pool of at
    least two test cases and a population of at least one individual, the
    optimizer returns, for every random sequence and every number of
    generations, a genome of one bit per test case. *)
Theorem ga_returns_bit_genome (pop_size generations : nat) (s : rng) :
  (1 ≤ pop_size)%nat → (2 ≤ n)%nat →
  ∃ best, run (genetic_algorithm test_cases all_rules pop_size generations) s
          = Ok best
          ∧ length best = n ∧ Forall is_bit best.
Proof using Hrules.
  intros Hpos Hn. apply returns_run. unfold genetic_algorithm.
  eapply returns_bind; [apply returns_ga_initial|].
  intros population0 [Hlen0 Hgen0].
  eapply returns_bind; [by apply returns_ga_loop|].
  intros population [Hlen Hgen].
  destruct (select_best_total population) as [best Hbest].
  { intros ->. simpl in Hlen. lia. }
  eapply returns_lift; [done|].
  eapply (proj1 (Forall_forall _ _) Hgen). by eapply select_best_member.
Qed.

End ga_optimizer.

(** A policy of two rules in the rule model of xacml_testcase_ga.py, and the
    three test cases the one-candidate-per-rule generator builds for it. *)
Definition ga_two_rules : list TestcaseGa.Rule :=
  [ {| TestcaseGa.rule_id := "rule-1"; TestcaseGa.effect := "Permit";
       TestcaseGa.conditions :=
         [ {| TestcaseGa.attr := "role"; TestcaseGa.category := "subject";
              TestcaseGa.value := "manager" |} ] |};
    {| TestcaseGa.rule_id := "rule-2"; TestcaseGa.effect := "Deny";
       TestcaseGa.conditions :=
         [ {| TestcaseGa.attr := "role"; TestcaseGa.category := "subject";
              TestcaseGa.value := "guest" |} ] |} ].

Definition ga_pool : list TestcaseGa.TestCase :=
  TestcaseGa.dfs_generate_test_cases ga_two_rules.

Ltac solve_bit_genomes :=
  repeat (apply Forall_cons; split; [split; [reflexivity|]|]);
  repeat first [ apply Forall_nil_2
               | apply Forall_cons; split; [(by left) || (by right)|] ].

Lemma two_rule_ids_nonempty : ({["rule-1"; "rule-2"]} : gset string) ≠ ∅.
Proof.
  intros Heq. apply (f_equal size) in Heq. vm_compute in Heq. discriminate.
Defined.

(** A run of X16 on that pool. *)
Lemma ga_returns_bit_genome_witness :
  ∃ best,
    run (TestcaseGa.genetic_algorithm ga_pool {["rule-1"; "rule-2"]}
           TestcaseGa.default_pop_size TestcaseGa.default_generations)
        (replay [1; 0; 1; 1; 5; 7; 2; 3]%nat 7) = Ok best
    ∧ length best = length ga_pool ∧ Forall is_bit best.
Proof.
  apply (ga_returns_bit_genome ga_pool {["rule-1"; "rule-2"]}
           two_rule_ids_nonempty TestcaseGa.default_pop_size
           TestcaseGa.default_generations (replay [1; 0; 1; 1; 5; 7; 2; 3]%nat 7)).
  - vm_compute. lia.
  - vm_compute. lia.
Defined.

(** ** Selection on floats (xacml_testcase_ga.py)

    The comparisons of binary64 numbers form a strict order that is total on
    numbers; a comparison with a NaN is false. *)

Section binary64_order.
Implicit Types a b c : spec_float.

Ltac order_cases :=
  unfold SFltb, SFleb, SFcompare;
  repeat match goal with
         | x : spec_float |- _ => destruct x as [[]|[]| |[] ? ?]
         end;
  simpl; try done;
  change (PosDef.Pos.compare_cont Eq) with Pos.compare;
  repeat match goal with
         | |- context [(?x ?= ?y)%Z] => destruct (Z.compare_spec x y)
         | |- context [(?x ?= ?y)%positive] => destruct (Pos.compare_spec x y)
         end;
  simpl; try done; try lia.

Lemma SFltb_trans a b c :
  SFltb a b = true → SFltb b c = true → SFltb a c = true.
Proof. order_cases. Qed.

Lemma SFltb_leb_trans a b c :
  SFltb a b = true → SFleb b c = true → SFltb a c = true.
Proof. order_cases. Qed.

Lemma SFltb_not_leb a b : SFltb a b = true → SFleb b a = false.
Proof. order_cases. Qed.

Lemma SFleb_total a b :
  Binary64.is_nan a = false → Binary64.is_nan b = false →
  SFleb b a = false → SFltb a b = true.
Proof. order_cases. Qed.
End binary64_order.

(** Six rule identifiers, of which the pool of [ga_two_rules] covers two. *)
Definition six_rule_ids : gset string :=
  {["rule-1"; "rule-2"; "rule-3"; "rule-4"; "rule-5"; "rule-6"]}.

(** The two weights are the quotients 8/10 and 2/10 rounded once. *)
Lemma float_weights :
  TestcaseGaFloat.alpha = Binary64.div (Binary64.of_nat 8) (Binary64.of_nat 10)
  ∧ TestcaseGaFloat.beta = Binary64.div (Binary64.of_nat 2) (Binary64.of_nat 10).
Proof. split; vm_compute; reflexivity. Qed.

Section float_selection.
Import TestcaseGaFloat.
Context (test_cases : list TestcaseGa.TestCase) (all_rules : gset string).

Local Abbreviation n := (length test_cases).
Local Abbreviation fit := (λ ind, fitness ind test_cases all_rules).

Lemma float_max_from_first_max {A} (first : Binary64.float * A)
    (rest : list (Binary64.float * A)) :
  ∃ l1 l2,
    first :: rest = l1 ++ max_from first rest :: l2
    ∧ (∀ y, y ∈ l1 → Binary64.ge y.1 (max_from first rest).1 = false)
    ∧ (∀ y, y ∈ l2 → Binary64.gt y.1 (max_from first rest).1 = false)
    ∧ (l1 = [] ∨ Binary64.gt (max_from first rest).1 first.1 = true).
Proof.
  revert first. induction rest as [|y rest IH]; intros first; cbn [max_from].
  { exists [], []. split; [done|]. split; [by intros y ?%elem_of_nil|].
    split; [by intros y ?%elem_of_nil|by left]. }
  destruct (Binary64.gt y.1 first.1) eqn:Hgt.
  - destruct (IH y) as (l1 & l2 & Heq & Hl1 & Hl2 & Hhead).
    set (b := max_from y rest) in *.
    assert (Hfirst : SFltb first.1 b.1 = true).
    { destruct Hhead as [-> | Hyb].
      - simpl in Heq. injection Heq as Hb _. by rewrite <-Hb.
      - by eapply SFltb_trans. }
    exists (first :: l1), l2. split; [by rewrite Heq|]. split; [|split; [done|by right]].
    intros z [-> | Hz]%elem_of_cons; [|by apply Hl1].
    by apply SFltb_not_leb.
  - destruct (IH first) as (l1 & l2 & Heq & Hl1 & Hl2 & Hhead).
    set (b := max_from first rest) in *.
    destruct l1 as [|f l1].
    + simpl in Heq. injection Heq as Hb Hrest.
      exists [], (y :: l2). split; [simpl; by rewrite <-Hb, Hrest|].
      split; [by intros z ?%elem_of_nil|]. split; [|by left].
      intros z [-> | Hz]%elem_of_cons; [by rewrite <-Hb|by apply Hl2].
    + destruct Hhead as [? | Hfb]; [done|].
      simpl in Heq. injection Heq as Hf Hrest.
      exists (first :: y :: l1), l2. split; [simpl; by rewrite Hrest|].
      split; [|split; [done|by right]].
      intros z [-> | [-> | Hz]%elem_of_cons]%elem_of_cons.
      * apply Hl1. rewrite Hf. left.
      * unfold Binary64.ge. destruct (SFleb b.1 y.1) eqn:Hle; [|done].
        unfold Binary64.gt in Hgt, Hfb.
        by rewrite (SFltb_leb_trans _ _ _ Hfb Hle) in Hgt.
      * apply Hl1. by right.
Qed.

Lemma float_fitness_total (individual : list Z) :
  all_rules ≠ ∅ → ∃ f, fitness individual test_cases all_rules = Ok f.
Proof.
  intros Hrules. unfold fitness. cbv zeta.
  destruct (TestcaseGa.selected_cases individual test_cases) as [|tc tcs] eqn:Hsel.
  - by eexists.
  - assert (Hn : n ≠ 0%nat).
    { pose proof (ga_selected_cases_length test_cases individual) as Hlen.
      rewrite Hsel in Hlen. simpl in Hlen. lia. }
    unfold rule_coverage, Binary64.py_div.
    destruct (decide (size all_rules = 0%nat)) as [Hz|_];
      [by apply size_nonempty in Hz|].
    simpl. destruct (decide (n = 0%nat)); [done|]. simpl. by eexists.
Qed.

Lemma float_select_best_total (population : list (list Z)) :
  all_rules ≠ ∅ → population ≠ [] →
  ∃ best, select_best population test_cases all_rules = Ok best.
Proof.
  intros Hrules Hne. unfold select_best.
  destruct (result_map_total fit population) as (keys & -> & Hall).
  { intros ind _. by apply float_fitness_total. }
  simpl. pose proof (Forall2_length _ _ _ Hall) as Hlen.
  destruct population as [|ind population]; [done|].
  destruct keys as [|k keys]; [done|]. simpl. by eexists.
Qed.

Lemma float_select_best_first_max (population : list (list Z)) (best : list Z) :
  select_best population test_cases all_rules = Ok best →
  ∃ l1 l2 f,
    population = l1 ++ best :: l2
    ∧ fitness best test_cases all_rules = Ok f
    ∧ (∀ ind, ind ∈ l1 →
         ∃ f', fitness ind test_cases all_rules = Ok f'
               ∧ Binary64.ge f' f = false)
    ∧ (∀ ind, ind ∈ l2 →
         ∃ f', fitness ind test_cases all_rules = Ok f'
               ∧ Binary64.gt f' f = false).
Proof.
  unfold select_best.
  destruct (result_map _ population) as [keys|e] eqn:Hkeys; simpl; [|done].
  apply result_map_inv in Hkeys.
  destruct (zip_keys_lookup _ _ _ Hkeys) as [Hzip _].
  pose proof (Forall2_length _ _ _ Hkeys) as Hlen.
  destruct (zip keys population) as [|first rest] eqn:Hz; [done|].
  intros [= <-].
  destruct (float_max_from_first_max first rest) as (l1 & l2 & Heq & Hl1 & Hl2 & _).
  set (b := max_from first rest) in *.
  assert (Hin : ∀ y, y ∈ l1 ++ b :: l2 →
                 fitness y.2 test_cases all_rules = Ok y.1).
  { intros [k x] Hy. rewrite <-Heq in Hy. by destruct (Hzip _ _ Hy). }
  exists l1.*2, l2.*2, b.1. split; [|split; [|split]].
  - rewrite <-(snd_zip keys population) by lia.
    by rewrite Hz, Heq, fmap_app, fmap_cons.
  - apply Hin, elem_of_app. right. left.
  - intros ind ([k x] & -> & Hy)%list_elem_of_fmap. exists k. split.
    + apply (Hin (k, x)), elem_of_app. by left.
    + by apply (Hl1 (k, x)).
  - intros ind ([k x] & -> & Hy)%list_elem_of_fmap. exists k. split.
    + apply (Hin (k, x)), elem_of_app. right. by right.
    + by apply (Hl2 (k, x)).
Qed.

Lemma float_select_best_member (population : list (list Z)) (best : list Z) :
  select_best population test_cases all_rules = Ok best → best ∈ population.
Proof.
  intros (l1 & l2 & f & -> & _)%float_select_best_first_max.
  apply elem_of_app. right. left.
Qed.

Lemma returns_float_make_child (population : list (list Z)) :
  all_rules ≠ ∅ → population ≠ [] → (2 ≤ n)%nat →
  Forall (bit_genome n) population →
  returns (make_child population test_cases all_rules)
          (λ child, ∃ best, select_best population test_cases all_rules = Ok best
                            ∧ Forall2 kept_or_flipped best child).
Proof.
  intros Hrules Hne Hn Hgen. unfold make_child.
  destruct (float_select_best_total population Hrules Hne) as [best Hbest].
  assert (Hb : bit_genome n best).
  { eapply (proj1 (Forall_forall _ _) Hgen). by eapply float_select_best_member. }
  eapply (returns_bind _ _ (λ p1, p1 = best)); [by eapply returns_lift|].
  intros ? ->.
  eapply (returns_bind _ _ (λ p2, p2 = best)); [by eapply returns_lift|].
  intros ? ->.
  eapply (returns_bind _ _ (λ child, child = best)).
  { eapply returns_mono; [apply returns_crossover; destruct Hb; lia|].
    intros child (point & _ & ->). apply take_drop. }
  intros ? ->. eapply returns_mono; [apply returns_mutate|].
  intros child Hall. by exists best.
Qed.
End float_selection.

(** X15: with a set of rule identifiers that is not empty, [select_best]
    returns, on a population that is not empty, the first individual whose
    fitness, as the float Python computes, is greatest: for no earlier
    individual [ind] does [fitness(ind) >= fitness(best)] hold, which for
    numbers means that [best] is strictly fitter, and for no later one does
    [fitness(ind) > fitness(best)] hold. On the empty population it raises
    ValueError. *)
Theorem select_best_returns_first_max (test_cases : list TestcaseGa.TestCase)
    (all_rules : gset string) (population : list (list Z)) :
  all_rules ≠ ∅ →
  (population ≠ [] →
   ∃ best l1 l2 f,
     TestcaseGaFloat.select_best population test_cases all_rules = Ok best
     ∧ population = l1 ++ best :: l2
     ∧ TestcaseGaFloat.fitness best test_cases all_rules = Ok f
     ∧ (∀ ind, ind ∈ l1 →
          ∃ f', TestcaseGaFloat.fitness ind test_cases all_rules = Ok f'
                ∧ Binary64.ge f' f = false
                ∧ (Binary64.is_nan f = false → Binary64.is_nan f' = false →
                   Binary64.gt f f' = true))
     ∧ (∀ ind, ind ∈ l2 →
          ∃ f', TestcaseGaFloat.fitness ind test_cases all_rules = Ok f'
                ∧ Binary64.gt f' f = false))
  ∧ TestcaseGaFloat.select_best [] test_cases all_rules = Raise ValueError.
Proof.
  intros Hrules. split; [|done]. intros Hne.
  destruct (float_select_best_total test_cases all_rules population Hrules Hne)
    as [best Hbest].
  destruct (float_select_best_first_max _ _ _ _ Hbest)
    as (l1 & l2 & f & Heq & Hf & Hl1 & Hl2).
  exists best, l1, l2, f. split; [done|]. split; [done|]. split; [done|].
  split; [|done]. intros ind Hind. destruct (Hl1 ind Hind) as (f' & Hf' & Hge).
  exists f'. split; [done|]. split; [done|]. intros Hnum Hnum'.
  by apply SFleb_total.
Qed.


(** X17: with a set of rule identifiers that is not empty and a pool of at
    least two test cases, a generation on a population of bit genomes that
    is not empty returns [pop_size] children, and every child is a mutation
    of one individual, the one [select_best] returns on the population: it
    differs from it only in flipped bits. *)
Theorem generation_mutates_best (test_cases : list TestcaseGa.TestCase)
    (all_rules : gset string) (pop_size : nat) (population : list (list Z))
    (s : rng) :
  all_rules ≠ ∅ → population ≠ [] → (2 ≤ length test_cases)%nat →
  Forall (bit_genome (length test_cases)) population →
  ∃ population' best,
    run (TestcaseGaFloat.generation test_cases all_rules pop_size population) s
    = Ok population'
    ∧ TestcaseGaFloat.select_best population test_cases all_rules = Ok best
    ∧ length population' = pop_size
    ∧ Forall (Forall2 kept_or_flipped best) population'.
Proof.
  intros Hrules Hne Hn Hgen.
  destruct (float_select_best_total test_cases all_rules population Hrules Hne)
    as [best Hbest].
  assert (Hret : returns
    (TestcaseGaFloat.generation test_cases all_rules pop_size population)
    (λ population', length population' = pop_size
                    ∧ Forall (Forall2 kept_or_flipped best) population')).
  { unfold TestcaseGaFloat.generation. eapply returns_mono.
    { apply returns_rand_repeat. by apply returns_float_make_child. }
    intros population' [Hlen Hall]. split; [done|].
    eapply Forall_impl; [exact Hall|].
    intros child (best' & Hbest' & Hkf).
    assert (best' = best) as -> by congruence. done. }
  destruct (returns_run _ _ s Hret) as (population' & Hrun & Hlen & Hall).
  by exists population', best.
Qed.


Lemma six_rule_ids_nonempty : six_rule_ids ≠ ∅.
Proof.
  intros Heq. apply (f_equal size) in Heq. vm_compute in Heq. discriminate.
Defined.

(** Runs of X15 and X17. In the first the two individuals have the exact
    fitness 1/15 both, and the floats 0x1.1111111111110p-4 and
    0x1.1111111111111p-4: the second individual is returned. *)
Lemma select_best_returns_first_max_witness :
  TestcaseGaFloat.select_best [[1; 1; 1]; [1; 0; 0]]%Z ga_pool six_rule_ids
  = Ok [1; 0; 0]%Z
  ∧ ((([[1; 1; 1]; [1; 0; 0]]%Z ≠ [] →
      ∃ best l1 l2 f,
        TestcaseGaFloat.select_best [[1; 1; 1]; [1; 0; 0]]%Z ga_pool six_rule_ids
        = Ok best
        ∧ [[1; 1; 1]; [1; 0; 0]]%Z = l1 ++ best :: l2
        ∧ TestcaseGaFloat.fitness best ga_pool six_rule_ids = Ok f
        ∧ (∀ ind, ind ∈ l1 →
             ∃ f', TestcaseGaFloat.fitness ind ga_pool six_rule_ids = Ok f'
                   ∧ Binary64.ge f' f = false
                   ∧ (Binary64.is_nan f = false → Binary64.is_nan f' = false →
                      Binary64.gt f f' = true))
        ∧ (∀ ind, ind ∈ l2 →
             ∃ f', TestcaseGaFloat.fitness ind ga_pool six_rule_ids = Ok f'
                   ∧ Binary64.gt f' f = false))
     ∧ TestcaseGaFloat.select_best [] ga_pool six_rule_ids = Raise ValueError)).
Proof.
  split; [vm_compute; reflexivity|].
  apply (select_best_returns_first_max ga_pool six_rule_ids
           [[1; 1; 1]; [1; 0; 0]]%Z six_rule_ids_nonempty).
Defined.

Lemma generation_mutates_best_witness :
  ∃ population' best,
    run (TestcaseGaFloat.generation ga_pool {["rule-1"; "rule-2"]} 4
           [[0; 0; 1]; [1; 1; 0]]%Z) (replay [3; 0; 40; 7]%nat 50) = Ok population'
    ∧ TestcaseGaFloat.select_best [[0; 0; 1]; [1; 1; 0]]%Z ga_pool
        {["rule-1"; "rule-2"]} = Ok best
    ∧ length population' = 4%nat
    ∧ Forall (Forall2 kept_or_flipped best) population'.
Proof.
  apply (generation_mutates_best ga_pool {["rule-1"; "rule-2"]} 4
           [[0; 0; 1]; [1; 1; 0]]%Z (replay [3; 0; 40; 7]%nat 50)).
  - apply two_rule_ids_nonempty.
  - discriminate.
  - vm_compute. lia.
  - solve_bit_genomes.
Defined.

(** The same population under exact arithmetic: the two values are equal
    and the first individual is the one selected. *)
Lemma rounding_breaks_exact_tie :
  (∃ q, TestcaseGa.fitness [1; 1; 1]%Z ga_pool six_rule_ids = Ok q
        ∧ TestcaseGa.fitness [1; 0; 0]%Z ga_pool six_rule_ids = Ok q)
  ∧ TestcaseGa.select_best [[1; 1; 1]; [1; 0; 0]]%Z ga_pool six_rule_ids
    = Ok [1; 1; 1]%Z
  ∧ TestcaseGaFloat.fitness [1; 1; 1]%Z ga_pool six_rule_ids
    = Ok (S754_finite false 0x11111111111110 (-56))
  ∧ TestcaseGaFloat.fitness [1; 0; 0]%Z ga_pool six_rule_ids
    = Ok (S754_finite false 0x11111111111111 (-56))
  ∧ TestcaseGaFloat.select_best [[1; 1; 1]; [1; 0; 0]]%Z ga_pool six_rule_ids
    = Ok [1; 0; 0]%Z.
Proof.
  split; [|split; [|split; [|split]]]; try (vm_compute; reflexivity).
  exists (Q2Qc (1 # 15)). split; vm_compute; f_equal; by apply Qc_is_canon.
Qed.

(** ** An empty population *)

Lemma ga_loop_nil (test_cases : list TestcaseGa.TestCase) (all_rules : gset string)
    (generations : nat) (s : rng) :
  TestcaseGa.generations_loop test_cases all_rules 0 generations [] s = Ok ([], s).
Proof. induction generations as [|g IH]; [done|]. simpl. apply IH. Qed.

Lemma testcase_loop_nil (test_cases : list Testcase.TestCase)
    (all_rules : gset string) (generations : nat) (s : rng) :
  Testcase.generations_loop test_cases all_rules 0 generations [] s = Ok ([], s).
Proof. induction generations as [|g IH]; [done|]. simpl. apply IH. Qed.

(** X18: with [pop_size = 0] both optimizers fault when they pick the
    individual to return, for every pool, every set of rule identifiers,
    every number of generations and every random sequence: the one of
    src/testcase.py raises IndexError at [population[0]], the one of
    xacml_testcase_ga.py raises ValueError at [max] of an empty population. *)
Theorem empty_population_faults (generations : nat) (all_rules : gset string)
    (s : rng) (test_cases : list Testcase.TestCase)
    (ga_test_cases : list TestcaseGa.TestCase) :
  run (Testcase.genetic_algorithm test_cases all_rules 0 generations) s
  = Raise IndexError
  ∧ run (TestcaseGa.genetic_algorithm ga_test_cases all_rules 0 generations) s
    = Raise ValueError.
Proof.
  split.
  - unfold run, Testcase.genetic_algorithm, mbind, rand_bind.
    cbn [Testcase.initial_population rand_repeat mret rand_ret].
    by rewrite testcase_loop_nil.
  - unfold run, TestcaseGa.genetic_algorithm, mbind, rand_bind.
    cbn [TestcaseGa.initial_population rand_repeat mret rand_ret].
    by rewrite ga_loop_nil.
Qed.

(** ** Coverage of the one-candidate-per-rule pool *)

(** The identifiers of a rule list of xacml_testcase_ga.py:
    [{r["rule_id"] for r in rules}]. *)
Definition ga_rule_ids (rules : list TestcaseGa.Rule) : gset string :=
  list_to_set (TestcaseGa.rule_id <$> rules).

Lemma dfs_pool_covered (rules : list TestcaseGa.Rule) :
  ⋃ (TestcaseGa.covers <$> TestcaseGa.dfs_generate_test_cases rules)
  = ga_rule_ids rules.
Proof.
  unfold TestcaseGa.dfs_generate_test_cases. rewrite dfs_loop_imap.
  rewrite fmap_app, union_list_app_L. simpl.
  rewrite fmap_imap.
  assert (Himap : ∀ first,
    ⋃ imap (λ i, TestcaseGa.covers ∘ dfs_case first i) rules
    = list_to_set (TestcaseGa.rule_id <$> rules)).
  { induction rules as [|r rules IH]; intros first; [done|].
    rewrite imap_cons, fmap_cons, union_list_cons, list_to_set_cons.
    f_equal. rewrite <-(IH (S first)). done. }
  unfold ga_rule_ids.
  rewrite Himap. set_solver.
Qed.

(** X19: the coverage the pipeline of xacml_testcase_ga.py computes before
    the optimization is 1 for every policy with a rule, whether the test
    cases satisfy their rules or not, since every test case is labelled with
    the rule it was built from; for the policy without rules it raises
    ZeroDivisionError. *)
Theorem dfs_pool_coverage (rules : list TestcaseGa.Rule) :
  (rules ≠ [] →
   TestcaseGa.rule_coverage (TestcaseGa.dfs_generate_test_cases rules)
     (ga_rule_ids rules) = Ok 1%Qc)
  ∧ (rules = [] →
     TestcaseGa.rule_coverage (TestcaseGa.dfs_generate_test_cases rules)
       (ga_rule_ids rules) = Raise ZeroDivisionError).
Proof.
  split.
  - intros Hne. unfold TestcaseGa.rule_coverage.
    rewrite foldl_union, dfs_pool_covered.
    assert (Hsz : size (ga_rule_ids rules) ≠ 0%nat).
    { apply size_nonempty. destruct rules as [|r rules]; [done|].
      unfold ga_rule_ids. rewrite fmap_cons. simpl. set_solver. }
    rewrite py_div_ok by done. by rewrite ratio_self.
  - intros ->. reflexivity.
Qed.

(** ** What a random computation returns when it returns *)

(** [ensures m P]: every value [m] returns satisfies [P]. *)
Definition ensures {A} (m : rand A) (P : A → Prop) : Prop :=
  ∀ s a s', m s = Ok (a, s') → P a.

Section ensures.
Context {A B : Type}.

Lemma ensures_ret (a : A) (P : A → Prop) : P a → ensures (mret a) P.
Proof. intros Ha s a' s' [= <- _]. done. Qed.

Lemma ensures_bind (m : rand A) (f : A → rand B) (P : A → Prop) (Q : B → Prop) :
  ensures m P → (∀ a, P a → ensures (f a) Q) → ensures (m ≫= f) Q.
Proof.
  intros Hm Hf s b s'. unfold mbind, rand_bind.
  destruct (m s) as [[a s0]|e] eqn:Hms; [|done].
  intros Hfs. eapply Hf; [|exact Hfs]. by eapply Hm.
Qed.

Lemma ensures_mono (m : rand A) (P Q : A → Prop) :
  ensures m P → (∀ a, P a → Q a) → ensures m Q.
Proof. intros Hm HPQ s a s' Hms. eapply HPQ, Hm, Hms. Qed.

Lemma ensures_returns (m : rand A) (P Q : A → Prop) :
  returns m P → ensures m Q → returns m (λ a, P a ∧ Q a).
Proof.
  intros Hr He s. destruct (Hr s) as (a & s' & Hms & Ha).
  exists a, s'. split; [done|]. split; [done|]. by eapply He.
Qed.
End ensures.

Lemma returns_ensures {A} (m : rand A) (P : A → Prop) : returns m P → ensures m P.
Proof.
  intros Hr s a s' Hms. destruct (Hr s) as (a' & s'' & Hms' & Ha).
  congruence.
Qed.

Lemma ensures_lift {A} (r : result A) (P : A → Prop) :
  (∀ a, r = Ok a → P a) → ensures (lift r) P.
Proof. intros Hr s a s'. unfold lift. destruct r; [|done]. intros [= <- _]. auto. Qed.

Lemma ensures_sample2 {A} (population : list A) :
  ensures (sample2 population) (λ p, p.1 ∈ population ∧ p.2 ∈ population).
Proof.
  unfold sample2. cbv zeta. case_decide; [by intros s a s'|].
  eapply ensures_bind; [apply (returns_ensures _ _ returns_draw)|]. intros d1 _.
  eapply ensures_bind; [apply (returns_ensures _ _ returns_draw)|]. intros d2 _.
  destruct (population !! _) as [x|] eqn:Hx; [|by intros s a s'].
  destruct (population !! _) as [y|] eqn:Hy in |- *; [|by intros s a s'].
  apply ensures_ret. simpl. split; by eapply list_elem_of_lookup_2.
Qed.

Lemma ensures_rand_map {A B} (f : A → rand B) (l : list A) (P : A → B → Prop) :
  (∀ x, x ∈ l → ensures (f x) (P x)) →
  ensures (rand_map f l) (λ ys, Forall2 P l ys).
Proof.
  induction l as [|x l IH]; intros Hf; simpl.
  - apply ensures_ret. constructor.
  - eapply ensures_bind; [apply Hf; left|]. intros y Hy.
    eapply ensures_bind; [apply IH; intros x' Hx'; apply Hf; by right|].
    intros ys Hys. apply ensures_ret. by constructor.
Qed.

Lemma ensures_rand_repeat {A} (k : nat) (m : rand A) (P : A → Prop) :
  ensures m P → ensures (rand_repeat k m) (Forall P).
Proof.
  intros Hm. induction k as [|k IH]; simpl.
  - apply ensures_ret. constructor.
  - eapply ensures_bind; [apply Hm|]. intros x Hx.
    eapply ensures_bind; [apply IH|]. intros xs Hxs.
    apply ensures_ret. by constructor.
Qed.

(** ** The genomes of the optimizer of src/testcase.py *)

Lemma kept_or_flipped_bits (ind ind' : list Z) :
  Forall is_bit ind → Forall2 kept_or_flipped ind ind' → Forall is_bit ind'.
Proof.
  intros Hbits Hall.
  by apply (kept_or_flipped_genome (length ind) ind ind').
Qed.

Section testcase_bits.
Import Testcase.
Context (test_cases : list TestCase) (all_rules : gset string).

Local Abbreviation bits := (Forall (Forall is_bit)).

Lemma ensures_mutate_bit (percent : nat) (b : Z) :
  ensures (mutate_bit percent b) (kept_or_flipped b).
Proof.
  unfold mutate_bit. eapply ensures_bind.
  { apply (returns_ensures _ _ (returns_random_lt percent)). }
  intros [|] _; apply ensures_ret; [by right|by left].
Qed.

Lemma ensures_make_child (population : list (list Z)) :
  bits population → ensures (make_child population) (Forall is_bit).
Proof.
  intros Hpop. unfold make_child.
  eapply ensures_bind; [apply ensures_sample2|].
  intros [p1 p2] [Hp1 Hp2]. simpl in Hp1, Hp2.
  assert (H1 : Forall is_bit p1).
  { eapply (proj1 (Forall_forall _ _) Hpop). by eapply subseteq_take. }
  assert (H2 : Forall is_bit p2).
  { eapply (proj1 (Forall_forall _ _) Hpop). by eapply subseteq_take. }
  eapply ensures_bind with (P := λ _, True); [by intros s a s' _|].
  intros point _. cbv zeta.
  eapply ensures_mono.
  { apply ensures_rand_map. intros b _. apply ensures_mutate_bit. }
  intros child Hall. eapply kept_or_flipped_bits; [|exact Hall].
  apply Forall_app. split; [by apply Forall_take|by apply Forall_drop].
Qed.

Lemma ensures_fill_next_gen (k : nat) (population next_gen : list (list Z)) :
  bits population → bits next_gen →
  ensures (fill_next_gen k population next_gen) bits.
Proof.
  intros Hpop. revert next_gen. induction k as [|k IH]; intros next_gen Hnext; simpl.
  - by apply ensures_ret.
  - eapply ensures_bind; [by apply ensures_make_child|].
    intros child Hchild. apply IH.
    apply Forall_app. split; [done|]. by constructor.
Qed.

Lemma ensures_generation (pop_size : nat) (population : list (list Z)) :
  bits population →
  ensures (generation test_cases all_rules pop_size population) bits.
Proof.
  intros Hpop. unfold generation.
  eapply ensures_bind.
  { apply (ensures_lift _ (λ keys, Forall2 (λ ind k,
             fitness ind test_cases all_rules = Ok k) population keys)).
    intros keys. apply result_map_inv. }
  intros keys Hkeys. cbv zeta.
  assert (Hsorted : bits (sorted_desc (zip keys population)).*2).
  { rewrite sorted_desc_perm, snd_zip; [done|].
    apply Forall2_length in Hkeys. lia. }
  apply ensures_fill_next_gen; [done|]. by apply Forall_take.
Qed.

Lemma ensures_generations_loop (pop_size generations : nat)
    (population : list (list Z)) :
  bits population →
  ensures (generations_loop test_cases all_rules pop_size generations population)
          bits.
Proof.
  revert population. induction generations as [|g IH]; intros population Hpop; simpl.
  - by apply ensures_ret.
  - eapply ensures_bind; [by apply ensures_generation|]. intros p Hp. by apply IH.
Qed.

Lemma ensures_initial_population (pop_size : nat) :
  ensures (initial_population test_cases pop_size) bits.
Proof.
  unfold initial_population. apply ensures_rand_repeat.
  eapply ensures_mono.
  { apply (ensures_rand_map _ _ (λ _ b, is_bit b)). intros tc _.
    eapply ensures_mono; [apply returns_ensures, (returns_randint 0 1); lia|].
    unfold is_bit. simpl. lia. }
  intros ind Hall. clear -Hall.
  induction Hall; constructor; done.
Qed.

Lemma ensures_genetic_algorithm (pop_size generations : nat) :
  ensures (genetic_algorithm test_cases all_rules pop_size generations)
          (Forall is_bit).
Proof.
  unfold genetic_algorithm.
  eapply ensures_bind; [apply ensures_initial_population|]. intros p0 Hp0.
  eapply ensures_bind; [by apply ensures_generations_loop|]. intros p Hp.
  destruct p as [|best rest]; [by intros s a s'|].
  apply ensures_ret. by apply Forall_cons in Hp as [? _].
Qed.

(** X20: whenever the optimizer of src/testcase.py returns, the genome it
    returns holds only the bits 0 and 1, so that the decoding by truth value
    [if bit] selects the test cases whose bit is 1; and it returns, with one
    bit per test case, when the set of rule identifiers is not empty, the
    population has at least one individual, and the pool has at least two
    test cases or the population at most two individuals. *)
Theorem genetic_algorithm_bits (pop_size generations : nat) (s : rng) :
  (∀ best,
     run (genetic_algorithm test_cases all_rules pop_size generations) s = Ok best →
     Forall is_bit best
     ∧ selected_cases best test_cases
       = (filter (λ p, p.1 = 1%Z) (zip best test_cases)).*2)
  ∧ (all_rules ≠ ∅ → (1 ≤ pop_size)%nat →
     (pop_size ≤ 2 ∨ 2 ≤ length test_cases)%nat →
     ∃ best,
       run (genetic_algorithm test_cases all_rules pop_size generations) s = Ok best
       ∧ length best = length test_cases).
Proof.
  split.
  - intros best Hrun. unfold run in Hrun.
    destruct (genetic_algorithm _ _ _ _ s) as [[best' s']|e] eqn:Hga; [|done].
    injection Hrun as ->.
    pose proof (ensures_genetic_algorithm pop_size generations _ _ _ Hga) as Hbits.
    split; [done|]. unfold selected_cases. f_equal.
    clear Hga. revert test_cases.
    induction Hbits as [|b best Hb Hbits IH]; intros [|tc tcs]; try done.
    simpl. rewrite !filter_cons. simpl. rewrite IH.
    destruct Hb as [-> | ->]; by rewrite ?decide_True, ?decide_False by done.
  - intros Hrules Hpos Hsize. apply returns_run. unfold genetic_algorithm.
    eapply returns_bind; [apply returns_initial_population|].
    intros population0 [Hlen0 Hgen0].
    eapply returns_bind; [by apply returns_generations_loop|].
    intros population [Hlen Hgen].
    destruct population as [|best rest]; [simpl in Hlen; lia|].
    apply returns_ret. by apply Forall_cons in Hgen as [? _].
Qed.
End testcase_bits.

(** ** The decoded suite *)

Section decoding.
Import Testcase.

Lemma selected_cases_cons (b : Z) (individual : list Z) (tc : TestCase)
    (test_cases : list TestCase) :
  selected_cases (b :: individual) (tc :: test_cases)
  = if decide (b ≠ 0%Z) then tc :: selected_cases individual test_cases
    else selected_cases individual test_cases.
Proof.
  unfold selected_cases. simpl. rewrite filter_cons. simpl.
  by case_decide.
Qed.

Lemma selected_cases_sublist (individual : list Z) (test_cases : list TestCase) :
  selected_cases individual test_cases `sublist_of` test_cases.
Proof.
  revert individual. induction test_cases as [|tc tcs IH]; intros [|b individual].
  - done.
  - done.
  - apply sublist_nil_l.
  - rewrite selected_cases_cons. case_decide.
    + apply sublist_skip, IH.
    + apply sublist_cons, IH.
Qed.

(** X21: the suite a genome selects keeps the test cases of the pool in
    their order, each at most once; selected from a generated pool, its test
    cases have pairwise distinct ids. *)
Theorem selected_suite_in_pool_order (order : SetOrder) (individual : list Z)
    (test_cases : list TestCase) (rules : list Rule) :
  selected_cases individual test_cases `sublist_of` test_cases
  ∧ NoDup (tc_id <$> selected_cases individual (generate_test_cases rules)).
Proof.
  split; [apply selected_cases_sublist|].
  eapply sublist_NoDup; [|apply fmap_sublist, selected_cases_sublist].
  unfold generate_test_cases. cbv zeta. rewrite generate_loop_ids.
  apply NoDup_seq.
Qed.
End decoding.

(** * The request builder (src/testcase.py, xacml_testcase_ga.py)

    [build_request_xml] is the same function in both files. *)

Module RequestXml.

(** The double quote and the line feed, which a string literal of this file
    does not hold. *)
Definition dq : string := String (Ascii.ascii_of_nat 34) EmptyString.
Definition nl : string := String (Ascii.ascii_of_nat 10) EmptyString.

(** ["\n".join(xml)] *)
Fixpoint join (sep : string) (xml : list string) : string :=
  match xml with
  | [] => EmptyString
  | [line] => line
  | line :: rest => (line ++ sep ++ join sep rest)%string
  end.

(** The body of the first loop:
    [grouped.setdefault(category, []).append((attr, value))]. *)
Definition group_step (grouped : dict (list (string * string)))
    (item : string * (string * string)) : dict (list (string * string)) :=
  let '(attr, (value, category)) := item in
  dict_update (λ items, items ++ [(attr, value)])
              (dict_setdefault grouped category []) category.

Definition group_by_category (attributes : dict (string * string))
    : dict (list (string * string)) :=
  foldl group_step [] attributes.

(** The three-line f-string appended per attribute; it starts with a line
    feed. *)
Definition attribute_block (item : string * string) : string :=
  let '(attr, value) := item in
  (nl ++ "    <Attribute AttributeId=" ++ dq ++ attr ++ dq ++ ">" ++ nl
      ++ "      <AttributeValue>" ++ value ++ "</AttributeValue>" ++ nl
      ++ "    </Attribute>")%string.

(** The entries appended to [xml] for one category. *)
Definition category_lines (group : string * list (string * string)) : list string :=
  let '(category, items) := group in
  [("  <Attributes Category=" ++ dq ++ category ++ dq ++ ">")%string]
    ++ (attribute_block <$> items)
    ++ ["  </Attributes>"].

Definition xml_header : string :=
  ("<?xml version=" ++ dq ++ "1.0" ++ dq ++ " encoding=" ++ dq ++ "UTF-8" ++ dq
   ++ "?>")%string.

(** The list [xml] when the function joins it. *)
Definition request_lines (attributes : dict (string * string)) : list string :=
  [xml_header; "<Request>"]
    ++ (group_by_category attributes ≫= category_lines)
    ++ ["</Request>"].

Definition build_request_xml (attributes : dict (string * string)) : string :=
  join nl (request_lines attributes).

End RequestXml.

(** The entries of an assignment, read back from its groups. *)
Definition ungroup (group : string * list (string * string))
    : list (string * (string * string)) :=
  (λ item, (item.1, (item.2, group.1))) <$> group.2.

Definition entries_of (grouped : dict (list (string * string)))
    : list (string * (string * string)) :=
  grouped ≫= ungroup.

(** The attribute and value of an assignment entry of category [category]. *)
Definition item_on (category : string) (entry : string * (string * string))
    : option (string * string) :=
  if decide (entry.2.2 = category) then Some (entry.1, entry.2.1) else None.

Section request_facts.
Import RequestXml.
Implicit Types (grouped : dict (list (string * string))).

Lemma entries_of_update grouped category item :
  category ∈ dict_keys grouped →
  entries_of (dict_update (λ items, items ++ [item]) grouped category)
  ≡ₚ entries_of grouped ++ [(item.1, (item.2, category))].
Proof.
  unfold entries_of, dict_keys.
  induction grouped as [|[k items] grouped IH]; simpl.
  - by intros ?%elem_of_nil.
  - intros Hin. case_decide as Hk.
    + subst k. rewrite bind_cons. unfold ungroup at 1 3. simpl.
      rewrite fmap_app. simpl. rewrite <-!app_assoc.
      apply Permutation_app_head. apply Permutation_app_comm.
    + apply elem_of_cons in Hin as [?|Hin]; [congruence|].
      rewrite bind_cons, IH by done. by rewrite app_assoc.
Qed.

Lemma entries_of_step grouped entry :
  entries_of (group_step grouped entry) ≡ₚ entries_of grouped ++ [entry].
Proof.
  destruct entry as [attr [value category]]. cbn [group_step].
  rewrite (entries_of_update _ category (attr, value)).
  - simpl. apply Permutation_app_tail.
    unfold dict_setdefault. destruct (dict_get grouped category); [done|].
    unfold entries_of. rewrite bind_app. simpl. by rewrite app_nil_r.
  - apply dict_keys_get, dict_setdefault_present.
Qed.

Lemma entries_of_fold grouped (attributes : dict (string * string)) :
  entries_of (foldl group_step grouped attributes)
  ≡ₚ entries_of grouped ++ attributes.
Proof.
  revert grouped. induction attributes as [|entry attributes IH]; intros grouped.
  - by rewrite app_nil_r.
  - cbn [foldl]. rewrite IH, entries_of_step. by rewrite <-app_assoc.
Qed.

Lemma group_step_keys grouped entry :
  dict_keys (group_step grouped entry) = add_new (dict_keys grouped) entry.2.2.
Proof.
  destruct entry as [attr [value category]]. cbn [group_step].
  rewrite dict_keys_update. apply dict_keys_setdefault.
Qed.

Lemma group_fold_keys grouped (attributes : dict (string * string)) :
  dict_keys (foldl group_step grouped attributes)
  = foldl add_new (dict_keys grouped) ((λ entry, entry.2.2) <$> attributes).
Proof.
  revert grouped. induction attributes as [|entry attributes IH]; intros grouped.
  - done.
  - cbn [foldl fmap list_fmap]. rewrite IH. f_equal. apply group_step_keys.
Qed.

Lemma group_fold_get grouped (attributes : dict (string * string)) category :
  dict_get (foldl group_step grouped attributes) category
  = match dict_get grouped category with
    | Some items => Some (items ++ omap (item_on category) attributes)
    | None => match omap (item_on category) attributes with
              | [] => None
              | items => Some items
              end
    end.
Proof.
  revert grouped. induction attributes as [|[attr [value c]] attributes IH];
    intros grouped.
  - simpl. destruct (dict_get grouped category); [|done]. by rewrite app_nil_r.
  - cbn [foldl]. rewrite IH. cbn [group_step].
    rewrite dict_get_update, dict_get_setdefault, omap_cons.
    change (item_on category (attr, (value, c)))
      with (if decide (c = category) then Some (attr, value) else None).
    destruct (decide (c = category)) as [->|Hne].
    + destruct (dict_get grouped category) as [items|]; simpl.
      * by rewrite <-app_assoc.
      * done.
    + destruct (dict_get grouped category) as [items|]; simpl; done.
Qed.

(** X22: [build_request_xml] groups the entries of an assignment by
    category: the groups are in the order in which their categories first
    occur, one per category; the group of a category lists the attributes
    and values of that category in assignment order; and the groups hold the
    entries of the assignment, each once. *)
Theorem request_groups (attributes : dict (string * string)) :
  let grouped := group_by_category attributes in
  dict_keys grouped = first_occurrences ((λ entry, entry.2.2) <$> attributes)
  ∧ NoDup (dict_keys grouped)
  ∧ (∀ category,
       dict_get grouped category
       = match omap (item_on category) attributes with
         | [] => None
         | items => Some items
         end)
  ∧ entries_of grouped ≡ₚ attributes.
Proof.
  intros grouped. unfold grouped, group_by_category.
  split; [apply group_fold_keys|]. split; [|split].
  - rewrite group_fold_keys. apply add_new_fold_NoDup, NoDup_nil_2.
  - intros category. by rewrite group_fold_get.
  - by rewrite entries_of_fold.
Qed.

Lemma length_category_lines_one (group : string * list (string * string)) :
  length (category_lines group) = (2 + length group.2)%nat.
Proof.
  destruct group as [category items]. unfold category_lines.
  rewrite !length_app, length_fmap. simpl. lia.
Qed.

Lemma length_ungroup (group : string * list (string * string)) :
  length (ungroup group) = length group.2.
Proof. unfold ungroup. apply length_fmap. Qed.

Lemma length_category_lines (grouped : dict (list (string * string))) :
  length (grouped ≫= category_lines)
  = (2 * length grouped + length (entries_of grouped))%nat.
Proof.
  unfold entries_of. induction grouped as [|group grouped IH]; [done|].
  rewrite !bind_cons, !length_app, IH, length_category_lines_one, length_ungroup.
  simpl. lia.
Qed.

(** X23: the request has one entry of [xml] per assignment entry, two per
    distinct category, and three more (the header, the opening and the
    closing of the request). *)
Theorem request_line_count (attributes : dict (string * string)) :
  length (request_lines attributes)
  = (3 + 2 * size (list_to_set ((λ entry, entry.2.2) <$> attributes) : gset string)
     + length attributes)%nat.
Proof.
  unfold request_lines. rewrite !length_app, length_category_lines.
  unfold group_by_category. rewrite entries_of_fold. simpl.
  assert (Hkeys : length (foldl group_step [] attributes)
    = size (list_to_set ((λ entry, entry.2.2) <$> attributes) : gset string)).
  { rewrite <-(length_fmap fst). change (fst <$> ?d) with (dict_keys d).
    rewrite group_fold_keys.
    rewrite <-(size_list_to_set (C := gset string))
      by apply add_new_fold_NoDup, NoDup_nil_2.
    f_equal. apply set_eq. intros category.
    rewrite !elem_of_list_to_set, add_new_fold_elem, elem_of_nil. naive_solver. }
  rewrite Hkeys. lia.
Qed.
End request_facts.


(** * The first generator (src/xacml-lab/generate_test_cases.py) *)

Module GenerateTestCases.

(** A rule as [parse_policy] of this file returns it; the role is [None]
    when the rule holds no attribute value. *)
Record Rule := {
  rule_id : string;
  role : option string;
  effect : string
}.

(** The dictionary with the keys role and expected. *)
Record TestCase := {
  tc_role : option string;
  expected : string
}.

(** What a call returns or raises; a call that nests deeper than the
    interpreter allows raises RecursionError. *)
Inductive outcome (A : Type) : Type :=
| Returned (a : A)
| RecursionError
| IndexError.
Arguments Returned {A} a.
Arguments RecursionError {A}.
Arguments IndexError {A}.

(** The inner function [dfs], on the list [test_cases] it appends to;
    [depth] is the number of nested calls the interpreter still allows. *)
Fixpoint dfs (depth : nat) (rules : list Rule) (rule_index : nat)
    (test_cases : list TestCase) : outcome (list TestCase) :=
  match depth with
  | O => RecursionError
  | S depth' =>
      if decide (rule_index = length rules) then Returned test_cases
      else
        match rules !! rule_index with
        | None => IndexError
        | Some rule =>
            dfs depth' rules (rule_index + 1)
                (test_cases ++ [ {| tc_role := role rule; expected := effect rule |} ])
        end
  end.

Definition dfs_generate_test_cases (depth : nat) (rules : list Rule)
    : outcome (list TestCase) :=
  dfs depth rules 0 [].

End GenerateTestCases.

(** * The simulated evaluator (src/xacml-lab/evaluate_request.py) *)

Module EvaluateRequest.

(** [role] is [None] when the request holds no role attribute. *)
Definition evaluate_policy (role : option string) : string :=
  if decide (role = Some "manager") then "Permit"
  else if decide (role = Some "guest") then "Deny"
  else "NotApplicable".

End EvaluateRequest.

Section first_generator.
Import GenerateTestCases.

(** The test case built from a rule. *)
Definition case_of (rule : Rule) : TestCase :=
  {| tc_role := role rule; expected := effect rule |}.

Lemma dfs_from (depth : nat) (rules : list Rule) (rule_index : nat)
    (test_cases : list TestCase) :
  (rule_index ≤ length rules)%nat →
  dfs depth rules rule_index test_cases
  = if decide (length rules - rule_index < depth)%nat
    then Returned (test_cases ++ (case_of <$> drop rule_index rules))
    else RecursionError.
Proof.
  revert rule_index test_cases.
  induction depth as [|depth IH]; intros rule_index test_cases Hle; cbn [dfs].
  - case_decide; [lia|done].
  - case_decide as Hend.
    + rewrite decide_True by lia. subst rule_index.
      by rewrite drop_all, app_nil_r.
    + destruct (rules !! rule_index) as [rule|] eqn:Hrule.
      * rewrite IH by (apply lookup_lt_Some in Hrule; lia).
        rewrite (drop_S _ _ _ Hrule), fmap_cons, <-app_assoc.
        fold (case_of rule). simpl. rewrite Nat.add_1_r.
        repeat case_decide; try lia; done.
      * apply lookup_ge_None in Hrule. lia.
Qed.

(** X24: the first generator returns one test case per rule, in rule order,
    with the role and the effect of the rule, when the interpreter allows
    more nested calls than there are rules; otherwise it raises
    RecursionError. It never takes a rule out of range. *)
Theorem dfs_generate_test_cases_depth (depth : nat) (rules : list Rule) :
  dfs_generate_test_cases depth rules
  = if decide (length rules < depth)%nat
    then Returned (case_of <$> rules)
    else RecursionError.
Proof.
  unfold dfs_generate_test_cases. rewrite dfs_from by lia.
  rewrite Nat.sub_0_r, drop_0. done.
Qed.
End first_generator.

(** X25: the simulated evaluator agrees with the coverage labels of the
    two-rule policy: for every role it answers Permit exactly when the vector
    with that role covers rule-1, Deny exactly when it covers rule-2, and
    NotApplicable exactly when it covers no rule; without a role it answers
    NotApplicable. *)
Theorem evaluate_policy_agrees_with_covers (r c c1 c2 : string) :
  let covers :=
    Testcase.compute_covers (two_rule_policy c1 c2) [("role", (r, c))] in
  (EvaluateRequest.evaluate_policy (Some r) = "Permit" ↔ "rule-1" ∈ covers)
  ∧ (EvaluateRequest.evaluate_policy (Some r) = "Deny" ↔ "rule-2" ∈ covers)
  ∧ (EvaluateRequest.evaluate_policy (Some r) = "NotApplicable" ↔ covers = ∅)
  ∧ EvaluateRequest.evaluate_policy None = "NotApplicable".
Proof.
  intros covers.
  assert (Hcov : covers
    = (if decide (r = "manager") then {["rule-1"]} else ∅)
      ∪ (if decide (r = "guest") then {["rule-2"]} else ∅)).
  { unfold covers, Testcase.compute_covers, two_rule_policy,
      Testcase.rule_holds, Testcase.condition_holds. cbn [foldl forallb].
    cbn [Testcase.conditions Testcase.rule_id dict_get].
    cbn [forallb]. rewrite decide_True by done. cbn [default fst].
    rewrite !andb_true_r.
    destruct (decide (r = "manager")) as [Hm|Hm];
      destruct (decide (r = "guest")) as [Hg|Hg]; try congruence.
    - rewrite (bool_decide_eq_true_2 (r = "manager")) by done.
      rewrite (bool_decide_eq_false_2 (r = "guest")) by congruence. set_solver.
    - rewrite (bool_decide_eq_false_2 (r = "manager")) by done.
      rewrite (bool_decide_eq_true_2 (r = "guest")) by done. set_solver.
    - rewrite (bool_decide_eq_false_2 (r = "manager")) by done.
      rewrite (bool_decide_eq_false_2 (r = "guest")) by done. set_solver. }
  rewrite Hcov. unfold EvaluateRequest.evaluate_policy.
  destruct (decide (r = "manager")) as [->|Hm].
  { rewrite decide_True by done. rewrite (decide_False (P := "manager" = "guest")) by done.
    split; [set_solver|]. split; [|split; [|done]].
    - split; [done|]. set_solver.
    - split; [done|]. intros Heq.
      assert (Hin : "rule-1" ∈ ({["rule-1"]} ∪ ∅ : gset string)) by set_solver.
      rewrite Heq in Hin. set_solver. }
  rewrite (decide_False (P := Some r = Some "manager")) by congruence.
  destruct (decide (r = "guest")) as [->|Hg].
  { rewrite decide_True by done.
    split; [|split; [|split; [|done]]].
    - split; [done|]. set_solver.
    - set_solver.
    - split; [done|]. intros Heq.
      assert (Hin : "rule-2" ∈ (∅ ∪ {["rule-2"]} : gset string)) by set_solver.
      rewrite Heq in Hin. set_solver. }
  rewrite (decide_False (P := Some r = Some "guest")) by congruence.
  split; [|split; [|split; [|done]]].
  - split; [done|]. set_solver.
  - split; [done|]. set_solver.
  - split; [|done]. intros _. set_solver.
Qed.
